(** * Ollama text compressor (xxlv/ai-llmtxt): a verification development

    A shallow embedding of [main.go]: the chunking loop over a
    [bufio.Reader], the per-chunk retry loop around [processChunk], the two
    response parsers (streaming "generate" and single-document "chat"), the
    bounded worker pool, the collection of the results by index and the
    final summary.

    Go strings are byte sequences and are modelled by [string] (a sequence
    of 8-bit [ascii]); a [[]byte] read from the file is a [list byte].
    The standard library packages the program calls ([bufio], [os],
    [encoding/json], [net/http]) are modelled by their documented
    behaviour, next to the code of [main.go] that uses them.

    What is left out: the two progress bars; the text of the messages
    printed and logged (a message is an event with its arguments); a
    response body that breaks off while it is read (a body is read to its
    end, a connection that fails is an error of the POST); a panic in a
    goroutine. The goroutines are interleaved at their operations on the
    channels and on the WaitGroup; what a worker does between two of them
    is one step. *)

From Stdlib Require Import ZArith NArith Strings.Ascii Strings.String Strings.Byte Floats.Floats Uint63.
From stdpp Require Import base tactics option list numbers strings relations.

Set Warnings "-register-all,-abstract-large-number".

Local Open Scope string_scope.
Local Open Scope nat_scope.

(** ** Constants of [main.go] (lines 44-55) *)

Definition chunkSize : nat := 4000.
Definition maxConcurrentRequests : nat := 3.
Definition requestTimeout : nat := 120.
Definition maxRetries : nat := 3.
Definition retryDelay : nat := 2.

(** [defaultBufSize] of package [bufio], the size [bufio.NewReader] gives
    to its buffer. *)
Definition defaultBufSize : nat := 4096.

(** ** The input file and [bufio.Reader] *)

Module Chunker.

(** What one [Read] system call on the open file does: it returns at
    most so many bytes (a short read), or it fails. When the script is
    used up every read is a full one. *)
Inductive read_event :=
| ReadUpTo (n : nat)
| ReadFails.

(** The open [os.File]: the bytes not yet read and the behaviour of the
    coming reads. *)
Record File := mkFile {
  remaining : list byte;
  script : list read_event
}.

(** The [error] values a read can give. *)
Inductive io_error :=
| EOF
| ReadError.

(** [Read(p)] of [os.File] with [len(p) = cap]: some bytes (at least one
    when [cap > 0] and bytes remain) and a nil error, or no byte and
    [io.EOF] at the end of the file, or no byte and another error. *)
Definition file_Read (cap : nat) (f : File) : list byte * option io_error * File :=
  let limit :=
    match script f with
    | ReadUpTo k :: _ => Nat.max 1 k
    | _ => cap
    end in
  match script f with
  | ReadFails :: rest => ([], Some ReadError, mkFile (remaining f) rest)
  | _ =>
      if decide (cap = 0) then ([], None, f)
      else
        match remaining f with
        | [] => ([], Some EOF, mkFile [] (tail (script f)))
        | _ =>
            let n := Nat.min limit cap in
            (take n (remaining f), None,
             mkFile (drop n (remaining f)) (tail (script f)))
        end
  end.

(** [bufio.Reader]: the underlying file, the size of the buffer and the
    buffered bytes not yet handed out ([b.buf[b.r:b.w]]). The sticky
    [b.err] is always nil between two calls here, because the file gives
    an error only together with zero bytes and [Read] hands it out at
    once ([readErr] clears it). *)
Record Reader := mkReader {
  rd : File;
  bufSize : nat;
  buffered : list byte
}.

Definition NewReader (f : File) : Reader := mkReader f defaultBufSize [].

(** [Read(p)] of [bufio.Reader] with [len(p) = n]. *)
Definition Read (n : nat) (b : Reader) : list byte * option io_error * Reader :=
  if decide (n = 0) then
    (* if b.Buffered() > 0 { return 0, nil }; return 0, b.readErr() *)
    ([], None, b)
  else
    match buffered b with
    | [] =>
        if decide (bufSize b <= n) then
          (* Large read, empty buffer: read directly into p. *)
          let '(bs, e, f') := file_Read n (rd b) in
          (bs, e, mkReader f' (bufSize b) [])
        else
          (* One read into the buffer, then copy. *)
          let '(bs, e, f') := file_Read (bufSize b) (rd b) in
          match bs with
          | [] => ([], e, mkReader f' (bufSize b) [])
          | _ => (take n bs, None, mkReader f' (bufSize b) (drop n bs))
          end
    | bs => (take n bs, None, mkReader (rd b) (bufSize b) (drop n bs))
    end.

(** The outcome of the chunking loop: the chunks, or the fatal read
    error ([log.Fatalf], line 129). *)
Inductive chunking :=
| Chunks (cs : list string)
| ReadFatal.

(** The loop of lines 122-135, with [size] for [chunkSize]; [fuel]
    bounds the number of iterations, [None] is fuel run out. *)
Fixpoint read_chunks (fuel : nat) (size : nat) (reader : Reader)
    (chunks : list string) : option chunking :=
  match fuel with
  | 0 => None
  | S fuel' =>
      let '(bs, err, reader') := Read size reader in
      match err with
      | Some EOF => Some (Chunks chunks)
      | Some ReadError => Some ReadFatal
      | None =>
          read_chunks fuel' size reader'
            (chunks ++ [string_of_list_byte bs])
      end
  end.

(** Bytes the reader still has to hand out. *)
Definition pending (b : Reader) : list byte := buffered b ++ remaining (rd b).

(** The chunker on a file, with enough fuel for every file (each
    iteration but the last hands out at least one byte). *)
Definition split (size : nat) (f : File) : option chunking :=
  read_chunks (S (length (remaining f))) size (NewReader f) [].

Definition no_failure (f : File) : Prop :=
  Forall (fun e => e <> ReadFails) (script f).

End Chunker.

(** Concatenation of Go strings. *)
Definition concat_strings (l : list string) : string :=
  fold_right String.append "" l.

(** [strings.Join(elems, sep)]. *)
Fixpoint Join (elems : list string) (sep : string) : string :=
  match elems with
  | [] => ""
  | [e] => e
  | e :: rest => e ++ sep ++ Join rest sep
  end.

(** ** Package [encoding/json], as far as [processChunk] uses it *)

Module Json.

(** A JSON document. Strings and keys are held unquoted; a number keeps
    its literal, which [Unmarshal] converts only where it stores it. *)
Inductive value :=
| Null
| Bool (b : bool)
| Number (lit : string)
| Str (s : string)
| Array (elems : list value)
| Object (members : list (string * value)).

Definition code (c : ascii) : N := N_of_ascii c.
Definition chr (n : N) : ascii := ascii_of_N n.

(** The double quote, the backslash and the other bytes of the grammar. *)
Definition dquote : ascii := "034"%char.
Definition backslash : ascii := "092"%char.

Definition isSpace (c : ascii) : bool :=
  let n := code c in
  ((n =? 32) || (n =? 9) || (n =? 13) || (n =? 10))%N.

Definition isDigit (c : ascii) : bool :=
  let n := code c in ((48 <=? n) && (n <=? 57))%N.

Fixpoint skip_space (s : string) : string :=
  match s with
  | String c r => if isSpace c then skip_space r else s
  | EmptyString => s
  end.

(** The longest prefix of digits, and the rest. *)
Fixpoint span_digits (s : string) : string * string :=
  match s with
  | String c r =>
      if isDigit c then let '(d, r') := span_digits r in (String c d, r')
      else ("", s)
  | EmptyString => ("", "")
  end.

(** [n] bytes of [s] and the rest. *)
Fixpoint split_at (n : nat) (s : string) : string * string :=
  match n, s with
  | S n', String c r => let '(a, b) := split_at n' r in (String c a, b)
  | _, _ => ("", s)
  end.

(** A number literal at the head of [s], by the scanner's grammar: an
    optional minus sign; a zero, or a digit from 1 to 9 and more digits;
    an optional fraction, a point and at least one digit; an optional
    exponent, [e] or [E], an optional sign and at least one digit. *)
Definition scan_number (s : string) : option (string * string) :=
  let '(sign, s1) :=
    match s with
    | String "-" r => ("-", r)
    | _ => ("", s)
    end in
  let int_part :=
    match s1 with
    | String "0" r => Some ("0", r)
    | String c _ =>
        if isDigit c then Some (span_digits s1) else None
    | EmptyString => None
    end in
  match int_part with
  | None => None
  | Some (ds, s2) =>
      let frac_part :=
        match s2 with
        | String "." r =>
            match span_digits r with
            | ("", _) => None
            | (fs, r') => Some (String "." fs, r')
            end
        | _ => Some ("", s2)
        end in
      match frac_part with
      | None => None
      | Some (fs, s3) =>
          let exp_part :=
            match s3 with
            | String c r =>
                if ((code c =? 101) || (code c =? 69))%N then
                  let '(es, r1) :=
                    match r with
                    | String "+" r' => ("+", r')
                    | String "-" r' => ("-", r')
                    | _ => ("", r)
                    end in
                  match span_digits r1 with
                  | ("", _) => None
                  | (xs, r') => Some (String c (es ++ xs), r')
                  end
                else Some ("", s3)
            | EmptyString => Some ("", s3)
            end in
          match exp_part with
          | None => None
          | Some (xs, s4) => Some (sign ++ ds ++ fs ++ xs, s4)
          end
      end
  end.

(** *** Strings: [unquote] *)

Definition hexval (c : ascii) : option N :=
  let n := code c in
  if ((48 <=? n) && (n <=? 57))%N then Some (n - 48)%N
  else if ((97 <=? n) && (n <=? 102))%N then Some (n - 87)%N
  else if ((65 <=? n) && (n <=? 70))%N then Some (n - 55)%N
  else None.

(** [getu4]: the code unit of a [\uXXXX] at the head of [s], and the
    rest. *)
Definition getu4 (s : string) : option (N * string) :=
  match s with
  | String b (String u (String h1 (String h2 (String h3 (String h4 r))))) =>
      if (Ascii.eqb b backslash && Ascii.eqb u "u")%bool then
        match hexval h1, hexval h2, hexval h3, hexval h4 with
        | Some a, Some b, Some c, Some d =>
            Some (a * 4096 + b * 256 + c * 16 + d, r)%N
        | _, _, _, _ => None
        end
      else None
  | _ => None
  end.

Definition string_of_codes (l : list N) : string :=
  fold_right (fun n s => String (chr n) s) "" l.

(** [utf8.EncodeRune]: surrogates and values over U+10FFFF are written
    as U+FFFD. *)
Definition EncodeRune (r : N) : string :=
  (if r <? 128 then string_of_codes [r]
   else if r <? 2048 then
     string_of_codes [192 + r / 64; 128 + r mod 64]
   else if ((55296 <=? r) && (r <? 57344)) || (1114111 <? r) then
     string_of_codes [239; 191; 189]
   else if r <? 65536 then
     string_of_codes [224 + r / 4096; 128 + (r / 64) mod 64; 128 + r mod 64]
   else
     string_of_codes [240 + r / 262144; 128 + (r / 4096) mod 64;
                      128 + (r / 64) mod 64; 128 + r mod 64])%N.

Definition between (lo hi : N) (c : ascii) : bool :=
  ((lo <=? code c) && (code c <=? hi))%N.

(** [utf8.DecodeRune] on a byte of 0x80 or more at the head of [s]: the
    width of the well-formed encoding that starts there, or [0] when
    there is none (Go then reads one byte as [RuneError]). *)
Definition rune_width (s : string) : nat :=
  match s with
  | String p0 r =>
      let n := code p0 in
      let cont2 (lo hi : N) :=
        match r with
        | String b1 _ => between lo hi b1
        | _ => false
        end in
      let cont3 (lo hi : N) :=
        match r with
        | String b1 (String b2 _) => between lo hi b1 && between 128%N 191%N b2
        | _ => false
        end in
      let cont4 (lo hi : N) :=
        match r with
        | String b1 (String b2 (String b3 _)) =>
            between lo hi b1 && between 128%N 191%N b2 && between 128%N 191%N b3
        | _ => false
        end in
      let lead (lo hi : N) := ((lo <=? n) && (n <=? hi))%N in
      if lead 194%N 223%N then (if cont2 128%N 191%N then 2 else 0)
      else if lead 224%N 224%N then (if cont3 160%N 191%N then 3 else 0)
      else if lead 225%N 236%N then (if cont3 128%N 191%N then 3 else 0)
      else if lead 237%N 237%N then (if cont3 128%N 159%N then 3 else 0)
      else if lead 238%N 239%N then (if cont3 128%N 191%N then 3 else 0)
      else if lead 240%N 240%N then (if cont4 144%N 191%N then 4 else 0)
      else if lead 241%N 243%N then (if cont4 128%N 191%N then 4 else 0)
      else if lead 244%N 244%N then (if cont4 128%N 143%N then 4 else 0)
      else 0
  | EmptyString => 0
  end.

(** The body of a string literal, after its opening quote: the unquoted
    string and what follows the closing quote. Escapes are decoded, a
    [\u] surrogate pair becomes one rune, a lone surrogate and every byte
    that is not part of well-formed UTF-8 become U+FFFD; a control
    character, an unknown escape or a missing closing quote is a syntax
    error. *)
Fixpoint unquote (fuel : nat) (s : string) : option (string * string) :=
  match fuel with
  | 0 => None
  | S fuel' =>
      match s with
      | EmptyString => None
      | String c r =>
          if Ascii.eqb c dquote then Some ("", r)
          else if Ascii.eqb c backslash then
            match r with
            | EmptyString => None
            | String e r' =>
                let simple (x : N) :=
                  '(t, rest) ← unquote fuel' r'; Some (String (chr x) t, rest) in
                let n := code e in
                (if (n =? 34) || (n =? 92) || (n =? 47) then simple n
                 else if n =? 98 then simple 8
                 else if n =? 102 then simple 12
                 else if n =? 110 then simple 10
                 else if n =? 114 then simple 13
                 else if n =? 116 then simple 9
                 else if n =? 117 then
                   match getu4 s with
                   | None => None
                   | Some (rr, r1) =>
                       if (55296 <=? rr) && (rr <? 57344) then
                         match getu4 r1 with
                         | Some (rr1, r2) =>
                             if (rr <? 56320) && (56320 <=? rr1) && (rr1 <? 57344)
                             then
                               '(t, rest) ← unquote fuel' r2;
                               Some ((EncodeRune
                                        ((rr - 55296) * 1024 + (rr1 - 56320) + 65536)
                                      ++ t)%string, rest)
                             else
                               '(t, rest) ← unquote fuel' r1;
                               Some ((EncodeRune 65533 ++ t)%string, rest)
                         | None =>
                             '(t, rest) ← unquote fuel' r1;
                             Some ((EncodeRune 65533 ++ t)%string, rest)
                         end
                       else
                         '(t, rest) ← unquote fuel' r1;
                         Some ((EncodeRune rr ++ t)%string, rest)
                   end
                 else None)%N
            end
          else if (code c <? 32)%N then None
          else if (code c <? 128)%N then
            '(t, rest) ← unquote fuel' r; Some (String c t, rest)
          else
            match rune_width s with
            | 0 =>
                '(t, rest) ← unquote fuel' r;
                Some ((EncodeRune 65533 ++ t)%string, rest)
            | w =>
                let '(rune, r1) := split_at w s in
                '(t, rest) ← unquote fuel' r1;
                Some ((rune ++ t)%string, rest)
            end
      end
  end.

(** [maxNestingDepth] of the scanner. *)
Definition maxNestingDepth : nat := 10000.

Definition has_prefix (p s : string) : option string :=
  if String.prefix p s then Some (snd (split_at (String.length p) s)) else None.

(** One value at the head of [s], after optional space, and the rest;
    [depth] is the number of arrays and objects open around it. *)
Fixpoint parse_value (fuel depth : nat) (s : string) : option (value * string) :=
  match fuel with
  | 0 => None
  | S fuel' =>
      match skip_space s with
      | EmptyString => None
      | String c r =>
          let n := code c in
          if (n =? 123)%N then
            if decide (maxNestingDepth <= depth) then None
            else
              match skip_space r with
              | String "}" r' => Some (Object [], r')
              | _ => parse_members fuel' (S depth) r []
              end
          else if (n =? 91)%N then
            if decide (maxNestingDepth <= depth) then None
            else
              match skip_space r with
              | String "]" r' => Some (Array [], r')
              | _ => parse_elements fuel' (S depth) r []
              end
          else if (n =? 34)%N then
            '(t, rest) ← unquote (String.length s) r; Some (Str t, rest)
          else if (n =? 116)%N then
            rest ← has_prefix "true" (String c r); Some (Bool true, rest)
          else if (n =? 102)%N then
            rest ← has_prefix "false" (String c r); Some (Bool false, rest)
          else if (n =? 110)%N then
            rest ← has_prefix "null" (String c r); Some (Null, rest)
          else
            '(lit, rest) ← scan_number (String c r); Some (Number lit, rest)
      end
  end
with parse_members (fuel depth : nat) (s : string)
    (acc : list (string * value)) : option (value * string) :=
  match fuel with
  | 0 => None
  | S fuel' =>
      match skip_space s with
      | String c r =>
          if (code c =? 34)%N then
            '(k, r1) ← unquote (String.length s) r;
            match skip_space r1 with
            | String ":" r2 =>
                '(v, r3) ← parse_value fuel' depth r2;
                match skip_space r3 with
                | String "," r4 => parse_members fuel' depth r4 (acc ++ [(k, v)])
                | String "}" r4 => Some (Object (acc ++ [(k, v)]), r4)
                | _ => None
                end
            | _ => None
            end
          else None
      | EmptyString => None
      end
  end
with parse_elements (fuel depth : nat) (s : string)
    (acc : list value) : option (value * string) :=
  match fuel with
  | 0 => None
  | S fuel' =>
      '(v, r1) ← parse_value fuel' depth s;
      match skip_space r1 with
      | String "," r2 => parse_elements fuel' depth r2 (acc ++ [v])
      | String "]" r2 => Some (Array (acc ++ [v]), r2)
      | _ => None
      end
  end.

(** The whole input as one document ([checkValid] and the decoder's
    reading of it): one value with space around it. Every call of the
    parser that uses up fuel has at least one byte of its own within two
    calls, so twice the length is enough fuel. *)
Definition parse (data : string) : option value :=
  '(v, rest) ← parse_value (2 * String.length data + 2) 0 data;
  match skip_space rest with
  | EmptyString => Some v
  | _ => None
  end.

End Json.

(** *** Storing a document: [json.Unmarshal] *)

Module Decode.
Import Json.

(** The digits of [s] as a number. *)
Definition digits_value (s : string) : Z :=
  fold_left (fun acc c => acc * 10 + Z.of_N (code c - 48))%Z
    (list_ascii_of_string s) 0%Z.

(** The exponent as [strconv] reads it: once it has reached 10000 it
    takes no further digit. *)
Definition exponent_value (s : string) : Z :=
  fold_left (fun e c => if (e <? 10000)%Z then e * 10 + Z.of_N (code c - 48) else e)%Z
    (list_ascii_of_string s) 0%Z.

(** The least magnitude that rounds to infinity in float64: half an ulp
    over the largest finite value. *)
Definition float64_overflow_threshold : Z := (2 ^ 1024 - 2 ^ 970)%Z.

(** [strconv.ParseFloat(lit, 64)] on a JSON number literal returns a nil
    error unless the value overflows float64 ([ErrRange]). *)
Definition ParseFloat_ok (lit : string) : bool :=
  let s1 := match lit with String "-" r => r | _ => lit end in
  let '(ds, s2) := span_digits s1 in
  let '(fs, s3) :=
    match s2 with
    | String "." r => span_digits r
    | _ => ("", s2)
    end in
  let e :=
    match s3 with
    | String _ (String "-" r) => (- exponent_value r)%Z
    | String _ (String "+" r) => exponent_value r
    | String _ r => exponent_value r
    | EmptyString => 0%Z
    end in
  let m := digits_value (ds ++ fs) in
  let p := (e - Z.of_nat (String.length fs))%Z in
  if (m =? 0)%Z then true
  else if (0 <=? p)%Z then (m * 10 ^ p <? float64_overflow_threshold)%Z
  else (m <? float64_overflow_threshold * 10 ^ (- p))%Z.

Definition upper (c : ascii) : ascii :=
  let n := code c in
  if ((97 <=? n) && (n <=? 122))%N then chr (n - 32) else c.

(** A key of the input names the field tagged [name] (lower-case ASCII
    here) when the two are equal under Unicode simple case folding: byte
    for byte up to the case of ASCII letters, and with U+017F (long s,
    bytes C5 BF) for [s] and U+212A (Kelvin sign, bytes E2 84 AA) for
    [k]. An exact match is preferred, but no two fields of one struct
    here fold to the same name. *)
Fixpoint fold_eq (name key : string) : bool :=
  match name, key with
  | EmptyString, EmptyString => true
  | String c name', String k key' =>
      if Ascii.eqb (upper k) (upper c) then fold_eq name' key'
      else if (Ascii.eqb c "s" && (code k =? 197)%N)%bool then
        match key' with
        | String k1 key'' => (code k1 =? 191)%N && fold_eq name' key''
        | _ => false
        end
      else if (Ascii.eqb c "k" && (code k =? 226)%N)%bool then
        match key' with
        | String k1 (String k2 key'') =>
            (code k1 =? 132)%N && (code k2 =? 170)%N && fold_eq name' key''
        | _ => false
        end
      else false
  | _, _ => false
  end.

(** Storing a value in a [string] or a [bool] field: [null] leaves the
    field as it is, a value of another kind is an [UnmarshalTypeError]
    ([None]; the decoder goes on, and [Unmarshal] returns the error). *)
Definition store_string (v : value) (old : string) : option string :=
  match v with
  | Str s => Some s
  | Null => Some old
  | _ => None
  end.

Definition store_bool (v : value) (old : bool) : option bool :=
  match v with
  | Bool b => Some b
  | Null => Some old
  | _ => None
  end.

(** The members of an object stored one after the other, in the order
    of the input, into a struct. *)
Definition store_members {T : Type} (store : T -> string * value -> option T)
    (init : T) (members : list (string * value)) : option T :=
  fold_left (fun acc kv => r ← acc; store r kv) members (Some init).

(** A document stored into a struct: an object field by field, [null]
    without effect, anything else an [UnmarshalTypeError]. *)
Definition store_struct {T : Type} (store : T -> string * value -> option T)
    (init : T) (v : value) : option T :=
  match v with
  | Object members => store_members store init members
  | Null => Some init
  | _ => None
  end.

(** Storing into [interface{}] converts every number to float64. *)
Fixpoint numbers_ok (v : value) : bool :=
  match v with
  | Number lit => ParseFloat_ok lit
  | Array elems => forallb numbers_ok elems
  | Object members => forallb (fun kv => let '(_, x) := kv in numbers_ok x) members
  | _ => true
  end.

(** [m[key]] on a map filled from the members in input order: the last
    member with the key. *)
Fixpoint lookup_member (key : string) (members : list (string * value)) : option value :=
  match members with
  | [] => None
  | (k, v) :: rest =>
      match lookup_member key rest with
      | Some v' => Some v'
      | None => if String.eqb k key then Some v else None
      end
  end.

(** [json.Unmarshal(data, &result)] with [result] a nil
    [map[string]interface{}]: [None] is a non-nil error, [Some None] the
    nil map a [null] document leaves, [Some (Some members)] the map. *)
Definition Unmarshal_map (data : string) : option (option (list (string * value))) :=
  v ← parse data;
  match v with
  | Object members => if numbers_ok v then Some (Some members) else None
  | Null => Some None
  | _ => None
  end.

End Decode.

(** ** The response types (lines 21-35) *)

Module OllamaGenerateResponse.
Record t := mk { Response : string; Done : bool }.
Definition zero : t := mk "" false.

Definition store (r : t) (kv : string * Json.value) : option t :=
  let '(k, v) := kv in
  if Decode.fold_eq "response" k then
    s ← Decode.store_string v (Response r); Some (mk s (Done r))
  else if Decode.fold_eq "done" k then
    b ← Decode.store_bool v (Done r); Some (mk (Response r) b)
  else Some r.

(** [json.Unmarshal(line, &generateResp)] on a fresh [generateResp];
    [None] is a non-nil error. *)
Definition Unmarshal (data : string) : option t :=
  v ← Json.parse data; Decode.store_struct store zero v.
End OllamaGenerateResponse.

Module OllamaCompletionResponse.
Record message := mkMessage { Role : string; Content : string }.
Record t := mk {
  Model : string;
  CreatedAt : string;
  Message : message;
  Done : bool
}.
Definition zero : t := mk "" "" (mkMessage "" "") false.

Definition store_message (m : message) (kv : string * Json.value) : option message :=
  let '(k, v) := kv in
  if Decode.fold_eq "role" k then
    s ← Decode.store_string v (Role m); Some (mkMessage s (Content m))
  else if Decode.fold_eq "content" k then
    s ← Decode.store_string v (Content m); Some (mkMessage (Role m) s)
  else Some m.

Definition store (r : t) (kv : string * Json.value) : option t :=
  let '(k, v) := kv in
  if Decode.fold_eq "model" k then
    s ← Decode.store_string v (Model r);
    Some (mk s (CreatedAt r) (Message r) (Done r))
  else if Decode.fold_eq "created_at" k then
    s ← Decode.store_string v (CreatedAt r);
    Some (mk (Model r) s (Message r) (Done r))
  else if Decode.fold_eq "message" k then
    m ← Decode.store_struct store_message (Message r) v;
    Some (mk (Model r) (CreatedAt r) m (Done r))
  else if Decode.fold_eq "done" k then
    b ← Decode.store_bool v (Done r);
    Some (mk (Model r) (CreatedAt r) (Message r) b)
  else Some r.

(** [json.Unmarshal(body, &chatResp)]; [None] is a non-nil error. *)
Definition Unmarshal (data : string) : option t :=
  v ← Json.parse data; Decode.store_struct store zero v.
End OllamaCompletionResponse.

(** ** The HTTP service *)

(** The request bodies of lines 260-288, before [json.Marshal] (which has
    no error on structs of strings). *)
Inductive request :=
| GenerateRequest (Model Prompt : string)
| ChatRequest (Model : string) (Messages : list (string * string)).

(** What [client.Post] gives: an error (no connection, timeout), or a
    response with its status code and its body. The body is read to its
    end; a connection that breaks is an error of the call as a whole.
    [EOFWithData] tells how the reader of the body reports its end: with
    [io.EOF] together with the last bytes (as [net/http] does for a body
    whose length is known), or by a further read of no byte. *)
Inductive http_outcome :=
| TransportError
| HttpResponse (StatusCode : nat) (Body : string) (EOFWithData : bool).

(** The errors [processChunk] returns, one per [fmt.Errorf]. *)
Inductive process_error :=
| ErrCreatingRequest
| ErrCallingAPI
| ErrStatus (code : nat) (body : string)
| ErrParsingLine
| ErrReadingStream
| ErrReadingResponse
| ErrParsingChat
| ErrNoContent (body : string).

Definition StatusOK : nat := 200.

Definition prompt_prefix : string :=
  "Compress this text fragment without losing important information: ".

(** *** [bufio.Scanner] with the default split function [ScanLines] *)

(** [bufio.MaxScanTokenSize]: the size the buffer of the scanner grows
    to. A line and its newline have to be in the buffer together, so that
    a line of this many bytes or more, followed by a newline, does not fit
    ([ErrTooLong]). *)
Definition MaxScanTokenSize : nat := 65536.

(** The lines of the body, as the bytes before each newline; no empty
    line after a last newline. *)
Fixpoint split_lines (s : string) : list string :=
  match s with
  | EmptyString => []
  | String c r =>
      if Ascii.eqb c "010"%char then "" :: split_lines r
      else
        match split_lines r with
        | [] => [String c ""]
        | l :: ls => String c l :: ls
        end
  end.

(** The body ends with a newline: its last line is terminated. *)
Fixpoint ends_with_newline (s : string) : bool :=
  match s with
  | EmptyString => false
  | String c EmptyString => Ascii.eqb c "010"%char
  | String _ r => ends_with_newline r
  end.

(** The number of bytes from which the last line of the body is
    [ErrTooLong]. A last line without newline is handed out when the end
    of the input has been seen. If the read that fills the buffer with a
    line of exactly [MaxScanTokenSize] bytes reports [io.EOF] as well, the
    line is handed out; if the end is reported by a further read, the
    scanner finds its buffer full before that read and gives up. *)
Definition last_line_limit (body : string) (eofWithData : bool) : nat :=
  if eofWithData && negb (ends_with_newline body) then S MaxScanTokenSize
  else MaxScanTokenSize.

(** [dropCR]: a carriage return at the end of the line is dropped. *)
Fixpoint dropCR (line : string) : string :=
  match line with
  | String c EmptyString => if Ascii.eqb c "013"%char then "" else line
  | String c r => String c (dropCR r)
  | EmptyString => ""
  end.

(** The loop of lines 313-327 over the lines still unread, [result] being
    the [strings.Builder] and [lastLimit] the limit for the last line. *)
Fixpoint scan_generate (lastLimit : nat) (lines : list string) (result : string)
    : string * option process_error :=
  match lines with
  | [] => (result, None)
  | line :: rest =>
      let limit :=
        match rest with
        | [] => lastLimit
        | _ => MaxScanTokenSize
        end in
      if decide (limit <= String.length line) then
        (* Scan returns false, scanner.Err() is ErrTooLong *)
        ("", Some ErrReadingStream)
      else
        match OllamaGenerateResponse.Unmarshal (dropCR line) with
        | None => ("", Some ErrParsingLine)
        | Some generateResp =>
            let result' := result ++ OllamaGenerateResponse.Response generateResp in
            if OllamaGenerateResponse.Done generateResp then (result', None)
            else scan_generate lastLimit rest result'
        end
  end.

(** Lines 328-351: the chat response. *)
Definition parse_chat (body : string) : string * option process_error :=
  let primary :=
    match OllamaCompletionResponse.Unmarshal body with
    | Some chatResp =>
        let content :=
          OllamaCompletionResponse.Content (OllamaCompletionResponse.Message chatResp) in
        if String.eqb content "" then None else Some content
    | None => None
    end in
  match primary with
  | Some content => (content, None)
  | None =>
      (* Fallback parsing for unexpected format *)
      match Decode.Unmarshal_map body with
      | None => ("", Some ErrParsingChat)
      | Some result =>
          match result ≫= Decode.lookup_member "message" with
          | Some (Json.Object message) =>
              match Decode.lookup_member "content" message with
              | Some (Json.Str content) => (content, None)
              | _ => ("", Some (ErrNoContent body))
              end
          | _ => ("", Some (ErrNoContent body))
          end
      end
  end.

(** [processChunk] (lines 253-352); [post] is what the service answers to
    this call. [json.Marshal] of a struct of strings has a nil error, and
    the body is read to its end, so that the returns of lines 292 and 332
    are not taken ([ErrCreatingRequest], [ErrReadingResponse]). *)
Definition processChunk (post : string -> request -> http_outcome)
    (ollamaURL modelName content apiEndpoint : string)
    : string * option process_error :=
  let requestBody :=
    if String.eqb apiEndpoint "generate" then
      GenerateRequest modelName (prompt_prefix ++ content)
    else
      ChatRequest modelName [("user", prompt_prefix ++ content)] in
  match post ollamaURL requestBody with
  | TransportError => ("", Some ErrCallingAPI)
  | HttpResponse StatusCode Body eofWithData =>
      if decide (StatusCode ≠ StatusOK) then ("", Some (ErrStatus StatusCode Body))
      else if String.eqb apiEndpoint "generate" then
        scan_generate (last_line_limit Body eofWithData) (split_lines Body) ""
      else
        parse_chat Body
  end.

(** ** The worker (lines 166-196) *)

Record ChunkResult := mkChunkResult {
  Index : nat;
  Content : string;
  Error : option process_error
}.

(** The service during a run: its answer to each attempt for each chunk. *)
Definition service := nat -> nat -> string -> request -> http_outcome.

(** What a worker does besides sending its result. *)
Inductive worker_event :=
| Sleep (seconds : nat)
| Attempt (attempt : nat)
| LogAttempt (attempt index : nat) (e : process_error)
| LogAllFailed (index : nat) (e : process_error).

(** The command line flags (lines 59-63). *)
Record Flags := mkFlags {
  inputFile : string;
  modelName : string;
  outputFile : string;
  apiEndpoint : string;
  ollamaBaseURL : string
}.

(** [fmt.Sprintf("%s/%s", *ollamaBaseURL, *apiEndpoint)] (line 92). *)
Definition ollamaURL (fl : Flags) : string :=
  ollamaBaseURL fl ++ "/" ++ apiEndpoint fl.

(** The loop of lines 174-186 from [attempt] on, with [n] iterations left
    before [attempt] reaches [maxRetries]; [cur] is [(result, processErr)]. *)
Fixpoint retry_loop (srv : service) (fl : Flags) (index : nat)
    (content : string) (n attempt : nat)
    (cur : string * option process_error) (log : list worker_event)
    : string * option process_error * list worker_event :=
  match n with
  | 0 => (cur, log)
  | S n' =>
      let log1 := if decide (0 < attempt) then (log ++ [Sleep retryDelay])%list else log in
      let r := processChunk (srv index attempt) (ollamaURL fl) (modelName fl)
                 content (apiEndpoint fl) in
      match r.2 with
      | None => (r, (log1 ++ [Attempt attempt])%list)
      | Some e =>
          retry_loop srv fl index content n' (S attempt) r
            (log1 ++ [Attempt attempt; LogAttempt (attempt + 1) index e])
      end
  end.

(** The body of the goroutine up to its send: the [ChunkResult] it sends
    and what it did. *)
Definition worker (srv : service) (fl : Flags) (retries : nat)
    (index : nat) (content : string) : ChunkResult * list worker_event :=
  let '(result, processErr, log) :=
    retry_loop srv fl index content retries 0 ("", None) [] in
  match processErr with
  | Some e =>
      (* Use original on error *)
      (mkChunkResult index content (Some e), (log ++ [LogAllFailed index e])%list)
  | None => (mkChunkResult index result None, log)
  end.

Definition attempts (log : list worker_event) : list nat :=
  omap (fun e => match e with Attempt a => Some a | _ => None end) log.

(** ** The worker pool (lines 156-217) *)

Module Pool.

(** Where a worker goroutine is: in its body, holding a slot of the
    semaphore, before its send; after the send, with both deferred calls
    still to run; after the deferred release of the slot; after the
    deferred [wg.Done()]. *)
Inductive wphase :=
| WRunning
| WSent
| WReleased
| WExited.

(** Where the main goroutine is: at the head of the loop of line 162
    with the next index; after [wg.Add(1)]; after the send on
    [semaphore], before [go]; in the [range results] loop; past it. *)
Inductive main_pc :=
| MLoop (i : nat)
| MAcquire (i : nat)
| MGo (i : nat)
| MCollect
| MDone.

(** The goroutine of lines 200-203. *)
Inductive closer_pc :=
| CNotStarted
| CWaiting
| CDone.

Record state := mkState {
  pc : main_pc;
  semaphore : nat;             (* elements in the channel [semaphore] *)
  wg : nat;                    (* counter of the WaitGroup *)
  results : list ChunkResult;  (* elements in the channel [results] *)
  closed : bool;               (* [results] is closed *)
  closer : closer_pc;
  workers : list wphase;       (* the goroutines started, by index *)
  processedChunks : list string;
  errorCount : nat;
  received : list ChunkResult  (* what the collector has taken so far *)
}.

Definition holds_slot (ph : wphase) : bool :=
  match ph with
  | WRunning | WSent => true
  | _ => false
  end.

Definition has_sent (ph : wphase) : bool :=
  match ph with
  | WRunning => false
  | _ => true
  end.

Definition not_exited (ph : wphase) : bool :=
  match ph with
  | WExited => false
  | _ => true
  end.

Definition count (p : wphase -> bool) (ws : list wphase) : nat :=
  sum_list_with (fun ph => if p ph then 1 else 0) ws.

(** The worker bodies in progress: started and slot not yet released. *)
Definition active (s : state) : nat := count holds_slot (workers s).

Definition failed (r : ChunkResult) : bool :=
  match Error r with
  | Some _ => true
  | None => false
  end.

Section Steps.
(** The chunks, what the body of the worker for a chunk sends, and the
    capacity of the semaphore. *)
Variable chunks : list string.
Variable run : nat -> string -> ChunkResult.
Variable K : nat.

Definition init : state :=
  mkState (MLoop 0) 0 0 [] false CNotStarted [] [] 0 [].

(** One step of one goroutine. A send on a full channel and a receive
    on an empty one block: the step is not there. *)
Inductive step : state -> state -> Prop :=
| step_add s i :
    (* wg.Add(1) *)
    pc s = MLoop i -> i < length chunks ->
    step s (mkState (MAcquire i) (semaphore s) (S (wg s)) (results s)
              (closed s) (closer s) (workers s) (processedChunks s)
              (errorCount s) (received s))
| step_acquire s i :
    (* semaphore <- struct{}{} *)
    pc s = MAcquire i -> semaphore s < K ->
    step s (mkState (MGo i) (S (semaphore s)) (wg s) (results s)
              (closed s) (closer s) (workers s) (processedChunks s)
              (errorCount s) (received s))
| step_go s i :
    (* go func(index int, content string) {...}(i, chunk) *)
    pc s = MGo i ->
    step s (mkState (MLoop (S i)) (semaphore s) (wg s) (results s)
              (closed s) (closer s) (workers s ++ [WRunning])
              (processedChunks s) (errorCount s) (received s))
| step_loop_end s :
    (* the range is over: go func() { wg.Wait(); close(results) }()
       and processedChunks := make([]string, len(chunks)) *)
    pc s = MLoop (length chunks) ->
    step s (mkState MCollect (semaphore s) (wg s) (results s)
              (closed s) CWaiting (workers s)
              (replicate (length chunks) "") 0 (received s))
| step_work s i content :
    (* the retry loop and results <- ChunkResult{...} *)
    workers s !! i = Some WRunning -> chunks !! i = Some content ->
    length (results s) < length chunks ->
    step s (mkState (pc s) (semaphore s) (wg s)
              (results s ++ [run i content])
              (closed s) (closer s) (<[i:=WSent]> (workers s))
              (processedChunks s) (errorCount s) (received s))
| step_release s i :
    (* defer func() { <-semaphore }() *)
    workers s !! i = Some WSent -> 0 < semaphore s ->
    step s (mkState (pc s) (semaphore s - 1) (wg s) (results s)
              (closed s) (closer s) (<[i:=WReleased]> (workers s))
              (processedChunks s) (errorCount s) (received s))
| step_done s i :
    (* defer wg.Done() *)
    workers s !! i = Some WReleased -> 0 < wg s ->
    step s (mkState (pc s) (semaphore s) (wg s - 1) (results s)
              (closed s) (closer s) (<[i:=WExited]> (workers s))
              (processedChunks s) (errorCount s) (received s))
| step_close s :
    (* wg.Wait() returns; close(results) *)
    closer s = CWaiting -> wg s = 0 ->
    step s (mkState (pc s) (semaphore s) (wg s) (results s)
              true CDone (workers s)
              (processedChunks s) (errorCount s) (received s))
| step_receive s result rest :
    (* for result := range results { processedChunks[result.Index] = ... } *)
    pc s = MCollect -> results s = result :: rest ->
    Index result < length (processedChunks s) ->
    step s (mkState MCollect (semaphore s) (wg s) rest
              (closed s) (closer s) (workers s)
              (<[Index result := Content result]> (processedChunks s))
              (if failed result then S (errorCount s) else errorCount s)
              (received s ++ [result]))
| step_range_end s :
    (* results is closed and empty *)
    pc s = MCollect -> results s = [] -> closed s = true ->
    step s (mkState MDone (semaphore s) (wg s) (results s)
              (closed s) (closer s) (workers s)
              (processedChunks s) (errorCount s) (received s)).

(** The states a run can be in. *)
Inductive reachable : state -> Prop :=
| reachable_init : reachable init
| reachable_step s s' : reachable s -> step s s' -> reachable s'.

(** The goroutine that takes the next step of a schedule. *)
Inductive actor :=
| Main
| Closer
| Worker (i : nat).

(** The step of one goroutine as a function: [None] when the
    goroutine is blocked or has ended. *)
Definition exec_step (s : state) (a : actor) : option state :=
  match a with
  | Main =>
      match pc s with
      | MLoop i =>
          if decide (i < length chunks) then
            Some (mkState (MAcquire i) (semaphore s) (S (wg s)) (results s)
                    (closed s) (closer s) (workers s) (processedChunks s)
                    (errorCount s) (received s))
          else if decide (i = length chunks) then
            Some (mkState MCollect (semaphore s) (wg s) (results s)
                    (closed s) CWaiting (workers s)
                    (replicate (length chunks) "") 0 (received s))
          else None
      | MAcquire i =>
          if decide (semaphore s < K) then
            Some (mkState (MGo i) (S (semaphore s)) (wg s) (results s)
                    (closed s) (closer s) (workers s) (processedChunks s)
                    (errorCount s) (received s))
          else None
      | MGo i =>
          Some (mkState (MLoop (S i)) (semaphore s) (wg s) (results s)
                  (closed s) (closer s) (workers s ++ [WRunning])
                  (processedChunks s) (errorCount s) (received s))
      | MCollect =>
          match results s with
          | result :: rest =>
              if decide (Index result < length (processedChunks s)) then
                Some (mkState MCollect (semaphore s) (wg s) rest
                        (closed s) (closer s) (workers s)
                        (<[Index result := Content result]> (processedChunks s))
                        (if failed result then S (errorCount s) else errorCount s)
                        (received s ++ [result]))
              else None
          | [] =>
              if closed s then
                Some (mkState MDone (semaphore s) (wg s) (results s)
                        (closed s) (closer s) (workers s)
                        (processedChunks s) (errorCount s) (received s))
              else None
          end
      | MDone => None
      end
  | Closer =>
      match closer s with
      | CWaiting =>
          if decide (wg s = 0) then
            Some (mkState (pc s) (semaphore s) (wg s) (results s)
                    true CDone (workers s)
                    (processedChunks s) (errorCount s) (received s))
          else None
      | _ => None
      end
  | Worker i =>
      match workers s !! i with
      | Some WRunning =>
          match chunks !! i with
          | Some content =>
              if decide (length (results s) < length chunks) then
                Some (mkState (pc s) (semaphore s) (wg s)
                        (results s ++ [run i content])
                        (closed s) (closer s) (<[i:=WSent]> (workers s))
                        (processedChunks s) (errorCount s) (received s))
              else None
          | None => None
          end
      | Some WSent =>
          if decide (0 < semaphore s) then
            Some (mkState (pc s) (semaphore s - 1) (wg s) (results s)
                    (closed s) (closer s) (<[i:=WReleased]> (workers s))
                    (processedChunks s) (errorCount s) (received s))
          else None
      | Some WReleased =>
          if decide (0 < wg s) then
            Some (mkState (pc s) (semaphore s) (wg s - 1) (results s)
                    (closed s) (closer s) (<[i:=WExited]> (workers s))
                    (processedChunks s) (errorCount s) (received s))
          else None
      | _ => None
      end
  end.

(** A schedule run from a state. *)
Fixpoint exec (schedule : list actor) (s : state) : option state :=
  match schedule with
  | [] => Some s
  | a :: rest =>
      match exec_step s a with
      | Some s' => exec rest s'
      | None => None
      end
  end.

(** What every worker sends, by index: the result of the pool that
    does not depend on the schedule. *)
Definition outputs : list ChunkResult := imap run chunks.

(** The steps still to come, whatever the schedule. *)
Definition phase_weight (ph : wphase) : nat :=
  match ph with
  | WRunning => 4     (* send, release, done, and its receive *)
  | WSent => 2
  | WReleased => 1
  | WExited => 0
  end.

Definition pc_weight (p : main_pc) : nat :=
  match p with
  | MLoop i => 7 * (length chunks - i) + 4
  | MAcquire i => 7 * (length chunks - i) + 3
  | MGo i => 7 * (length chunks - i) + 2
  | MCollect => 1
  | MDone => 0
  end.

Definition measure (s : state) : nat :=
  pc_weight (pc s)
  + sum_list_with phase_weight (workers s)
  + length (results s)
  + (if closed s then 0 else 1).

(** *** What holds in every state of a run *)

Definition in_loop (p : main_pc) : bool :=
  match p with
  | MLoop _ | MAcquire _ | MGo _ => true
  | _ => false
  end.

(** The workers started so far. *)
Definition spawned (p : main_pc) : nat :=
  match p with
  | MLoop i | MAcquire i | MGo i => i
  | _ => length chunks
  end.

(** The slot taken for a worker that is not started yet, and the
    count added to the WaitGroup for it. *)
Definition slot_taken (p : main_pc) : nat :=
  match p with MGo _ => 1 | _ => 0 end.

Definition wg_added (p : main_pc) : nat :=
  match p with MAcquire _ | MGo _ => 1 | _ => 0 end.

Record inv (s : state) : Prop := mkInv {
  inv_spawned : length (workers s) = spawned (pc s);
  inv_bound : spawned (pc s) + wg_added (pc s) <= length chunks;
  inv_sem : semaphore s = count holds_slot (workers s) + slot_taken (pc s);
  inv_sem_le : semaphore s <= K;
  inv_wg : wg s = count not_exited (workers s) + wg_added (pc s);
  inv_closer : in_loop (pc s) = true ↔ closer s = CNotStarted;
  inv_closed : closed s = true ↔ closer s = CDone;
  inv_quiet : closed s = true -> wg s = 0;
  inv_sent : ∀ r, r ∈ (received s ++ results s)%list ↔
    ∃ i c ph, workers s !! i = Some ph ∧ has_sent ph = true ∧
              chunks !! i = Some c ∧ r = run i c;
  inv_nodup : NoDup (Index <$> (received s ++ results s)%list);
  inv_length : in_loop (pc s) = false -> length (processedChunks s) = length chunks;
  inv_loop : in_loop (pc s) = true -> received s = [];
  inv_stored : ∀ r, r ∈ received s -> processedChunks s !! Index r = Some (Content r);
  inv_errors : errorCount s = length (filter (fun r => failed r = true) (received s));
  inv_done : pc s = MDone -> results s = [] ∧ closed s = true
}.

End Steps.

End Pool.

(** The pool of [main]: the workers of lines 166-196 under a semaphore of
    [maxConcurrentRequests] slots. *)
Definition pool_step (srv : service) (fl : Flags) (chunks : list string) :=
  Pool.step chunks (fun i c => (worker srv fl maxRetries i c).1) maxConcurrentRequests.

Definition pool_reachable (srv : service) (fl : Flags) (chunks : list string) :=
  Pool.reachable chunks (fun i c => (worker srv fl maxRetries i c).1) maxConcurrentRequests.

Definition pool_outputs (srv : service) (fl : Flags) (chunks : list string)
    : list ChunkResult :=
  Pool.outputs chunks (fun i c => (worker srv fl maxRetries i c).1).

(** ** [main] (lines 57-250) *)

(** *** [flag.Parse] (line 64)

    The five flags of lines 59-63 are string flags of [flag.CommandLine],
    whose error handling is [ExitOnError]. *)

Definition default_flags : Flags :=
  mkFlags "" "llama3.2-vision:latest" "llm.txt" "generate"
    "http://localhost:11434/api".

(** [flag.Value.Set] of the flag with the name; [None] when no flag of the
    name is defined. *)
Definition set_flag (name value : string) (fl : Flags) : option Flags :=
  if String.eqb name "input" then
    Some (mkFlags value (modelName fl) (outputFile fl) (apiEndpoint fl) (ollamaBaseURL fl))
  else if String.eqb name "model" then
    Some (mkFlags (inputFile fl) value (outputFile fl) (apiEndpoint fl) (ollamaBaseURL fl))
  else if String.eqb name "output" then
    Some (mkFlags (inputFile fl) (modelName fl) value (apiEndpoint fl) (ollamaBaseURL fl))
  else if String.eqb name "api" then
    Some (mkFlags (inputFile fl) (modelName fl) (outputFile fl) value (ollamaBaseURL fl))
  else if String.eqb name "url" then
    Some (mkFlags (inputFile fl) (modelName fl) (outputFile fl) (apiEndpoint fl) value)
  else None.

(** The text up to the first [=] and the text after it. *)
Fixpoint cut_at_equals (s : string) : string * option string :=
  match s with
  | EmptyString => ("", None)
  | String c r =>
      if Ascii.eqb c "="%char then ("", Some r)
      else let '(name, value) := cut_at_equals r in (String c name, value)
  end.

(** The name and the value of [name=value]; the [=] cannot be the first
    character of the name. *)
Definition name_and_value (s : string) : string * option string :=
  match s with
  | EmptyString => ("", None)
  | String c r => let '(name, value) := cut_at_equals r in (String c name, value)
  end.

Inductive flag_outcome :=
| Parsed (fl : Flags)
| HelpRequested                (* [ErrHelp]: usage, exit code 0 *)
| FlagError (msg : string).    (* message and usage, exit code 2 *)

(** [flag.Parse()] on the arguments after the name of the program, from
    the values [fl] set so far: [parseOne] until the first argument that
    is no flag, or after [--]. *)
Fixpoint flag_Parse (args : list string) (fl : Flags) : flag_outcome :=
  match args with
  | [] => Parsed fl
  | s :: rest =>
      match s with
      | String "-" (String c r) =>
          let flag_text := if Ascii.eqb c "-"%char then r else String c r in
          if Ascii.eqb c "-"%char && String.eqb r "" then
            (* "--" terminates the flags *)
            Parsed fl
          else
            match flag_text with
            | EmptyString => FlagError ("bad flag syntax: " ++ s)
            | String c0 _ =>
                if Ascii.eqb c0 "-"%char || Ascii.eqb c0 "="%char then
                  FlagError ("bad flag syntax: " ++ s)
                else
                  let '(name, value) := name_and_value flag_text in
                  match set_flag name "" fl with
                  | None =>
                      if String.eqb name "help" || String.eqb name "h" then HelpRequested
                      else FlagError ("flag provided but not defined: -" ++ name)
                  | Some _ =>
                      match value with
                      | Some v =>
                          match set_flag name v fl with
                          | Some fl' => flag_Parse rest fl'
                          | None => FlagError ("flag provided but not defined: -" ++ name)
                          end
                      | None =>
                          match rest with
                          | v :: rest' =>
                              match set_flag name v fl with
                              | Some fl' => flag_Parse rest' fl'
                              | None =>
                                  FlagError ("flag provided but not defined: -" ++ name)
                              end
                          | [] => FlagError ("flag needs an argument: -" ++ name)
                          end
                      end
                  end
            end
      | _ => Parsed fl    (* shorter than two bytes, or no [-] first: no flag *)
      end
  end.

(** *** The body of [main] after [flag.Parse] (lines 66-250) *)

(** What the run finds outside the program. *)
Record World := mkWorld {
  stat_input : option Z;               (* os.Stat(inputFile): the size, or an error *)
  open_input : option Chunker.File;    (* os.Open(inputFile) *)
  srv : service;                       (* the Ollama service *)
  filepath_Dir : string -> string;     (* filepath.Dir of the platform *)
  MkdirAll_ok : bool;
  WriteFile_ok : bool;
  stat_output_ok : bool;               (* os.Stat(outputFile) after the write *)
  WriteFile_partial : option nat
    (* what [os.WriteFile] leaves when it fails: [None], the file could not
       be opened and is as it was; [Some n], the file was created or
       truncated, and at most [n] bytes were written before the error *)
}.

(** What the run does that can be seen from outside. *)
Inductive event :=
| Println (s : string)
| Usage
| PrintProcessing (file : string) (fileSize : Z)
| PrintModel (model : string)
| PrintEndpoint (api : string)
| PrintSplitting (totalChunks : Z)
| MkdirAll (dir : string)
| WriteFile (name : string) (data : string)
| WriteFilePartial (name : string) (written : string)
| PrintSummary (ok total errors : nat)
| PrintSaved (name : string)
| PrintRatio (compressionRatio : float) (fileSize outputSize : Z)
| Fatal (msg : string)
| PrintFlagError (msg : string).

(** [float64(n)] for a file size. *)
Definition float64_of_int (n : Z) : float :=
  if (n <? 0)%Z then PrimFloat.opp (PrimFloat.of_uint63 (Uint63.of_Z (- n)))
  else PrimFloat.of_uint63 (Uint63.of_Z n).

(** Lines 241-249, once [os.Stat] has given the size of the output. *)
Definition compressionRatio (fileSize outputSize : Z) : float :=
  PrimFloat.div (float64_of_int fileSize) (float64_of_int outputSize).

Definition separator : string := String "010"%char (String "010"%char "").

(** The exit code of [log.Fatalf] and of [os.Exit(1)]. *)
Definition exit_failure : Z := 1.
Definition exit_success : Z := 0.
(** The exit code of [flag.Parse] on a command line it rejects. *)
Definition exit_usage : Z := 2.

(** [main] from line 66 on, with the values of the flags that
    [flag.Parse] has given: from the flags and the world to what the run
    does and its exit code; [None] is a run that does not end (the
    chunking loop out of fuel). The pool is taken by its outputs, which
    are the same under every schedule. *)
Definition main (fl : Flags) (w : World) : option (list event * Z) :=
  if String.eqb (inputFile fl) "" then
    Some ([Println "Error: Input file is required"; Usage], exit_failure)
  else if negb (String.eqb (apiEndpoint fl) "generate")
          && negb (String.eqb (apiEndpoint fl) "chat") then
    Some ([Println "Error: API endpoint must be 'generate' or 'chat'"; Usage],
          exit_failure)
  else
    match stat_input w with
    | None => Some ([Fatal "Error getting file info"], exit_failure)
    | Some fileSize =>
        let ev1 := [PrintProcessing (inputFile fl) fileSize;
                    PrintModel (modelName fl);
                    PrintEndpoint (apiEndpoint fl)] in
        match open_input w with
        | None => Some ((ev1 ++ [Fatal "Error opening file"])%list, exit_failure)
        | Some file =>
            let totalChunks :=
              ((fileSize + Z.of_nat chunkSize - 1) ÷ Z.of_nat chunkSize)%Z in
            let ev2 := (ev1 ++ [PrintSplitting totalChunks])%list in
            match Chunker.split chunkSize file with
            | None => None
            | Some Chunker.ReadFatal =>
                Some ((ev2 ++ [Fatal "Error reading chunk"])%list, exit_failure)
            | Some (Chunker.Chunks chunks) =>
                let outs := pool_outputs (srv w) fl chunks in
                let processedChunks := Content <$> outs in
                let errorCount := length (filter (fun r => Pool.failed r = true) outs) in
                let combinedContent := Join processedChunks separator in
                let outputDir := filepath_Dir w (outputFile fl) in
                let ev3 :=
                  if String.eqb outputDir "." then ev2
                  else (ev2 ++ [MkdirAll outputDir])%list in
                if negb (String.eqb outputDir ".") && negb (MkdirAll_ok w) then
                  Some ((ev3 ++ [Fatal "Error creating output directory"])%list,
                        exit_failure)
                else if negb (WriteFile_ok w) then
                  let left_behind :=
                    match WriteFile_partial w with
                    | Some n =>
                        [WriteFilePartial (outputFile fl)
                           (String.substring 0 n combinedContent)]
                    | None => []
                    end in
                  Some ((ev3 ++ left_behind
                         ++ [Fatal "Error writing to output file"])%list,
                        exit_failure)
                else
                  let ev4 :=
                    (ev3 ++ [WriteFile (outputFile fl) combinedContent;
                             PrintSummary (length chunks - errorCount)
                               (length chunks) errorCount;
                             PrintSaved (outputFile fl)])%list in
                  let outputSize := Z.of_nat (String.length combinedContent) in
                  if stat_output_ok w then
                    Some ((ev4 ++ [PrintRatio (compressionRatio fileSize outputSize)
                                     fileSize outputSize])%list,
                          exit_success)
                  else Some (ev4, exit_success)
            end
        end
    end.

(** The program from its command line: [flag.Parse] (line 64), which ends
    the run for a command line it rejects and for [-h] or [-help], and then
    the body of [main]. *)
Definition program (args : list string) (w : World) : option (list event * Z) :=
  match flag_Parse args default_flags with
  | Parsed fl => main fl w
  | HelpRequested => Some ([Usage], exit_success)
  | FlagError msg => Some ([PrintFlagError msg; Usage], exit_usage)
  end.

(** The setup of a run succeeds: flags accepted, input found and read
    through, output directory and file written. *)
Definition setup_ok (fl : Flags) (w : World) : Prop :=
  inputFile fl ≠ "" ∧
  (apiEndpoint fl = "generate" ∨ apiEndpoint fl = "chat") ∧
  is_Some (stat_input w) ∧
  (∃ file, open_input w = Some file ∧ Chunker.no_failure file) ∧
  (filepath_Dir w (outputFile fl) = "." ∨ MkdirAll_ok w = true) ∧
  WriteFile_ok w = true.

Definition pool_exec (service : service) (fl : Flags) (chunks : list string) :=
  Pool.exec chunks (fun i c => (worker service fl maxRetries i c).1) maxConcurrentRequests.

(** ** The two branches of the chat parser, as the code has them *)

(** The first branch of lines 334-337: [json.Unmarshal] into the struct
    (keys matched to the fields without regard to case, a later value for
    a field taking the place of an earlier one) has no error and leaves a
    non-empty content. *)
Definition tier_canonical (body : string) : option string :=
  chatResp ← OllamaCompletionResponse.Unmarshal body;
  let content :=
    OllamaCompletionResponse.Content (OllamaCompletionResponse.Message chatResp) in
  if decide (content = "") then None else Some content.

(** The second branch, lines 339-349: [json.Unmarshal] into the generic
    map and the two type assertions. *)
Definition tier_generic (body : string) : option string :=
  result ← Decode.Unmarshal_map body;
  members ← result;
  message ← Decode.lookup_member "message" members;
  match message with
  | Json.Object fields =>
      content ← Decode.lookup_member "content" fields;
      match content with
      | Json.Str text => Some text
      | _ => None
      end
  | _ => None
  end.

(** ** The statements of the specification that are compared with the code *)

(** *** JSON objects as the specification reads them

    The specification speaks of the members of a JSON object by their
    names. What an object says under a name is beyond doubt when its names
    are written in lower-case letters and underscores, as those of the
    Ollama API are, and no name occurs twice. *)

Definition lower_name (s : string) : bool :=
  forallb (fun c => let n := Json.code c in
                    ((97 <=? n) && (n <=? 122) || (n =? 95))%N)
    (list_ascii_of_string s).

Fixpoint distinct (names : list string) : bool :=
  match names with
  | [] => true
  | x :: rest => negb (existsb (String.eqb x) rest) && distinct rest
  end.

Definition plain_object (members : list (string * Json.value)) : bool :=
  forallb lower_name members.*1 && distinct members.*1.

(** The member of an object with the name. *)
Definition field (name : string) (members : list (string * Json.value))
    : option Json.value :=
  snd <$> find (fun kv => String.eqb kv.1 name) members.

(** What an object says for a field that is a string: the string of the
    member with the name; the value [old] that the field had, when the
    member is absent or [null]; nothing, when the member is of another
    type. Likewise for a field that is a boolean. *)
Definition string_member (name : string) (members : list (string * Json.value))
    (old : string) : option string :=
  match field name members with
  | Some (Json.Str s) => Some s
  | Some Json.Null | None => Some old
  | _ => None
  end.

Definition bool_member (name : string) (members : list (string * Json.value))
    (old : bool) : option bool :=
  match field name members with
  | Some (Json.Bool b) => Some b
  | Some Json.Null | None => Some old
  | _ => None
  end.

(** A member that is a string, or is absent or [null]; likewise for a
    boolean. *)
Definition string_or_absent (name : string) (members : list (string * Json.value))
    : bool :=
  match field name members with
  | Some (Json.Str _) | Some Json.Null | None => true
  | _ => false
  end.

Definition bool_or_absent (name : string) (members : list (string * Json.value))
    : bool :=
  match field name members with
  | Some (Json.Bool _) | Some Json.Null | None => true
  | _ => false
  end.

(** *** The generate stream *)






(** A malformed line: no JSON text; a JSON value that is neither an
    object nor [null]; or an object whose [response] is no string or
    whose [done] is no boolean. *)
Definition malformed (line : string) : Prop :=
  match Json.parse (dropCR line) with
  | None => True
  | Some (Json.Object members) =>
      plain_object members = true ∧
      (string_or_absent "response" members = false ∨
       bool_or_absent "done" members = false)
  | Some Json.Null => False
  | Some _ => True
  end.

(** *** The chat answer *)

(** What an object says for the [message] field, over an earlier value
    of the field. *)
Definition message_member (members : list (string * Json.value))
    (old : OllamaCompletionResponse.message)
    : option OllamaCompletionResponse.message :=
  match field "message" members with
  | Some (Json.Object fields) =>
      role ← string_member "role" fields (OllamaCompletionResponse.Role old);
      content ← string_member "content" fields (OllamaCompletionResponse.Content old);
      Some (OllamaCompletionResponse.mkMessage role content)
  | Some Json.Null | None => Some old
  | _ => None
  end.

(** [message.content] of an object by the names of its members. *)
Definition message_content (members : list (string * Json.value)) : option string :=
  match field "message" members with
  | Some (Json.Object fields) =>
      match field "content" fields with
      | Some (Json.Str text) => Some text
      | _ => None
      end
  | _ => None
  end.

(** The [message] member, if it is an object, is a plain one. *)
Definition plain_message (members : list (string * Json.value)) : bool :=
  match field "message" members with
  | Some (Json.Object fields) => plain_object fields
  | _ => true
  end.

(** The canonical shape [{model, created_at, message: {role, content},
    done}]: the members that are there have the types of the shape. *)
Definition canonical_shape (members : list (string * Json.value)) : bool :=
  string_or_absent "model" members && string_or_absent "created_at" members &&
  bool_or_absent "done" members &&
  match field "message" members with
  | Some (Json.Object fields) =>
      string_or_absent "role" fields && string_or_absent "content" fields
  | Some Json.Null | None => true
  | _ => false
  end.

(** The statement of the specification on the chat answer: whenever the
    body is a JSON object whose [message.content] is a string, that string
    is returned, by the first tier or by key lookup in the generic map. *)
Definition chat_content_by_key : Prop :=
  ∀ body members text,
    Json.parse body = Some (Json.Object members) ->
    distinct members.*1 = true ->
    (∀ fields, field "message" members = Some (Json.Object fields) ->
               distinct fields.*1 = true) ->
    message_content members = Some text ->
    parse_chat body = (text, None).

(** *** The assembled text *)

(** The content of the result with the index among the results
    collected. *)
Definition content_at (results : list ChunkResult) (i : nat) : string :=
  match find (fun r => Nat.eqb (Index r) i) results with
  | Some r => Content r
  | None => ""
  end.

(** The contents of the results by ascending index from 0 to [N - 1],
    with the separator between one and the next. *)
Definition text_in_index_order (sep : string) (results : list ChunkResult)
    (N : nat) : string :=
  match content_at results <$> seq 0 N with
  | [] => ""
  | first :: others =>
      concat_strings (first :: ((fun c => sep ++ c) <$> others))
  end.

(** The body is a JSON object with a [message.content] field whose value
    is [text]. *)
Definition has_message_content (body text : string) : Prop :=
  ∃ members fields,
    Json.parse body = Some (Json.Object members) ∧
    Decode.lookup_member "message" members = Some (Json.Object fields) ∧
    Decode.lookup_member "content" fields = Some (Json.Str text).

(** Every call for every chunk fails. *)
Definition every_call_fails (service : service) (fl : Flags) : Prop :=
  ∀ index attempt content,
    is_Some (processChunk (service index attempt) (ollamaURL fl) (modelName fl)
               content (apiEndpoint fl)).2.

(** ** Sample runs *)

Module Sample.

(** Single quotes for double quotes, to write JSON text. *)
Fixpoint json (s : string) : string :=
  match s with
  | String c r => String (if Ascii.eqb c "'" then Json.dquote else c) (json r)
  | EmptyString => EmptyString
  end.

Definition newline : string := String "010"%char "".

Definition flags (api : string) : Flags :=
  mkFlags "book.txt" "llama3.2-vision:latest" "llm.txt" api
    "http://localhost:11434/api".

Definition answer (code : nat) (body : string) : service :=
  fun _ _ _ _ => HttpResponse code body true.

Definition world (size : Z) (data : list byte) (service : service) : World :=
  mkWorld (Some size) (Some (Chunker.mkFile data [])) service
    (fun _ => ".") true true true None.

Definition abcde : list byte := [x61; x62; x63; x64; x65]%byte.

(** A stream of two objects and a line after the one that is done. *)
Definition stream : string :=
  json "{'response':'ab','done':false}" ++ newline ++
  json "{'response':'cd','done':true}" ++ newline ++
  "not json".




(** Two chunks, the second worker sending first. *)
Definition out_of_order : list Pool.actor :=
  [Pool.Main; Pool.Main; Pool.Main; Pool.Main; Pool.Main; Pool.Main; Pool.Main;
   Pool.Worker 1; Pool.Worker 0; Pool.Worker 1; Pool.Worker 1;
   Pool.Worker 0; Pool.Worker 0; Pool.Closer;
   Pool.Main; Pool.Main; Pool.Main].

(** Four chunks, three workers started and in their bodies. *)
Definition three_running : list Pool.actor :=
  [Pool.Main; Pool.Main; Pool.Main; Pool.Main; Pool.Main; Pool.Main;
   Pool.Main; Pool.Main; Pool.Main; Pool.Main].

End Sample.

(** What a run that gets through its setup does, given the size of the
    input and the chunks read. *)
Definition completed_events (fl : Flags) (w : World) (fileSize : Z)
    (chunks : list string) : list event :=
  let outs := pool_outputs (srv w) fl chunks in
  let errorCount := length (filter (fun r => Pool.failed r = true) outs) in
  let combinedContent := Join (Content <$> outs) separator in
  let outputSize := Z.of_nat (String.length combinedContent) in
  ([PrintProcessing (inputFile fl) fileSize;
    PrintModel (modelName fl);
    PrintEndpoint (apiEndpoint fl);
    PrintSplitting ((fileSize + Z.of_nat chunkSize - 1) ÷ Z.of_nat chunkSize)%Z]
   ++ (if String.eqb (filepath_Dir w (outputFile fl)) "." then []
       else [MkdirAll (filepath_Dir w (outputFile fl))])
   ++ [WriteFile (outputFile fl) combinedContent;
       PrintSummary (length chunks - errorCount) (length chunks) errorCount;
       PrintSaved (outputFile fl)]
   ++ (if stat_output_ok w then
         [PrintRatio (compressionRatio fileSize outputSize) fileSize outputSize]
       else []))%list.

(** The statement of the specification on the compression ratio: a ratio
    is printed only for an output of more than 0 bytes, and is then the
    quotient of the sizes; for an output of 0 bytes none is printed, or it
    is reported as undefined (not a number). *)
Definition ratio_guarded_by_output_size : Prop :=
  ∀ fl w events code ratio fileSize outputSize,
    main fl w = Some (events, code) ->
    PrintRatio ratio fileSize outputSize ∈ events ->
    ((0 < outputSize)%Z ∧ ratio = compressionRatio fileSize outputSize) ∨
    (outputSize = 0%Z ∧ PrimFloat.is_nan ratio = true).

(** The statement on present-but-empty content in chat mode: every body
    with an empty [message.content] gives the empty string and no error. *)
Definition empty_content_accepted : Prop :=
  ∀ body, has_message_content body "" -> parse_chat body = ("", None).

(** ** Further notions for the properties of the code *)

(** The pauses of a worker ([time.Sleep], line 177), in seconds. *)
Definition sleeps (log : list worker_event) : list nat :=
  omap (fun e => match e with Sleep n => Some n | _ => None end) log.

(** What the call of line 180 returns at an attempt of the worker for a
    chunk. *)
Definition attempt_result (service : service) (fl : Flags) (index : nat)
    (content : string) (attempt : nat) : string * option process_error :=
  processChunk (service index attempt) (ollamaURL fl) (modelName fl)
    content (apiEndpoint fl).

(** The request [processChunk] builds (lines 258-289). *)
Definition request_of (modelName content apiEndpoint : string) : request :=
  if String.eqb apiEndpoint "generate" then
    GenerateRequest modelName (prompt_prefix ++ content)
  else
    ChatRequest modelName [("user", prompt_prefix ++ content)].

(** The number of chunks announced by line 103 and given to the first
    progress bar as its maximum. *)
Definition totalChunks (fileSize : Z) : Z :=
  ((fileSize + Z.of_nat chunkSize - 1) ÷ Z.of_nat chunkSize)%Z.

(** The number of chunks that come out of [len] bytes read in full reads
    through a buffer of [buf] bytes in chunks of at most [size] bytes:
    two for each full buffer, and one or two for what is left. *)
Definition chunks_read (size buf len : nat) : nat :=
  2 * (len / buf) +
  (if decide (len mod buf = 0) then 0
   else if decide (len mod buf <= size) then 1 else 2).

(** An event that only a run past its setup gives. *)
Definition is_output (e : event) : bool :=
  match e with
  | WriteFile _ _ | PrintSummary _ _ _ | PrintSaved _ | PrintRatio _ _ _ => true
  | _ => false
  end.

(** An event that changes the output file. *)
Definition touches_output (e : event) : bool :=
  match e with
  | WriteFile _ _ | WriteFilePartial _ _ => true
  | _ => false
  end.

(** A run that gets through to the end: the flags are accepted, the input
    is found, opened and read without a fatal error into [chunks], and the
    output directory and file are written. *)
Definition gets_through (fl : Flags) (w : World) (fileSize : Z)
    (chunks : list string) : Prop :=
  inputFile fl ≠ "" ∧
  (apiEndpoint fl = "generate" ∨ apiEndpoint fl = "chat") ∧
  stat_input w = Some fileSize ∧
  (∃ file, open_input w = Some file ∧
           Chunker.split chunkSize file = Some (Chunker.Chunks chunks)) ∧
  (filepath_Dir w (outputFile fl) = "." ∨ MkdirAll_ok w = true) ∧
  WriteFile_ok w = true.

Module SampleMore.

(** A service that is busy for the first [k] attempts on every chunk and
    then answers with the sample stream. *)
Definition flaky (k : nat) : service :=
  fun _ attempt _ _ =>
    if decide (attempt < k) then HttpResponse 503 "busy" true
    else HttpResponse 200 Sample.stream true.

(** A file whose second read fails. *)
Definition broken_file : Chunker.File :=
  Chunker.mkFile Sample.abcde [Chunker.ReadUpTo 2; Chunker.ReadFails].

Definition no_input : World :=
  mkWorld None None (Sample.answer 200 Sample.stream) (fun _ => ".") true true true
    None.

End SampleMore.

(** * Facts *)

Local Open Scope list_scope.

(** ** Strings *)

Lemma string_app_cons (c : ascii) (s t : string) :
  (String c s ++ t)%string = String c (s ++ t)%string.
Proof. reflexivity. Qed.

Lemma string_app_nil_l (s : string) : ("" ++ s)%string = s.
Proof. reflexivity. Qed.

Lemma string_app_nil_r (s : string) : (s ++ "")%string = s.
Proof.
  induction s as [|c s IH]; [done|]. by rewrite string_app_cons, IH.
Qed.

Lemma string_app_assoc (a b c : string) : ((a ++ b) ++ c = a ++ (b ++ c))%string.
Proof.
  induction a as [|x a IH]; [done|]. by rewrite !string_app_cons, IH.
Qed.

Lemma string_of_list_byte_cons (x : byte) (a : list byte) :
  string_of_list_byte (x :: a) = String (ascii_of_byte x) (string_of_list_byte a).
Proof. reflexivity. Qed.

Lemma string_of_list_byte_app (a b : list byte) :
  string_of_list_byte (a ++ b) = (string_of_list_byte a ++ string_of_list_byte b)%string.
Proof.
  induction a as [|x a IH]; [done|].
  change ((x :: a) ++ b) with (x :: (a ++ b)).
  by rewrite !string_of_list_byte_cons, IH, string_app_cons.
Qed.

Lemma string_of_list_byte_length (a : list byte) :
  String.length (string_of_list_byte a) = length a.
Proof.
  induction a as [|x a IH]; [done|].
  rewrite string_of_list_byte_cons. simpl. by rewrite IH.
Qed.

Lemma concat_strings_app (l1 l2 : list string) :
  concat_strings (l1 ++ l2) = (concat_strings l1 ++ concat_strings l2)%string.
Proof.
  induction l1 as [|x l1 IH]; simpl; [done|].
  by rewrite IH, string_app_assoc.
Qed.

(** ** The chunker *)

Section ChunkerFacts.
Import Chunker.

Lemma no_failure_tail (f : File) bs :
  no_failure f -> no_failure (mkFile bs (tail (script f))).
Proof.
  unfold no_failure; simpl. destruct (script f); simpl; [done|].
  by inversion 1.
Qed.

Lemma take_nonempty {A} (n : nat) (l : list A) : 0 < n -> l ≠ [] -> take n l ≠ [].
Proof. destruct n, l; simpl; try done; lia. Qed.

(** A read of the file without failure: the end of the file, or a
    non-empty prefix of what remains, of at most [cap] bytes. *)
Lemma file_Read_spec (cap : nat) (f : File) bs e f' :
  0 < cap -> no_failure f ->
  file_Read cap f = (bs, e, f') ->
  no_failure f' ∧
  ((remaining f = [] ∧ bs = [] ∧ e = Some EOF ∧ remaining f' = []) ∨
   (e = None ∧ bs ≠ [] ∧ length bs <= cap ∧ bs ++ remaining f' = remaining f)).
Proof.
  intros Hcap Hnf.
  assert (Htail : ∀ bs, no_failure (mkFile bs (tail (script f))))
    by (intros; by apply no_failure_tail).
  unfold file_Read. unfold no_failure in Hnf.
  destruct (script f) as [|[k|] rest] eqn:Hs; [| |by inversion Hnf];
    (destruct (decide (cap = 0)); [lia|]);
    (destruct (remaining f) as [|x rem] eqn:Hrem;
      [ intros [= <- <- <-]; split; [by apply Htail | by left]
      | intros [= <- <- <-]; split; [by apply Htail|]; right;
        simpl remaining; rewrite take_drop;
        split_and!; [done | apply take_nonempty; [lia|done]
                    | rewrite length_take; lia | done] ]).
Qed.

(** A read through the buffer hands out the end of the stream, or a
    non-empty prefix of what is pending, of at most [n] bytes. *)
Lemma Read_spec (n : nat) (b : Reader) bs e b' :
  0 < n -> no_failure (rd b) ->
  Read n b = (bs, e, b') ->
  no_failure (rd b') ∧
  ((pending b = [] ∧ bs = [] ∧ e = Some EOF ∧ pending b' = []) ∨
   (e = None ∧ bs ≠ [] ∧ length bs <= n ∧ bs ++ pending b' = pending b)).
Proof.
  intros Hn Hnf. unfold Read, pending.
  destruct (decide (n = 0)); [lia|].
  destruct (buffered b) as [|x buf] eqn:Hbuf.
  - destruct (decide (bufSize b <= n)).
    + destruct (file_Read n (rd b)) as [[bs0 e0] f0] eqn:Hread.
      intros [= <- <- <-]; simpl.
      by apply file_Read_spec in Hread.
    + destruct (file_Read (bufSize b) (rd b)) as [[bs0 e0] f0] eqn:Hread.
      apply file_Read_spec in Hread as [Hnf' Hread]; [|lia|done].
      destruct bs0 as [|y bs0].
      * intros [= <- <- <-]; simpl. split; [done|].
        destruct Hread as [?|(?&?&?)]; [by left | done].
      * intros [= <- <- <-]; simpl. split; [done|]. right.
        destruct Hread as [(?&?&?)|(_&_&_&Hrem)]; [done|].
        rewrite <- Hrem.
        split_and!; [done | by apply take_nonempty | rewrite length_take; lia |].
        by rewrite (assoc_L (++)), take_drop.
  - intros [= <- <- <-]; simpl. split; [done|]. right.
    split_and!; [done | by apply take_nonempty | rewrite length_take; lia |].
    by rewrite (assoc_L (++)), take_drop.
Qed.

(** The loop ends within one iteration more than there are bytes
    pending, and hands them out in order in chunks of at most [size]
    bytes. *)
Lemma read_chunks_spec (size : nat) :
  0 < size ->
  ∀ fuel (b : Reader) (acc : list string),
    no_failure (rd b) -> length (pending b) < fuel ->
    ∃ cs, read_chunks fuel size b acc = Some (Chunks (acc ++ cs)) ∧
          Forall (fun c => 0 < String.length c <= size) cs ∧
          concat_strings cs = string_of_list_byte (pending b).
Proof.
  intros Hsize fuel. induction fuel as [|fuel IH]; intros b acc Hnf Hlen; [lia|].
  simpl. destruct (Read size b) as [[bs e] b'] eqn:HRead.
  apply Read_spec in HRead as [Hnf' HRead]; [|done..].
  destruct HRead as [(Hp&_&->&_)|(->&Hne&Hle&Hpend)].
  - exists []. rewrite Hp, (right_id_L [] (++)). by split_and!.
  - destruct (IH b' (acc ++ [string_of_list_byte bs]) Hnf') as (cs&Hrun&Hall&Hcat).
    { rewrite <- Hpend, length_app in Hlen. destruct bs; [done|]. simpl in Hlen. lia. }
    exists (string_of_list_byte bs :: cs). split_and!.
    + by rewrite Hrun, <- (assoc_L (++)).
    + constructor; [|done]. rewrite string_of_list_byte_length.
      destruct bs; [done | simpl in *; lia].
    + simpl. by rewrite Hcat, <- string_of_list_byte_app, Hpend.
Qed.

(** More fuel does not change the outcome of the loop. *)
Lemma read_chunks_more_fuel (size : nat) :
  ∀ fuel fuel' (b : Reader) (acc : list string) r,
    read_chunks fuel size b acc = Some r -> fuel <= fuel' ->
    read_chunks fuel' size b acc = Some r.
Proof.
  induction fuel as [|fuel IH]; intros fuel' b acc r Hrun Hle; [done|].
  destruct fuel' as [|fuel']; [lia|]. simpl in *.
  destruct (Read size b) as [[bs e] b']. destruct e as [[]|]; [done..|].
  apply IH; [done | lia].
Qed.

End ChunkerFacts.

(** The chunker on a file read without failure. *)
Lemma split_spec (size : nat) (f : Chunker.File) :
  0 < size -> Chunker.no_failure f ->
  ∃ chunks,
    (∀ fuel, length (Chunker.remaining f) < fuel ->
       Chunker.read_chunks fuel size (Chunker.NewReader f) [] = Some (Chunker.Chunks chunks)) ∧
    Chunker.split size f = Some (Chunker.Chunks chunks) ∧
    Forall (fun c => 0 < String.length c <= size) chunks ∧
    concat_strings chunks = string_of_list_byte (Chunker.remaining f).
Proof.
  intros Hsize Hnf.
  destruct (read_chunks_spec size Hsize (S (length (Chunker.remaining f)))
              (Chunker.NewReader f) [] Hnf) as (cs&Hrun&Hall&Hcat).
  { unfold Chunker.pending; simpl. lia. }
  exists cs. split_and!; [| done | done | done].
  intros fuel Hfuel.
  apply (read_chunks_more_fuel size (S (length (Chunker.remaining f)))); [done | lia].
Qed.

(** C2. For every input byte stream that is read without an I/O error and
    every maximum chunk size [size > 0], the chunking loop ends (with any
    fuel above the number of bytes) with a finite list of chunks, each of
    at most [size] bytes, whose concatenation in order is the input, byte
    for byte. *)
Theorem chunker_round_trip (size : nat) (f : Chunker.File) :
  0 < size -> Chunker.no_failure f ->
  ∃ chunks,
    (∀ fuel, length (Chunker.remaining f) < fuel ->
       Chunker.read_chunks fuel size (Chunker.NewReader f) [] = Some (Chunker.Chunks chunks)) ∧
    Chunker.split size f = Some (Chunker.Chunks chunks) ∧
    Forall (fun c => String.length c <= size) chunks ∧
    concat_strings chunks = string_of_list_byte (Chunker.remaining f).
Proof.
  intros Hsize Hnf.
  destruct (split_spec size f Hsize Hnf) as (chunks&Hfuel&Hsplit&Hall&Hcat).
  exists chunks. split_and!; [exact Hfuel | exact Hsplit | | exact Hcat].
  eapply Forall_impl; [exact Hall|]. simpl. lia.
Qed.

Lemma chunker_round_trip_witness :
  ∃ chunks,
    (∀ fuel, length [x61; x62; x63; x64; x65]%byte < fuel ->
       Chunker.read_chunks fuel 2
         (Chunker.NewReader (Chunker.mkFile [x61; x62; x63; x64; x65]%byte [Chunker.ReadUpTo 3])) []
       = Some (Chunker.Chunks chunks)) ∧
    Chunker.split 2 (Chunker.mkFile [x61; x62; x63; x64; x65]%byte [Chunker.ReadUpTo 3])
      = Some (Chunker.Chunks chunks) ∧
    Forall (fun c => String.length c <= 2) chunks ∧
    concat_strings chunks = "abcde".
Proof.
  apply (chunker_round_trip 2
           (Chunker.mkFile [x61; x62; x63; x64; x65]%byte [Chunker.ReadUpTo 3])).
  - lia.
  - unfold Chunker.no_failure; simpl. repeat constructor. discriminate.
Defined.

(** With the buffer of 4096 bytes of [bufio.NewReader] a file of 4100
    bytes comes out in three chunks. *)
Example split_4100 :
  ∃ chunks,
    Chunker.split chunkSize (Chunker.mkFile (replicate 4100 x61%byte) [])
    = Some (Chunker.Chunks chunks) ∧
    String.length <$> chunks = [4000; 96; 4].
Proof. eexists. split; vm_compute; reflexivity. Qed.

Example split_abcde :
  Chunker.split 2 (Chunker.mkFile [x61; x62; x63; x64; x65]%byte [Chunker.ReadUpTo 3])
  = Some (Chunker.Chunks ["ab"; "c"; "de"]).
Proof. reflexivity. Qed.

(** ** The worker pool *)

Section PoolFacts.
Import Pool.

Variable chunks : list string.
Variable run : nat -> string -> ChunkResult.
Variable K : nat.

(** A worker tags its result with its own index. *)
Hypothesis run_index : ∀ i c, Index (run i c) = i.

Local Abbreviation N := (length chunks).
Local Abbreviation step := (Pool.step chunks run K).
Local Abbreviation reachable := (Pool.reachable chunks run K).
Local Abbreviation outputs := (Pool.outputs chunks run).

Lemma sum_list_with_insert (f : wphase -> nat) (ws : list wphase) i ph ph' :
  ws !! i = Some ph ->
  sum_list_with f (<[i:=ph']> ws) + f ph = sum_list_with f ws + f ph'.
Proof.
  revert i. induction ws as [|w ws IH]; intros [|i] Hi; simplify_eq/=; [lia|].
  specialize (IH i Hi). lia.
Qed.

Lemma count_insert (p : wphase -> bool) (ws : list wphase) i ph ph' :
  ws !! i = Some ph ->
  count p (<[i:=ph']> ws) + (if p ph then 1 else 0)
  = count p ws + (if p ph' then 1 else 0).
Proof. apply sum_list_with_insert. Qed.

Lemma count_snoc (p : wphase -> bool) (ws : list wphase) ph :
  count p (ws ++ [ph]) = count p ws + (if p ph then 1 else 0).
Proof. unfold count. rewrite sum_list_with_app. simpl. lia. Qed.

Lemma count_zero (p : wphase -> bool) (ws : list wphase) i ph :
  count p ws = 0 -> ws !! i = Some ph -> p ph = false.
Proof.
  intros Hc Hi. apply list_elem_of_lookup_2 in Hi.
  apply (sum_list_with_in _ (fun ph => if p ph then 1 else 0)) in Hi.
  unfold count in Hc. destruct (p ph); [lia | done].
Qed.

Lemma count_pos (p : wphase -> bool) (ws : list wphase) :
  0 < count p ws -> ∃ i ph, ws !! i = Some ph ∧ p ph = true.
Proof.
  unfold count. induction ws as [|w ws IH]; simpl; [lia|].
  destruct (p w) eqn:Hw; intros Hc.
  - by exists 0, w.
  - destruct IH as (i&ph&?&?); [lia|]. by exists (S i), ph.
Qed.

Local Abbreviation inv := (Pool.inv chunks run K).
Local Abbreviation inv_spawned := (Pool.inv_spawned chunks run K).
Local Abbreviation inv_bound := (Pool.inv_bound chunks run K).
Local Abbreviation inv_sem := (Pool.inv_sem chunks run K).
Local Abbreviation inv_sem_le := (Pool.inv_sem_le chunks run K).
Local Abbreviation inv_wg := (Pool.inv_wg chunks run K).
Local Abbreviation inv_closer := (Pool.inv_closer chunks run K).
Local Abbreviation inv_closed := (Pool.inv_closed chunks run K).
Local Abbreviation inv_quiet := (Pool.inv_quiet chunks run K).
Local Abbreviation inv_sent := (Pool.inv_sent chunks run K).
Local Abbreviation inv_nodup := (Pool.inv_nodup chunks run K).
Local Abbreviation inv_length := (Pool.inv_length chunks run K).
Local Abbreviation inv_stored := (Pool.inv_stored chunks run K).
Local Abbreviation inv_errors := (Pool.inv_errors chunks run K).
Local Abbreviation inv_done := (Pool.inv_done chunks run K).

Lemma inv_init : inv (init).
Proof.
  constructor; simpl; try done; try lia.
  - intros r. split; [by intros ?%elem_of_nil|].
    intros (i&c&ph&Hi&_). by rewrite lookup_nil in Hi.
  - constructor.
  - by intros r ?%elem_of_nil.
Qed.

(** A phase change of a worker that has sent keeps the set of results
    sent. *)
Lemma sent_insert (s : state) (l : list ChunkResult) i ph ph' :
  workers s !! i = Some ph -> has_sent ph = true -> has_sent ph' = true ->
  (∀ r, r ∈ l ↔ ∃ j c q, workers s !! j = Some q ∧ has_sent q = true ∧
                     chunks !! j = Some c ∧ r = run j c) ->
  ∀ r, r ∈ l ↔ ∃ j c q, <[i:=ph']> (workers s) !! j = Some q ∧ has_sent q = true ∧
                     chunks !! j = Some c ∧ r = run j c.
Proof.
  intros Hi Hph Hph' Hl r. rewrite Hl. split.
  - intros (j&c&q&Hj&Hq&Hc&->). destruct (decide (i = j)) as [->|Hne].
    + exists j, c, ph'. split_and!; try done.
      apply list_lookup_insert_eq. by eapply lookup_lt_Some.
    + exists j, c, q. by rewrite list_lookup_insert_ne.
  - intros (j&c&q&Hj&Hq&Hc&->). destruct (decide (i = j)) as [->|Hne].
    + by exists j, c, ph.
    + exists j, c, q. by rewrite list_lookup_insert_ne in Hj.
Qed.

Local Ltac counts Hw ph' :=
  pose proof (count_insert holds_slot _ _ _ ph' Hw);
  pose proof (count_insert not_exited _ _ _ ph' Hw);
  simpl in *.

Local Ltac arith :=
  rewrite ?length_app, ?length_insert, ?count_snoc; simpl; lia.

Lemma inv_step (s s' : state) : inv s -> step s s' -> inv s'.
Proof.
  intros [Hsp Hbd Hsem Hle Hwg Hcl Hcd Hq Hsent Hnd Hlen Hloop Hst Herr Hdone] Hstep.
  assert (Hnc : in_loop (pc s) = true -> closed s = false).
  { intros Hin. apply Hcl in Hin. destruct (closed s); [|done].
    destruct Hcd as [Hcd _]. by rewrite Hcd in Hin. }
  destruct Hstep as
    [s i Hpc Hi | s i Hpc Hlt | s i Hpc | s Hpc | s i c Hw Hc Hroom
    | s i Hw Hpos | s i Hw Hpos | s Hclo Hwg0 | s r rest Hpc Hres Hidx
    | s Hpc Hres Hclosed];
    rewrite ?Hpc in *; simpl in *.
  - (* wg.Add(1) *)
    constructor; simpl; try done; try arith.
    intros Hc. by rewrite Hnc in Hc.
  - (* semaphore <- *)
    constructor; simpl; try done; arith.
  - (* go *)
    constructor; simpl; try done; try arith.
    intros r. rewrite Hsent. split.
    + intros (j&c&q&Hj&?&?&?). exists j, c, q. split_and!; try done.
      by apply lookup_app_l_Some.
    + intros (j&c&q&Hj&Hsq&?&?). exists j, c, q. split_and!; try done.
      apply lookup_app_Some in Hj as [Hj|[_ Hj]]; [done|].
      apply list_lookup_singleton_Some in Hj as [_ <-]. done.
  - (* the loop ends *)
    constructor; simpl; try done; try arith.
    + split; [|done]. intros Hc. apply Hcd in Hc.
      destruct Hcl as [Hcl _]. by rewrite Hcl in Hc.
    + intros _. by rewrite length_replicate.
    + rewrite Hloop by done. by intros r ?%elem_of_nil.
    + by rewrite Hloop.
  - (* the body of a worker and its send *)
    assert (Hfresh : i ∉ Index <$> (received s ++ results s)).
    { intros (r&Hr&Hin)%list_elem_of_fmap. apply Hsent in Hin as (j&c'&q&Hj&Hsq&_&->).
      rewrite run_index in Hr. subst j. by simplify_eq. }
    counts Hw WSent.
    constructor; simpl; try done; try arith.
    + intros r. rewrite (assoc_L (++)), elem_of_app, Hsent, list_elem_of_singleton.
      split.
      * intros [(j&c'&q&Hj&Hsq&Hc'&->)| ->].
        -- exists j, c', q. split_and!; try done.
           rewrite list_lookup_insert_ne; [done|]. intros ->. by simplify_eq.
        -- exists i, c, WSent. split_and!; try done.
           apply list_lookup_insert_eq. by eapply lookup_lt_Some.
      * intros (j&c'&q&Hj&Hsq&Hc'&->). destruct (decide (i = j)) as [->|Hne].
        -- right. by simplify_eq.
        -- left. exists j, c', q. by rewrite list_lookup_insert_ne in Hj.
    + rewrite (assoc_L (++)), fmap_app. simpl. rewrite run_index.
      rewrite list.NoDup_app. split_and!; [done | | apply NoDup_singleton].
      intros j Hj ->%list_elem_of_singleton. done.
    + intros Hd. destruct (Hdone Hd) as [_ Hclosed]. apply Hq in Hclosed.
      assert (count not_exited (workers s) = 0) as Hzero by lia.
      by pose proof (count_zero not_exited _ i _ Hzero Hw).
  - (* the deferred release *)
    counts Hw WReleased.
    constructor; simpl; try done; try arith.
    by apply (sent_insert s _ i WSent).
  - (* the deferred wg.Done() *)
    counts Hw WExited.
    constructor; simpl; try done; try arith.
    + intros Hc. specialize (Hq Hc). lia.
    + by apply (sent_insert s _ i WReleased).
  - (* close(results) *)
    constructor; simpl; try done; try arith.
    + rewrite Hclo in Hcl. split; [|done]. intros Hin. by apply Hcl in Hin.
    + intros Hd. by destruct (Hdone Hd).
  - (* a receive *)
    rewrite Hres in *.
    assert (Hnew : Index r ∉ Index <$> received s).
    { rewrite fmap_app in Hnd. apply list.NoDup_app in Hnd as (_&Hnd&_).
      intros Hin. apply (Hnd _ Hin). simpl. left. }
    constructor; simpl; try done; try arith.
    + intros r'. rewrite <- (assoc_L (++)). simpl. apply Hsent.
    + by rewrite <- (assoc_L (++)).
    + intros r' [Hr'| ->%list_elem_of_singleton]%elem_of_app.
      * rewrite list_lookup_insert_ne; [by apply Hst|].
        intros Heq. apply Hnew. rewrite Heq. by apply list_elem_of_fmap_2.
      * by apply list_lookup_insert_eq.
    + rewrite list.filter_app, length_app, Herr. simpl.
      rewrite filter_cons. destruct (failed r) eqn:Hf.
      * rewrite decide_True by done. simpl. lia.
      * rewrite decide_False by (by intros ?). simpl. lia.
  - (* the range ends *)
    constructor; simpl; try done; try arith.
Qed.

Lemma reachable_inv (s : state) : reachable s -> inv s.
Proof. induction 1; [apply inv_init | by eapply inv_step]. Qed.

Lemma outputs_lookup i c : chunks !! i = Some c -> outputs !! i = Some (run i c).
Proof. intros Hc. unfold Pool.outputs. by rewrite list_lookup_imap, Hc. Qed.

Lemma outputs_elem r : r ∈ outputs ↔ ∃ i c, chunks !! i = Some c ∧ r = run i c.
Proof.
  unfold Pool.outputs. rewrite list_elem_of_lookup. split.
  - intros (i&Hi). rewrite list_lookup_imap in Hi.
    destruct (chunks !! i) as [c|] eqn:Hc; simplify_eq/=. by exists i, c.
  - intros (i&c&Hc&->). exists i. by rewrite list_lookup_imap, Hc.
Qed.

Lemma outputs_index : Index <$> outputs = seq 0 N.
Proof.
  apply list_eq. intros i. unfold Pool.outputs.
  rewrite list_lookup_fmap, list_lookup_imap.
  destruct (chunks !! i) as [c|] eqn:Hc; simpl.
  - rewrite run_index. symmetry. apply lookup_seq. split; [done|].
    by apply lookup_lt_Some in Hc.
  - symmetry. apply lookup_seq_ge. by apply lookup_ge_None in Hc.
Qed.

(** When the collector is past its loop every worker has exited and
    every result has been received. *)
Lemma done_exited (s : state) i ph :
  inv s -> pc s = MDone -> workers s !! i = Some ph -> ph = WExited.
Proof.
  intros Hinv Hpc Hi. destruct (inv_done s Hinv Hpc) as [_ Hclosed].
  pose proof (inv_quiet s Hinv Hclosed) as Hwg0.
  pose proof (inv_wg s Hinv) as Hwg. rewrite Hpc in Hwg; simpl in Hwg.
  assert (count not_exited (workers s) = 0) as Hzero by lia.
  pose proof (count_zero not_exited _ i ph Hzero Hi). by destruct ph.
Qed.

Lemma done_received (s : state) :
  inv s -> pc s = MDone -> ∀ r, r ∈ received s ↔ r ∈ outputs.
Proof.
  intros Hinv Hpc r. destruct (inv_done s Hinv Hpc) as [Hnil _].
  pose proof (inv_sent s Hinv r) as Hsent. rewrite Hnil, (right_id_L [] (++)) in Hsent.
  rewrite Hsent, outputs_elem. split.
  - intros (i&c&ph&_&_&Hc&->). by exists i, c.
  - intros (i&c&Hc&->).
    pose proof (inv_spawned s Hinv) as Hlen. rewrite Hpc in Hlen; simpl in Hlen.
    destruct (lookup_lt_is_Some_2 (workers s) i) as [ph Hph].
    { rewrite Hlen. by eapply lookup_lt_Some. }
    exists i, c, ph. split_and!; try done.
    by rewrite (done_exited s i ph Hinv Hpc Hph).
Qed.

(** The end of a run, whatever the schedule: the results received are
    the outputs of the workers, one for each index, and the processed
    chunks are their contents by index. *)
Theorem pool_final (s : state) :
  reachable s -> pc s = MDone ->
  received s ≡ₚ outputs ∧
  Index <$> received s ≡ₚ seq 0 N ∧
  processedChunks s = Content <$> outputs ∧
  errorCount s = length (filter (fun r => failed r = true) outputs).
Proof.
  intros Hinv%reachable_inv Hpc.
  destruct (inv_done s Hinv Hpc) as [Hnil _].
  pose proof (inv_nodup s Hinv) as Hnd. rewrite Hnil, (right_id_L [] (++)) in Hnd.
  assert (Hperm : received s ≡ₚ outputs).
  { apply NoDup_Permutation.
    - by apply NoDup_fmap_1 in Hnd.
    - apply (NoDup_fmap_1 Index). rewrite outputs_index. apply NoDup_seq.
    - by apply done_received. }
  split_and!.
  - done.
  - by rewrite Hperm, outputs_index.
  - apply list_eq. intros i. rewrite list_lookup_fmap.
    destruct (chunks !! i) as [c|] eqn:Hc.
    + rewrite (outputs_lookup i c Hc). simpl.
      assert (run i c ∈ received s) as Hin.
      { apply done_received; [done..|]. apply outputs_elem. by exists i, c. }
      apply (inv_stored s Hinv) in Hin. by rewrite run_index in Hin.
    + apply lookup_ge_None in Hc.
      rewrite (lookup_ge_None_2 outputs i) by (unfold Pool.outputs; by rewrite length_imap).
      simpl. apply lookup_ge_None_2.
      rewrite (inv_length s Hinv); [done|]. by rewrite Hpc.
  - rewrite (inv_errors s Hinv). by rewrite Hperm.
Qed.

(** While a worker is in its body there is room in [results]: at most
    the other workers have sent. *)
Lemma results_room (s : state) i :
  inv s -> workers s !! i = Some WRunning -> length (results s) < N.
Proof.
  intros Hinv Hi.
  assert (i < N) as Hlt.
  { apply lookup_lt_Some in Hi. rewrite (inv_spawned s Hinv) in Hi.
    pose proof (inv_bound s Hinv). destruct (pc s); simpl in *; lia. }
  assert (length (Index <$> (received s ++ results s)) < N);
    [|rewrite length_fmap, length_app in *; lia].
  eapply Nat.le_lt_trans; [apply submseteq_length|].
  - apply NoDup_submseteq; [apply (inv_nodup s Hinv)|].
    intros j (r&->&Hr)%list_elem_of_fmap.
    apply (inv_sent s Hinv) in Hr as (k&c&q&Hk&Hsq&Hc&->).
    rewrite run_index. apply (list_elem_of_filter (.≠ i) (seq 0 N)). split.
    + intros ->. by simplify_eq.
    + apply elem_of_seq. apply lookup_lt_Some in Hc. lia.
  - pose proof (length_filter_lt (.≠ i) (seq 0 N) i) as Hfilter.
    rewrite length_seq in Hfilter.
    apply Hfilter; [apply elem_of_seq; lia | by intros ?].
Qed.

(** A worker that has not exited can take its next step. *)
Lemma worker_moves (s : state) i ph :
  inv s -> workers s !! i = Some ph -> not_exited ph = true -> ∃ s', step s s'.
Proof.
  intros Hinv Hi Hne.
  assert (i < N) as Hlt.
  { apply lookup_lt_Some in Hi. rewrite (inv_spawned s Hinv) in Hi.
    pose proof (inv_bound s Hinv). destruct (pc s); simpl in *; lia. }
  destruct (lookup_lt_is_Some_2 chunks i Hlt) as [c Hc].
  pose proof (inv_sem s Hinv) as Hsem. pose proof (inv_wg s Hinv) as Hwg.
  destruct ph; [| | |done].
  - eexists. apply (step_work _ _ _ s i c); [done..|]. by eapply results_room.
  - eexists. apply (step_release _ _ _ s i); [done|].
    destruct (decide (count holds_slot (workers s) = 0)) as [Hz|]; [|lia].
    by pose proof (count_zero holds_slot _ i _ Hz Hi).
  - eexists. apply (step_done _ _ _ s i); [done|].
    destruct (decide (count not_exited (workers s) = 0)) as [Hz|]; [|lia].
    by pose proof (count_zero not_exited _ i _ Hz Hi).
Qed.

(** No run is stuck before its end: a send finds room in [results], a
    deferred release finds its element in [semaphore], and the main
    goroutine waits for a slot or for a result only while a worker can
    move. *)
Theorem pool_progress (s : state) :
  0 < K -> reachable s -> pc s = MDone ∨ ∃ s', step s s'.
Proof.
  intros HK Hinv%reachable_inv.
  pose proof (inv_spawned s Hinv) as Hsp. pose proof (inv_bound s Hinv) as Hbd.
  pose proof (inv_sem s Hinv) as Hsem. pose proof (inv_wg s Hinv) as Hwg.
  destruct (pc s) as [i|i|i| |] eqn:Hpc; simpl in *; [| | | |by left]; right.
  - destruct (decide (i = N)) as [->|].
    + eexists. by apply step_loop_end.
    + eexists. apply (step_add _ _ _ s i); [done|lia].
  - destruct (decide (semaphore s < K)).
    + eexists. by apply (step_acquire _ _ _ s i).
    + destruct (count_pos holds_slot (workers s)) as (j&ph&Hj&Hph); [lia|].
      apply (worker_moves s j ph); [done..|]. by destruct ph.
  - eexists. by apply (step_go _ _ _ s i).
  - destruct (results s) as [|r rest] eqn:Hres.
    + destruct (closed s) eqn:Hclosed.
      { eexists. by apply step_range_end. }
      destruct (decide (wg s = 0)) as [Hz|Hnz].
      * eexists. apply step_close; [|done].
        pose proof (inv_closer s Hinv) as Hcl. pose proof (inv_closed s Hinv) as Hcd.
        rewrite Hpc in Hcl; simpl in Hcl.
        destruct (closer s); [| done |].
        -- destruct Hcl as [_ Hcl]. by specialize (Hcl eq_refl).
        -- destruct Hcd as [_ Hcd]. rewrite Hcd in Hclosed; done.
      * destruct (count_pos not_exited (workers s)) as (j&ph&Hj&Hph); [lia|].
        by apply (worker_moves s j ph).
    + eexists. apply (step_receive _ _ _ s r rest); [done..|].
      rewrite (inv_length s Hinv) by (by rewrite Hpc).
      assert (r ∈ received s ++ results s) as Hin.
      { rewrite Hres. apply elem_of_app. right. left. }
      apply (inv_sent s Hinv) in Hin as (k&c&q&_&_&Hc&->).
      rewrite run_index. by eapply lookup_lt_Some.
Qed.

(** Every step uses up one of the steps that remain, so every run ends. *)
Theorem pool_measure (s s' : state) :
  reachable s -> step s s' ->
  Pool.measure chunks s' < Pool.measure chunks s.
Proof.
  intros Hinv%reachable_inv Hstep.
  pose proof (inv_bound s Hinv) as Hbd.
  pose proof (inv_closed s Hinv) as Hcd.
  unfold Pool.measure.
  destruct Hstep as
    [s i Hpc Hi | s i Hpc Hlt | s i Hpc | s Hpc | s i c Hw Hc Hroom
    | s i Hw Hpos | s i Hw Hpos | s Hclo Hwg0 | s r rest Hpc Hres Hidx
    | s Hpc Hres Hclosed];
    rewrite ?Hpc in *; simpl in *;
    try (pose proof (sum_list_with_insert phase_weight _ _ _ WSent Hw));
    try (pose proof (sum_list_with_insert phase_weight _ _ _ WReleased Hw));
    try (pose proof (sum_list_with_insert phase_weight _ _ _ WExited Hw));
    rewrite ?sum_list_with_app, ?length_app, ?Hres; simpl in *; try lia.
  destruct (closed s); [|lia].
  destruct Hcd as [Hcd _]. rewrite Hcd in Hclo; done.
Qed.

(** From every state of a run the end can be reached, and no run goes
    on for ever: the steps left are bounded by the measure. *)
Theorem pool_run_ends (s : state) :
  0 < K -> reachable s -> ∃ s', rtc step s s' ∧ pc s' = MDone.
Proof.
  intros HK. remember (Pool.measure chunks s) as m eqn:Hm. revert s Hm.
  induction (lt_wf m) as [m _ IH]. intros s -> Hreach.
  destruct (pool_progress s HK Hreach) as [Hdone|[s1 Hstep]].
  - exists s. split; [apply rtc_refl | done].
  - destruct (IH (Pool.measure chunks s1) (pool_measure s s1 Hreach Hstep) s1 eq_refl)
      as (s'&Hsteps&Hdone).
    { by eapply reachable_step. }
    exists s'. split; [by eapply rtc_l | done].
Qed.

(** The semaphore bounds the worker bodies in progress, and a worker
    that has sent its result, with or without an error, can release its
    slot at once. *)
Theorem pool_bounded (s : state) :
  reachable s ->
  active s <= semaphore s ∧ semaphore s <= K ∧
  (∀ i, workers s !! i = Some WSent ->
     0 < semaphore s ∧
     step s (mkState (pc s) (semaphore s - 1) (wg s) (results s) (closed s)
               (closer s) (<[i:=WReleased]> (workers s)) (processedChunks s)
               (errorCount s) (received s))) ∧
  (pc s = MDone -> semaphore s = 0).
Proof.
  intros Hinv%reachable_inv.
  pose proof (inv_sem s Hinv) as Hsem. unfold active. split_and!.
  - lia.
  - apply (inv_sem_le s Hinv).
  - intros i Hi.
    assert (0 < semaphore s) as Hpos.
    { destruct (decide (count holds_slot (workers s) = 0)) as [Hz|]; [|lia].
      by pose proof (count_zero holds_slot _ i _ Hz Hi). }
    split; [done|]. by apply (step_release _ _ _ s i).
  - intros Hpc. rewrite Hpc in Hsem; simpl in Hsem.
    destruct (decide (count holds_slot (workers s) = 0)) as [Hz|Hnz]; [lia|].
    destruct (count_pos holds_slot (workers s)) as (j&ph&Hj&Hph); [lia|].
    rewrite (done_exited s j ph Hinv Hpc Hj) in Hph. done.
Qed.

(** A step of the executable schedule is a step of the pool. *)
Lemma exec_step_sound (s s' : state) (a : actor) :
  Pool.exec_step chunks run K s a = Some s' -> step s s'.
Proof.
  unfold Pool.exec_step. intros Hexec.
  destruct a as [| |i].
  - destruct (pc s) as [i|i|i| |] eqn:Hpc; [| | | |done].
    + repeat case_decide; simplify_eq.
      * by apply (step_add _ _ _ s i).
      * by apply step_loop_end.
    + case_decide; simplify_eq. by apply (step_acquire _ _ _ s i).
    + simplify_eq. by apply (step_go _ _ _ s i).
    + destruct (results s) as [|r rest] eqn:Hres.
      * destruct (closed s) eqn:Hclosed; simplify_eq.
        rewrite <- Hres, <- Hclosed. by apply step_range_end.
      * case_decide; simplify_eq. by apply (step_receive _ _ _ s r rest).
  - destruct (closer s) eqn:Hcl; try done.
    case_decide; simplify_eq. by apply step_close.
  - destruct (workers s !! i) as [[]|] eqn:Hw; try done.
    + destruct (chunks !! i) as [c|] eqn:Hc; [|done].
      case_decide; simplify_eq. by apply (step_work _ _ _ s i c).
    + case_decide; simplify_eq. by apply (step_release _ _ _ s i).
    + case_decide; simplify_eq. by apply (step_done _ _ _ s i).
Qed.

Lemma exec_reachable (schedule : list actor) (s s' : state) :
  reachable s -> Pool.exec chunks run K schedule s = Some s' -> reachable s'.
Proof.
  revert s. induction schedule as [|a rest IH]; intros s Hs Hexec; simpl in Hexec.
  - by simplify_eq.
  - destruct (Pool.exec_step chunks run K s a) as [s1|] eqn:Hstep; [|done].
    apply (IH s1); [|done].
    eapply reachable_step; [done | by eapply exec_step_sound].
Qed.

End PoolFacts.

Lemma worker_index (service : service) (fl : Flags) (retries i : nat) (c : string) :
  Index (worker service fl retries i c).1 = i.
Proof.
  unfold worker.
  destruct (retry_loop service fl i c retries 0 ("", None) []) as [[result [e|]] log]; done.
Qed.

Lemma pool_exec_reachable (service : service) (fl : Flags) (chunks : list string)
    (schedule : list Pool.actor) (s : Pool.state) :
  pool_exec service fl chunks schedule Pool.init = Some s ->
  pool_reachable service fl chunks s.
Proof. apply exec_reachable. constructor. Qed.

(** [strings.Join] writes the first element and then, for every further
    element, the separator and the element. *)
Lemma Join_spec (elems : list string) (sep : string) :
  Join elems sep =
  match elems with
  | [] => ""
  | first :: others => concat_strings (first :: ((fun c => sep ++ c)%string <$> others))
  end.
Proof.
  induction elems as [|e rest IH]; [reflexivity|].
  destruct rest as [|e' rest'].
  - cbn [Join fmap list_fmap concat_strings foldr]. by rewrite string_app_nil_r.
  - change (Join (e :: e' :: rest') sep) with (e ++ sep ++ Join (e' :: rest') sep)%string.
    rewrite IH. cbn [fmap list_fmap concat_strings foldr].
    by rewrite string_app_assoc.
Qed.

(** Results that are, in some order, the outputs of the workers, are
    found by their indices: taken by ascending index, their contents are
    those of the outputs in the order of the chunks. *)
Lemma contents_by_index (received outs : list ChunkResult) :
  received ≡ₚ outs ->
  Index <$> outs = seq 0 (length outs) ->
  content_at received <$> seq 0 (length outs) = Content <$> outs.
Proof.
  intros Hperm Hidx. apply list_eq. intros i.
  rewrite !list_lookup_fmap.
  destruct (outs !! i) as [o|] eqn:Ho; simpl.
  - assert (Index o = i) as Hio.
    { assert ((Index <$> outs) !! i = Some (Index o)) as Hi
        by (by rewrite list_lookup_fmap, Ho).
      rewrite Hidx in Hi. apply lookup_seq in Hi as [? _]. lia. }
    rewrite (lookup_seq_lt 0 (length outs) i) by (by eapply lookup_lt_Some).
    simpl. f_equal. unfold content_at.
    destruct (find (fun r => Index r =? i) received) as [r|] eqn:Hfind.
    + apply List.find_some in Hfind as [Hin Hri].
      apply Nat.eqb_eq in Hri. apply list_elem_of_In in Hin.
      rewrite Hperm in Hin. apply list_elem_of_lookup in Hin as [j Hj].
      assert (Index r = j) as Hrj.
      { assert ((Index <$> outs) !! j = Some (Index r)) as Hi
          by (by rewrite list_lookup_fmap, Hj).
        rewrite Hidx in Hi. apply lookup_seq in Hi as [? _]. lia. }
      assert (j = i) as -> by lia. by simplify_eq.
    + exfalso. assert (o ∈ received) as Hin.
      { rewrite Hperm. by eapply list_elem_of_lookup_2. }
      apply list_elem_of_In in Hin.
      pose proof (List.find_none _ _ Hfind o Hin) as Hno. simpl in Hno.
      apply Nat.eqb_neq in Hno. done.
  - apply lookup_ge_None in Ho.
    by rewrite (lookup_ge_None_2 (seq 0 (length outs)) i) by (by rewrite length_seq).
Qed.

(** C1. At the end of every run over N chunks, whatever the order in which
    the workers completed, the indices of the results collected are
    0..N-1, none missing and none twice, and the assembled output text is
    the contents of the results collected, taken by ascending index from 0
    to N-1, with the separator between one and the next. *)
Theorem results_indexed_and_ordered (service : service) (fl : Flags)
    (chunks : list string) (s : Pool.state) :
  pool_reachable service fl chunks s -> Pool.pc s = Pool.MDone ->
  NoDup (Index <$> Pool.received s) ∧
  Index <$> Pool.received s ≡ₚ seq 0 (length chunks) ∧
  Pool.received s ≡ₚ pool_outputs service fl chunks ∧
  Index <$> pool_outputs service fl chunks = seq 0 (length chunks) ∧
  Pool.processedChunks s = Content <$> pool_outputs service fl chunks ∧
  Pool.processedChunks s = content_at (Pool.received s) <$> seq 0 (length chunks) ∧
  Join (Pool.processedChunks s) separator
  = text_in_index_order separator (Pool.received s) (length chunks).
Proof.
  intros Hreach Hpc.
  pose proof (worker_index service fl maxRetries) as Hidx.
  destruct (pool_final chunks _ maxConcurrentRequests Hidx s Hreach Hpc)
    as (Hperm&Hseq&Hproc&_).
  assert (Hout : Index <$> pool_outputs service fl chunks = seq 0 (length chunks))
    by (by apply outputs_index).
  assert (Hlen : length (pool_outputs service fl chunks) = length chunks)
    by (unfold pool_outputs, Pool.outputs; by rewrite length_imap).
  assert (Hby : Pool.processedChunks s
                = content_at (Pool.received s) <$> seq 0 (length chunks)).
  { rewrite Hproc, <- Hlen. symmetry. apply contents_by_index; [exact Hperm|].
    fold (pool_outputs service fl chunks). by rewrite Hlen. }
  split_and!; try done.
  - rewrite Hseq. apply NoDup_seq.
  - rewrite Join_spec. unfold text_in_index_order. by rewrite <- Hby.
Qed.

Lemma results_indexed_and_ordered_witness :
  ∃ s, pool_exec (Sample.answer 500 "busy") (Sample.flags "generate")
         ["first"; "second"] Sample.out_of_order Pool.init = Some s ∧
       Index <$> Pool.received s = [1; 0] ∧
       Content <$> Pool.received s = ["second"; "first"] ∧
       Index <$> Pool.received s ≡ₚ seq 0 2 ∧
       Join (Pool.processedChunks s) separator
       = ("first" ++ separator ++ "second")%string.
Proof.
  destruct (pool_exec (Sample.answer 500 "busy") (Sample.flags "generate")
              ["first"; "second"] Sample.out_of_order Pool.init) as [s|] eqn:Hexec;
    [|by vm_compute in Hexec].
  exists s. split; [done|].
  pose proof (results_indexed_and_ordered _ _ _ s (pool_exec_reachable _ _ _ _ _ Hexec))
    as Hthm.
  vm_compute in Hexec. injection Hexec as <-.
  destruct (Hthm eq_refl) as (_&Hperm&_&_&_&_&Hjoin).
  split_and!; [reflexivity | reflexivity | exact Hperm |].
  rewrite Hjoin. vm_compute. reflexivity.
Defined.

(** C4. In every state of a run at most [maxConcurrentRequests] = 3 worker
    bodies are in progress: a slot of the semaphore of capacity 3 is taken
    before a worker is started and is held while its body runs; a worker
    that has sent its result, whether it succeeded or failed, can release
    its slot at once (the deferred receive never blocks), and when the run
    is over every slot has been released. *)
Theorem workers_bounded (service : service) (fl : Flags)
    (chunks : list string) (s : Pool.state) :
  pool_reachable service fl chunks s ->
  Pool.active s <= Pool.semaphore s ∧
  Pool.semaphore s <= maxConcurrentRequests ∧
  Pool.active s <= 3 ∧
  (∀ i, Pool.workers s !! i = Some Pool.WSent ->
     ∃ s', pool_step service fl chunks s s' ∧
           Pool.semaphore s' = Pool.semaphore s - 1 ∧
           0 < Pool.semaphore s ∧
           Pool.workers s' !! i = Some Pool.WReleased) ∧
  (Pool.pc s = Pool.MDone -> Pool.semaphore s = 0 ∧ Pool.active s = 0).
Proof.
  intros Hreach.
  pose proof (worker_index service fl maxRetries) as Hidx.
  destruct (pool_bounded chunks _ maxConcurrentRequests Hidx s Hreach)
    as (Hact&Hsem&Hrel&Hend).
  split_and!; try done.
  - unfold maxConcurrentRequests in Hsem. lia.
  - intros i Hi. destruct (Hrel i Hi) as [Hpos Hstep].
    eexists. split; [exact Hstep|]. simpl. split_and!; [done..|].
    apply list_lookup_insert_eq. by eapply lookup_lt_Some.
  - intros Hpc. specialize (Hend Hpc). lia.
Qed.

Lemma workers_bounded_witness :
  ∃ s, pool_exec (Sample.answer 500 "busy") (Sample.flags "chat")
         ["a"; "b"; "c"; "d"] Sample.three_running Pool.init = Some s ∧
       Pool.pc s = Pool.MAcquire 3 ∧
       Pool.active s = 3 ∧
       Pool.active s <= Pool.semaphore s ∧
       Pool.semaphore s <= maxConcurrentRequests.
Proof.
  destruct (pool_exec (Sample.answer 500 "busy") (Sample.flags "chat")
              ["a"; "b"; "c"; "d"] Sample.three_running Pool.init) as [s|] eqn:Hexec;
    [|by vm_compute in Hexec].
  exists s. split; [done|].
  destruct (workers_bounded _ _ _ s (pool_exec_reachable _ _ _ _ _ Hexec))
    as (Hact&Hsem&_).
  vm_compute in Hexec. injection Hexec as <-.
  split_and!; [reflexivity | reflexivity | exact Hact | exact Hsem].
Defined.

(** ** The retry loop *)

Lemma attempts_app (l1 l2 : list worker_event) :
  attempts (l1 ++ l2) = attempts l1 ++ attempts l2.
Proof. unfold attempts. apply omap_app. Qed.

(** When every call fails the loop makes all its iterations and ends
    with the last error. *)
Lemma retry_loop_all_fail (service : service) (fl : Flags) (index : nat)
    (content : string) :
  (∀ attempt, is_Some (processChunk (service index attempt) (ollamaURL fl)
                         (modelName fl) content (apiEndpoint fl)).2) ->
  ∀ n attempt cur log,
    ∃ r log',
      retry_loop service fl index content n attempt cur log = (r, log') ∧
      attempts log' = attempts log ++ seq attempt n ∧
      (0 < n -> is_Some r.2) ∧ (n = 0 -> r = cur).
Proof.
  intros Hfail n. induction n as [|n IH]; intros attempt cur log; simpl.
  - exists cur, log. split_and!; [done | by rewrite (right_id_L [] (++)) | lia | done].
  - destruct (Hfail attempt) as [e He]. rewrite He.
    set (r := processChunk _ _ _ _ _) in *.
    set (log1 := if decide (0 < attempt) then log ++ [Sleep retryDelay] else log).
    destruct (IH (S attempt) r
                (log1 ++ [Attempt attempt; LogAttempt (attempt + 1) index e]))
      as (r'&log'&Hrun&Hatt&Hsome&Hzero).
    exists r', log'. split_and!; [done | | | lia].
    + rewrite Hatt, attempts_app. simpl.
      assert (attempts log1 = attempts log) as ->.
      { subst log1. case_decide; [|done]. rewrite attempts_app. simpl.
        by rewrite (right_id_L [] (++)). }
      by rewrite <- (assoc_L (++)).
    + intros _. destruct n; [|apply Hsome; lia].
      rewrite Hzero by done. by rewrite He.
Qed.

Lemma worker_all_fail (service : service) (fl : Flags) (index : nat)
    (content : string) :
  (∀ attempt, is_Some (processChunk (service index attempt) (ollamaURL fl)
                         (modelName fl) content (apiEndpoint fl)).2) ->
  ∃ e, attempts (worker service fl maxRetries index content).2 = [0; 1; 2] ∧
       (worker service fl maxRetries index content).1
       = mkChunkResult index content (Some e).
Proof.
  intros Hfail. unfold worker.
  destruct (retry_loop_all_fail service fl index content Hfail maxRetries 0 ("", None) [])
    as ([result perr]&log&Hrun&Hatt&Hsome&_).
  rewrite Hrun. destruct Hsome as [e He]; [unfold maxRetries; lia|].
  simpl in He. subst perr. exists e. simpl. split; [|done].
  rewrite attempts_app, Hatt. reflexivity.
Qed.

(** A status other than 200, or no answer at all, is a failed call. *)
Lemma bad_status_fails (service : service) (fl : Flags) :
  (∀ index attempt url req,
     match service index attempt url req with
     | TransportError => True
     | HttpResponse code _ _ => code ≠ StatusOK
     end) ->
  every_call_fails service fl.
Proof.
  intros Hbad index attempt content. unfold processChunk.
  match goal with |- context [service index attempt ?u ?r] =>
    specialize (Hbad index attempt u r); destruct (service index attempt u r) end.
  - by eexists.
  - rewrite decide_True by done. by eexists.
Qed.

(** ** [main] *)

Lemma eqb_false_neq (a b : string) : String.eqb a b = false ↔ a ≠ b.
Proof. apply String.eqb_neq. Qed.

(** A run whose setup succeeds goes through to the end and exits with
    code 0, whatever the service answers. *)
Lemma main_completes (fl : Flags) (w : World) :
  setup_ok fl w ->
  ∃ fileSize file chunks,
    stat_input w = Some fileSize ∧ open_input w = Some file ∧
    Chunker.split chunkSize file = Some (Chunker.Chunks chunks) ∧
    Forall (fun c => 0 < String.length c <= chunkSize) chunks ∧
    concat_strings chunks = string_of_list_byte (Chunker.remaining file) ∧
    main fl w = Some (completed_events fl w fileSize chunks, exit_success).
Proof.
  intros (Hin&Hapi&[fileSize Hstat]&(file&Hopen&Hnf)&Hdir&Hwrite).
  destruct (split_spec chunkSize file) as (chunks&_&Hsplit&Hall&Hcat);
    [unfold chunkSize; lia | done |].
  exists fileSize, file, chunks.
  split_and!; [exact Hstat | exact Hopen | exact Hsplit | exact Hall | exact Hcat |].
  unfold main, completed_events.
  apply String.eqb_neq in Hin. rewrite Hin.
  assert (negb (String.eqb (apiEndpoint fl) "generate")
          && negb (String.eqb (apiEndpoint fl) "chat") = false) as ->.
  { destruct Hapi as [-> | ->]; reflexivity. }
  rewrite Hstat, Hopen, Hsplit, Hwrite. simpl negb.
  assert (negb (String.eqb (filepath_Dir w (outputFile fl)) ".")
          && negb (MkdirAll_ok w) = false) as ->.
  { destruct Hdir as [-> | ->]; [reflexivity|]. apply andb_false_r. }
  destruct (String.eqb (filepath_Dir w (outputFile fl)) ".");
    destruct (stat_output_ok w); reflexivity.
Qed.

Lemma pool_outputs_lookup (service : service) (fl : Flags) (chunks : list string) i :
  pool_outputs service fl chunks !! i
  = (fun c => (worker service fl maxRetries i c).1) <$> chunks !! i.
Proof. unfold pool_outputs, Pool.outputs. by rewrite list_lookup_imap. Qed.

Lemma pool_outputs_length (service : service) (fl : Flags) (chunks : list string) :
  length (pool_outputs service fl chunks) = length chunks.
Proof. unfold pool_outputs, Pool.outputs. by rewrite length_imap. Qed.

Lemma filter_all {A} (P : A -> Prop) `{!∀ x, Decision (P x)} (l : list A) :
  (∀ x, x ∈ l -> P x) -> filter P l = l.
Proof.
  induction l as [|x l IH]; intros Hall; [done|].
  rewrite filter_cons, decide_True by (apply Hall; left).
  f_equal. apply IH. intros y Hy. apply Hall. by right.
Qed.

(** When every call fails the outputs are the chunks themselves, each
    with an error. *)
Lemma pool_outputs_all_fail (service : service) (fl : Flags) (chunks : list string) :
  every_call_fails service fl ->
  Content <$> pool_outputs service fl chunks = chunks ∧
  filter (fun r => Pool.failed r = true) (pool_outputs service fl chunks)
  = pool_outputs service fl chunks.
Proof.
  intros Hfail. split.
  - apply list_eq. intros i. rewrite list_lookup_fmap, pool_outputs_lookup.
    destruct (chunks !! i) as [c|]; [|done]. simpl.
    destruct (worker_all_fail service fl i c) as (e&_&->); [|done].
    intros attempt. apply Hfail.
  - apply filter_all. intros r Hr.
    apply list_elem_of_lookup in Hr as [i Hi]. rewrite pool_outputs_lookup in Hi.
    destruct (chunks !! i) as [c|]; simplify_eq/=.
    destruct (worker_all_fail service fl i c) as (e&_&->); [|done].
    intros attempt. apply Hfail.
Qed.

Lemma elem_of_completed_write (fl : Flags) (w : World) fileSize chunks :
  WriteFile (outputFile fl)
    (Join (Content <$> pool_outputs (srv w) fl chunks) separator)
  ∈ completed_events fl w fileSize chunks.
Proof.
  unfold completed_events. rewrite !elem_of_app. right. right. left. left.
Qed.

Lemma elem_of_completed_summary (fl : Flags) (w : World) fileSize chunks :
  let errorCount :=
    length (filter (fun r => Pool.failed r = true) (pool_outputs (srv w) fl chunks)) in
  PrintSummary (length chunks - errorCount) (length chunks) errorCount
  ∈ completed_events fl w fileSize chunks.
Proof.
  cbv zeta. unfold completed_events. cbv zeta.
  rewrite !elem_of_app. right. right. left. right. left.
Qed.

(** C3. If every call to the endpoint fails, then for every chunk exactly
    [maxRetries] = 3 attempts are made, the [ChunkResult] of the chunk has
    the original chunk text as its content and a non-nil error, and the
    run still completes: it writes the output file, here the chunks joined
    as they were read, and exits with code 0. *)
Theorem all_calls_fail (fl : Flags) (w : World) :
  setup_ok fl w -> every_call_fails (srv w) fl ->
  (∀ index content,
     ∃ e, attempts (worker (srv w) fl maxRetries index content).2 = [0; 1; 2] ∧
          length (attempts (worker (srv w) fl maxRetries index content).2) = maxRetries ∧
          (worker (srv w) fl maxRetries index content).1
          = mkChunkResult index content (Some e)) ∧
  ∃ file chunks events,
    open_input w = Some file ∧
    Chunker.split chunkSize file = Some (Chunker.Chunks chunks) ∧
    main fl w = Some (events, exit_success) ∧
    WriteFile (outputFile fl) (Join chunks separator) ∈ events ∧
    PrintSummary 0 (length chunks) (length chunks) ∈ events.
Proof.
  intros Hsetup Hfail. split.
  - intros index content.
    destruct (worker_all_fail (srv w) fl index content) as (e&Hatt&Hres).
    { intros attempt. apply Hfail. }
    exists e. rewrite Hatt. by split_and!.
  - destruct (main_completes fl w Hsetup)
      as (fileSize&file&chunks&_&Hopen&Hsplit&_&_&Hmain).
    destruct (pool_outputs_all_fail (srv w) fl chunks Hfail) as [Hcontent Hfilter].
    exists file, chunks, (completed_events fl w fileSize chunks).
    split_and!; [exact Hopen | exact Hsplit | exact Hmain | |].
    + pose proof (elem_of_completed_write fl w fileSize chunks) as Hw.
      rewrite Hcontent in Hw. exact Hw.
    + pose proof (elem_of_completed_summary fl w fileSize chunks) as Hs.
      cbv zeta in Hs. rewrite Hfilter, pool_outputs_length in Hs.
      rewrite Nat.sub_diag in Hs. exact Hs.
Qed.

Lemma sample_setup_ok api size data service :
  api = "generate" ∨ api = "chat" ->
  setup_ok (Sample.flags api) (Sample.world size data service).
Proof.
  intros Hapi. unfold setup_ok; simpl. split_and!; try done.
  - eexists. split; [done|]. unfold Chunker.no_failure; simpl. constructor.
  - by left.
Qed.

Lemma all_calls_fail_witness :
  (∀ index content,
     ∃ e, attempts (worker (Sample.answer 500 "busy") (Sample.flags "chat")
                      maxRetries index content).2 = [0; 1; 2] ∧
          length (attempts (worker (Sample.answer 500 "busy") (Sample.flags "chat")
                      maxRetries index content).2) = maxRetries ∧
          (worker (Sample.answer 500 "busy") (Sample.flags "chat")
             maxRetries index content).1
          = mkChunkResult index content (Some e)) ∧
  ∃ file chunks events,
    Some (Chunker.mkFile Sample.abcde []) = Some file ∧
    Chunker.split chunkSize file = Some (Chunker.Chunks chunks) ∧
    main (Sample.flags "chat") (Sample.world 5 Sample.abcde (Sample.answer 500 "busy"))
    = Some (events, exit_success) ∧
    WriteFile "llm.txt" (Join chunks separator) ∈ events ∧
    PrintSummary 0 (length chunks) (length chunks) ∈ events.
Proof.
  apply (all_calls_fail (Sample.flags "chat")
           (Sample.world 5 Sample.abcde (Sample.answer 500 "busy"))).
  - apply sample_setup_ok. by right.
  - apply bad_status_fails. intros; simpl. unfold StatusOK. lia.
Defined.

Example all_calls_fail_run :
  main (Sample.flags "chat") (Sample.world 5 Sample.abcde (Sample.answer 500 "busy"))
  = Some ([PrintProcessing "book.txt" 5; PrintModel "llama3.2-vision:latest";
           PrintEndpoint "chat"; PrintSplitting 1;
           WriteFile "llm.txt" "abcde"; PrintSummary 0 1 1; PrintSaved "llm.txt";
           PrintRatio 1%float 5 5], exit_success).
Proof. vm_compute. reflexivity. Qed.

(** C8. The process exits with code 1, after an error line and the usage,
    when [-input] is missing and when [-api] is neither [generate] nor
    [chat]; and once the setup has succeeded it runs to completion and
    exits with code 0 whatever the number of chunks that failed, which it
    reports in the summary. *)
Theorem exit_codes (fl : Flags) (w : World) :
  (inputFile fl = "" ->
   main fl w = Some ([Println "Error: Input file is required"; Usage], 1%Z)) ∧
  (inputFile fl ≠ "" -> apiEndpoint fl ≠ "generate" -> apiEndpoint fl ≠ "chat" ->
   main fl w = Some ([Println "Error: API endpoint must be 'generate' or 'chat'"; Usage],
                     1%Z)) ∧
  (setup_ok fl w ->
   ∃ events chunks errors,
     main fl w = Some (events, 0%Z) ∧
     errors = length (filter (fun r => Pool.failed r = true)
                        (pool_outputs (srv w) fl chunks)) ∧
     PrintSummary (length chunks - errors) (length chunks) errors ∈ events).
Proof.
  split_and!.
  - intros Hin. unfold main. rewrite Hin. reflexivity.
  - intros Hin Hgen Hchat. unfold main.
    apply String.eqb_neq in Hin, Hgen, Hchat. rewrite Hin, Hgen, Hchat. reflexivity.
  - intros Hsetup.
    destruct (main_completes fl w Hsetup) as (fileSize&file&chunks&_&_&_&_&_&Hmain).
    exists (completed_events fl w fileSize chunks), chunks. eexists.
    split_and!; [exact Hmain | reflexivity |].
    apply (elem_of_completed_summary fl w fileSize chunks).
Qed.

Lemma exit_codes_witness :
  main (mkFlags "" "m" "llm.txt" "generate" "http://localhost:11434/api")
    (Sample.world 5 Sample.abcde (Sample.answer 500 "busy"))
  = Some ([Println "Error: Input file is required"; Usage], 1%Z) ∧
  main (Sample.flags "embed") (Sample.world 5 Sample.abcde (Sample.answer 500 "busy"))
  = Some ([Println "Error: API endpoint must be 'generate' or 'chat'"; Usage], 1%Z) ∧
  ∃ events chunks errors,
    main (Sample.flags "generate")
      (Sample.world 5 Sample.abcde (Sample.answer 500 "busy"))
    = Some (events, 0%Z) ∧
    errors = length (filter (fun r => Pool.failed r = true)
                       (pool_outputs (Sample.answer 500 "busy")
                          (Sample.flags "generate") chunks)) ∧
    PrintSummary (length chunks - errors) (length chunks) errors ∈ events.
Proof.
  split_and!.
  - apply (exit_codes (mkFlags "" "m" "llm.txt" "generate" "http://localhost:11434/api")
             (Sample.world 5 Sample.abcde (Sample.answer 500 "busy"))).
    reflexivity.
  - apply (exit_codes (Sample.flags "embed")
             (Sample.world 5 Sample.abcde (Sample.answer 500 "busy")));
      simpl; discriminate.
  - apply (exit_codes (Sample.flags "generate")
             (Sample.world 5 Sample.abcde (Sample.answer 500 "busy"))).
    apply sample_setup_ok. by left.
Defined.

(** C10. For an input file of 0 bytes the chunker gives no chunk, the
    program writes an output file of 0 bytes, and the run completes with
    exit code 0. *)
Theorem empty_input (fl : Flags) (w : World) (file : Chunker.File) :
  setup_ok fl w -> open_input w = Some file -> Chunker.remaining file = [] ->
  Chunker.split chunkSize file = Some (Chunker.Chunks []) ∧
  ∃ events,
    main fl w = Some (events, exit_success) ∧
    WriteFile (outputFile fl) "" ∈ events ∧
    PrintSummary 0 0 0 ∈ events.
Proof.
  intros Hsetup Hopen Hempty.
  destruct (main_completes fl w Hsetup)
    as (fileSize&file'&chunks&_&Hopen'&Hsplit&Hall&Hcat&Hmain).
  rewrite Hopen in Hopen'. injection Hopen' as <-.
  assert (chunks = []) as ->.
  { destruct chunks as [|c chunks]; [done|].
    apply Forall_cons in Hall as [Hc _]. rewrite Hempty in Hcat.
    simpl in Hcat. destruct c; [simpl in Hc; lia | discriminate]. }
  split; [exact Hsplit|].
  exists (completed_events fl w fileSize []). split_and!; [exact Hmain | |].
  - apply (elem_of_completed_write fl w fileSize []).
  - apply (elem_of_completed_summary fl w fileSize []).
Qed.

Lemma empty_input_witness :
  Chunker.split chunkSize (Chunker.mkFile [] []) = Some (Chunker.Chunks []) ∧
  ∃ events,
    main (Sample.flags "generate") (Sample.world 0 [] (Sample.answer 200 Sample.stream))
    = Some (events, exit_success) ∧
    WriteFile "llm.txt" "" ∈ events ∧
    PrintSummary 0 0 0 ∈ events.
Proof.
  apply (empty_input (Sample.flags "generate")
           (Sample.world 0 [] (Sample.answer 200 Sample.stream))
           (Chunker.mkFile [] [])).
  - apply sample_setup_ok. by left.
  - reflexivity.
  - reflexivity.
Defined.

Example empty_input_run :
  ∃ ratio,
    main (Sample.flags "generate") (Sample.world 0 [] (Sample.answer 200 Sample.stream))
    = Some ([PrintProcessing "book.txt" 0; PrintModel "llama3.2-vision:latest";
             PrintEndpoint "generate"; PrintSplitting 0;
             WriteFile "llm.txt" ""; PrintSummary 0 0 0; PrintSaved "llm.txt";
             PrintRatio ratio 0 0], exit_success) ∧
    PrimFloat.is_nan ratio = true.
Proof. eexists. split; vm_compute; reflexivity. Qed.

(** ** The compression ratio *)

Local Ltac not_in_events Hin :=
  repeat first
    [ apply elem_of_app in Hin as [Hin|Hin]
    | apply elem_of_cons in Hin as [Hin|Hin]
    | apply elem_of_nil in Hin; destruct Hin
    | discriminate Hin ].

(** A run ends in one of two ways: with exit code 1 and no ratio printed,
    or through to the end. *)
Lemma main_outcomes (fl : Flags) (w : World) events code :
  main fl w = Some (events, code) ->
  (code = exit_failure ∧ ∀ ratio a b, PrintRatio ratio a b ∉ events) ∨
  (∃ fileSize chunks,
     stat_input w = Some fileSize ∧ code = exit_success ∧
     events = completed_events fl w fileSize chunks).
Proof.
  unfold main. intros Hmain.
  destruct (String.eqb (inputFile fl) "").
  { injection Hmain as <- <-. left. split; [done|]. intros r a b Hin. not_in_events Hin. }
  destruct (negb (String.eqb (apiEndpoint fl) "generate")
            && negb (String.eqb (apiEndpoint fl) "chat")).
  { injection Hmain as <- <-. left. split; [done|]. intros r a b Hin. not_in_events Hin. }
  destruct (stat_input w) as [fileSize|].
  2: { injection Hmain as <- <-. left. split; [done|]. intros r a b Hin. not_in_events Hin. }
  destruct (open_input w) as [file|].
  2: { injection Hmain as <- <-. left. split; [done|]. intros r a b Hin. not_in_events Hin. }
  destruct (Chunker.split chunkSize file) as [[chunks|]|]; [| |discriminate Hmain].
  2: { injection Hmain as <- <-. left. split; [done|]. intros r a b Hin. not_in_events Hin. }
  unfold completed_events.
  destruct (String.eqb (filepath_Dir w (outputFile fl)) "."); simpl negb in Hmain;
    cbv beta iota zeta in Hmain; rewrite ?andb_true_l, ?andb_false_l in Hmain;
    destruct (MkdirAll_ok w); simpl negb in Hmain; cbv iota in Hmain;
    destruct (WriteFile_ok w); simpl negb in Hmain; cbv iota in Hmain;
    destruct (WriteFile_partial w);
    destruct (stat_output_ok w);
    injection Hmain as <- <-;
    first [ right; exists fileSize, chunks; split_and!; reflexivity
          | left; split; [reflexivity|]; intros r a b Hin; not_in_events Hin ].
Qed.

Lemma elem_of_completed_ratio (fl : Flags) (w : World) fileSize chunks ratio a b :
  PrintRatio ratio a b ∈ completed_events fl w fileSize chunks ->
  stat_output_ok w = true ∧ a = fileSize ∧
  b = Z.of_nat (String.length
                  (Join (Content <$> pool_outputs (srv w) fl chunks) separator)) ∧
  ratio = compressionRatio a b.
Proof.
  unfold completed_events. cbv zeta. intros Hin.
  destruct (stat_output_ok w);
    destruct (String.eqb (filepath_Dir w (outputFile fl)) ".");
    not_in_events Hin; by injection Hin as -> -> ->.
Qed.

(** C7, as amended. The compression ratio is printed exactly when the run
    has written its output and [os.Stat] of the output file succeeds; no
    test of the size of the output guards it. The ratio printed is the
    float64 quotient [float64(inputBytes) / float64(outputBytes)] of the
    size of the input by the size of the output written. *)
Theorem ratio_printed_when_stat_succeeds (fl : Flags) (w : World) events code :
  main fl w = Some (events, code) ->
  (∀ ratio inputBytes outputBytes,
     PrintRatio ratio inputBytes outputBytes ∈ events ->
     code = exit_success ∧ stat_output_ok w = true ∧
     stat_input w = Some inputBytes ∧
     (∃ data, WriteFile (outputFile fl) data ∈ events ∧
              outputBytes = Z.of_nat (String.length data)) ∧
     ratio = PrimFloat.div (float64_of_int inputBytes) (float64_of_int outputBytes)) ∧
  (code = exit_success -> stat_output_ok w = true ->
   ∃ ratio inputBytes outputBytes, PrintRatio ratio inputBytes outputBytes ∈ events).
Proof.
  intros Hmain.
  destruct (main_outcomes fl w events code Hmain)
    as [[-> Hnone]|(fileSize&chunks&Hstat&->&->)].
  - split; [|discriminate]. intros ratio a b Hin. by apply Hnone in Hin.
  - split.
    + intros ratio a b Hin.
      apply elem_of_completed_ratio in Hin as (Hok&->&->&->).
      split_and!; [reflexivity | exact Hok | exact Hstat | | reflexivity].
      eexists. split; [apply elem_of_completed_write | reflexivity].
    + intros _ Hok. unfold completed_events. cbv zeta. rewrite Hok.
      do 3 eexists. rewrite !elem_of_app. do 3 right. left.
Qed.

(** A chunk for which the model answers with an empty stream. *)
Example empty_answer_run :
  main (Sample.flags "generate") (Sample.world 5 Sample.abcde (Sample.answer 200 ""))
  = Some ([PrintProcessing "book.txt" 5; PrintModel "llama3.2-vision:latest";
           PrintEndpoint "generate"; PrintSplitting 1;
           WriteFile "llm.txt" ""; PrintSummary 1 1 0; PrintSaved "llm.txt";
           PrintRatio infinity 5 0], exit_success).
Proof. vm_compute. reflexivity. Qed.

Lemma ratio_printed_when_stat_succeeds_witness :
  (∀ ratio inputBytes outputBytes,
     PrintRatio ratio inputBytes outputBytes
     ∈ [PrintProcessing "book.txt" 5; PrintModel "llama3.2-vision:latest";
        PrintEndpoint "generate"; PrintSplitting 1;
        WriteFile "llm.txt" ""; PrintSummary 1 1 0; PrintSaved "llm.txt";
        PrintRatio infinity 5 0] ->
     exit_success = exit_success ∧ true = true ∧
     Some 5%Z = Some inputBytes ∧
     (∃ data, WriteFile "llm.txt" data
              ∈ [PrintProcessing "book.txt" 5; PrintModel "llama3.2-vision:latest";
                 PrintEndpoint "generate"; PrintSplitting 1;
                 WriteFile "llm.txt" ""; PrintSummary 1 1 0; PrintSaved "llm.txt";
                 PrintRatio infinity 5 0] ∧
              outputBytes = Z.of_nat (String.length data)) ∧
     ratio = PrimFloat.div (float64_of_int inputBytes) (float64_of_int outputBytes)) ∧
  (exit_success = exit_success -> true = true ->
   ∃ ratio inputBytes outputBytes,
     PrintRatio ratio inputBytes outputBytes
     ∈ [PrintProcessing "book.txt" 5; PrintModel "llama3.2-vision:latest";
        PrintEndpoint "generate"; PrintSplitting 1;
        WriteFile "llm.txt" ""; PrintSummary 1 1 0; PrintSaved "llm.txt";
        PrintRatio infinity 5 0]).
Proof.
  apply (ratio_printed_when_stat_succeeds (Sample.flags "generate")
           (Sample.world 5 Sample.abcde (Sample.answer 200 ""))).
  vm_compute. reflexivity.
Defined.

(** C7, as stated, fails: a run whose output has 0 bytes (the model gave
    an empty answer) prints a ratio all the same, and the ratio is
    infinite, not undefined. *)
Lemma ratio_printed_for_empty_output : ¬ ratio_guarded_by_output_size.
Proof.
  intros Hclaim.
  destruct (Hclaim _ _ _ _ infinity 5%Z 0%Z empty_answer_run) as [[Hpos _]|[_ Hnan]].
  - do 7 right. left.
  - lia.
  - vm_compute in Hnan. discriminate Hnan.
Qed.
(** ** JSON objects with plain names *)

Section Names.
Import Json Decode.

Local Abbreviation lower_char c :=
  ((97 <=? code c) && (code c <=? 122) || (code c =? 95))%N.

Local Ltac bounds :=
  repeat match goal with
  | H : _ && _ = true |- _ => apply andb_prop in H as [? ?]
  | H : _ || _ = true |- _ => apply orb_prop in H as [?|?]
  | H : _ && _ = false |- _ => apply andb_false_iff in H as [?|?]
  | H : (_ <=? _)%N = true |- _ => apply N.leb_le in H
  | H : (_ <=? _)%N = false |- _ => apply N.leb_gt in H
  | H : (_ =? _)%N = true |- _ => apply N.eqb_eq in H
  end.

Lemma code_chr (n : N) : (n < 256)%N -> code (chr n) = n.
Proof. apply N_ascii_embedding. Qed.

Lemma code_inj (a b : ascii) : code a = code b -> a = b.
Proof.
  intros H. rewrite <- (ascii_N_embedding a), <- (ascii_N_embedding b).
  unfold code in H. by rewrite H.
Qed.

Lemma code_bound (a : ascii) : (code a < 256)%N.
Proof. apply N_ascii_bounded. Qed.

Lemma upper_code (c : ascii) :
  code (upper c)
  = (if ((97 <=? code c) && (code c <=? 122))%N then code c - 32 else code c)%N.
Proof.
  unfold upper. pose proof (code_bound c).
  destruct ((97 <=? code c) && (code c <=? 122))%N eqn:E; [|reflexivity].
  apply code_chr. bounds; lia.
Qed.

(** On lower-case letters and the underscore, folding the case loses
    nothing. *)
Lemma upper_inj (c k : ascii) :
  lower_char c = true -> lower_char k = true ->
  upper k = upper c -> k = c.
Proof.
  intros Hc Hk Heq. apply (f_equal code) in Heq.
  rewrite !upper_code in Heq. apply code_inj.
  destruct ((97 <=? code c) && (code c <=? 122))%N eqn:Ec;
    destruct ((97 <=? code k) && (code k <=? 122))%N eqn:Ek; bounds; lia.
Qed.

Lemma lower_name_cons (c : ascii) (s : string) :
  lower_name (String c s) = lower_char c && lower_name s.
Proof. reflexivity. Qed.

(** A plain name is taken for a field of a plain name only when it is
    that name. *)
Lemma fold_eq_plain (name key : string) :
  lower_name name = true -> lower_name key = true ->
  fold_eq name key = true -> key = name.
Proof.
  revert key. induction name as [|c name IH]; intros [|k key] Hname Hkey Hfold;
    try done.
  rewrite lower_name_cons in Hname, Hkey.
  apply andb_prop in Hname as [Hc Hname]. apply andb_prop in Hkey as [Hk Hkey].
  cbn [fold_eq] in Hfold.
  destruct (Ascii.eqb (upper k) (upper c)) eqn:Eup.
  - apply Ascii.eqb_eq in Eup. f_equal; [by apply upper_inj | by apply IH].
  - exfalso.
    destruct (Ascii.eqb c "s" && (code k =? 197)%N) eqn:Es.
    { apply andb_prop in Es as [_ Es]. bounds; lia. }
    destruct (Ascii.eqb c "k" && (code k =? 226)%N) eqn:Ek; [|done].
    apply andb_prop in Ek as [_ Ek]. bounds; lia.
Qed.

Lemma fold_eq_other (name key : string) :
  lower_name name = true -> lower_name key = true ->
  String.eqb key name = false -> fold_eq name key = false.
Proof.
  intros Hname Hkey Hne. destruct (fold_eq name key) eqn:E; [|done].
  apply fold_eq_plain in E; [|done..]. subst. by rewrite String.eqb_refl in Hne.
Qed.

End Names.

Section Members.
Import Json Decode.

Implicit Types members : list (string * value).

Lemma field_cons (name k : string) (v : value) members :
  field name ((k, v) :: members)
  = if String.eqb k name then Some v else field name members.
Proof. unfold field. cbn [find fst]. by destruct (String.eqb k name). Qed.

Lemma field_nil (name : string) : field name [] = None.
Proof. reflexivity. Qed.

Lemma distinct_cons (k : string) (names : list string) :
  distinct (k :: names) = true ->
  existsb (String.eqb k) names = false ∧ distinct names = true.
Proof.
  cbn [distinct]. intros [H1 H2]%andb_prop. split; [|done].
  by apply negb_true_iff.
Qed.

Lemma plain_object_cons (k : string) (v : value) members :
  plain_object ((k, v) :: members) = true ->
  lower_name k = true ∧ existsb (String.eqb k) members.*1 = false ∧
  plain_object members = true.
Proof.
  unfold plain_object. cbn [fmap list_fmap fst forallb].
  intros [[Hk Hall]%andb_prop [Hno Hd]%distinct_cons]%andb_prop.
  split_and!; [done..|]. by rewrite Hall, Hd.
Qed.

Lemma plain_object_distinct members :
  plain_object members = true -> distinct members.*1 = true.
Proof. unfold plain_object. by intros [_ ?]%andb_prop. Qed.

Lemma field_absent (k : string) members :
  existsb (String.eqb k) members.*1 = false -> field k members = None.
Proof.
  induction members as [|[k' v] rest IH]; [done|].
  cbn [fmap list_fmap fst existsb]. intros [Hk Hrest]%orb_false_elim.
  rewrite field_cons, String.eqb_sym, Hk. by apply IH.
Qed.

(** With distinct names, the last member with a name, which the map
    keeps, is the member with the name. *)
Lemma lookup_member_field (name : string) members :
  distinct members.*1 = true -> lookup_member name members = field name members.
Proof.
  induction members as [|[k v] rest IH]; [done|].
  cbn [fmap list_fmap fst]. intros [Hno Hd]%distinct_cons.
  cbn [lookup_member]. rewrite field_cons, (IH Hd).
  destruct (String.eqb k name) eqn:Ek; [|by destruct (field name rest)].
  apply String.eqb_eq in Ek as ->. by rewrite (field_absent name rest Hno).
Qed.

Lemma store_members_cons {T} (store : T -> string * value -> option T)
    (acc : T) (kv : string * value) members :
  store_members store acc (kv :: members)
  = match store acc kv with
    | Some acc' => store_members store acc' members
    | None => None
    end.
Proof.
  unfold store_members. cbn [fold_left]. simpl.
  destruct (store acc kv) as [acc'|]; [done|].
  induction members as [|m rest IH]; [done|]. cbn [fold_left]. exact IH.
Qed.

End Members.

Section Structs.
Import Json Decode.

Implicit Types members : list (string * value).

Lemma string_member_cons (name k : string) (v : value) members (old : string) :
  string_member name ((k, v) :: members) old
  = if String.eqb k name then
      match v with
      | Str s => Some s
      | Null => Some old
      | _ => None
      end
    else string_member name members old.
Proof.
  unfold string_member. rewrite field_cons. by destruct (String.eqb k name).
Qed.

Lemma bool_member_cons (name k : string) (v : value) members (old : bool) :
  bool_member name ((k, v) :: members) old
  = if String.eqb k name then
      match v with
      | Bool b => Some b
      | Null => Some old
      | _ => None
      end
    else bool_member name members old.
Proof.
  unfold bool_member. rewrite field_cons. by destruct (String.eqb k name).
Qed.

Lemma string_member_absent (name : string) members (old : string) :
  existsb (String.eqb name) members.*1 = false ->
  string_member name members old = Some old.
Proof. intros H. unfold string_member. by rewrite (field_absent name members H). Qed.

Lemma bool_member_absent (name : string) members (old : bool) :
  existsb (String.eqb name) members.*1 = false ->
  bool_member name members old = Some old.
Proof. intros H. unfold bool_member. by rewrite (field_absent name members H). Qed.


(** Likewise for the [message] struct of the chat answer. *)
Lemma store_message_plain members (acc : OllamaCompletionResponse.message) :
  plain_object members = true ->
  store_members OllamaCompletionResponse.store_message acc members
  = (r ← string_member "role" members (OllamaCompletionResponse.Role acc);
     c ← string_member "content" members (OllamaCompletionResponse.Content acc);
     Some (OllamaCompletionResponse.mkMessage r c)).
Proof.
  revert acc. induction members as [|[k v] rest IH]; intros acc Hplain.
  { by destruct acc. }
  apply plain_object_cons in Hplain as (Hk&Hno&Hrest).
  rewrite store_members_cons, !string_member_cons.
  unfold OllamaCompletionResponse.store_message.
  destruct (String.eqb k "role") eqn:E1.
  { apply String.eqb_eq in E1 as ->.
    change (fold_eq "role" "role") with true.
    change (String.eqb "role" "content") with false. cbv iota.
    destruct v; simpl; try done;
      rewrite (IH _ Hrest); cbn [OllamaCompletionResponse.Role
                                   OllamaCompletionResponse.Content];
      by rewrite (string_member_absent "role" rest _ Hno). }
  destruct (String.eqb k "content") eqn:E2.
  { apply String.eqb_eq in E2 as ->.
    change (fold_eq "role" "content") with false.
    change (fold_eq "content" "content") with true. cbv iota.
    destruct v; simpl; try (by destruct (string_member "role" rest _));
      rewrite (IH _ Hrest); cbn [OllamaCompletionResponse.Role
                                   OllamaCompletionResponse.Content];
      by rewrite (string_member_absent "content" rest _ Hno). }
  rewrite (fold_eq_other "role" k), (fold_eq_other "content" k) by done.
  by apply IH.
Qed.

Lemma message_member_cons (k : string) (v : value) members
    (old : OllamaCompletionResponse.message) :
  message_member ((k, v) :: members) old
  = if String.eqb k "message" then
      match v with
      | Object fields =>
          role ← string_member "role" fields (OllamaCompletionResponse.Role old);
          content ← string_member "content" fields
                      (OllamaCompletionResponse.Content old);
          Some (OllamaCompletionResponse.mkMessage role content)
      | Null => Some old
      | _ => None
      end
    else message_member members old.
Proof.
  unfold message_member. rewrite field_cons. by destruct (String.eqb k "message").
Qed.

Lemma message_member_absent members (old : OllamaCompletionResponse.message) :
  existsb (String.eqb "message") members.*1 = false ->
  message_member members old = Some old.
Proof. intros H. unfold message_member. by rewrite (field_absent _ members H). Qed.

Lemma plain_message_cons (k : string) (v : value) members :
  plain_message ((k, v) :: members)
  = if String.eqb k "message" then
      match v with
      | Object fields => plain_object fields
      | _ => true
      end
    else plain_message members.
Proof.
  unfold plain_message. rewrite field_cons. by destruct (String.eqb k "message").
Qed.

Local Ltac fails_anyway :=
  repeat match goal with
  | |- context [string_member ?n ?m ?o] => destruct (string_member n m o)
  | |- context [bool_member ?n ?m ?o] => destruct (bool_member n m o)
  | |- context [message_member ?m ?o] => destruct (message_member m o)
  end; reflexivity.

(** What [json.Unmarshal] stores into an [OllamaCompletionResponse] from
    a plain object with a plain [message] is what the object says for
    the four fields. *)
Lemma store_chat members (acc : OllamaCompletionResponse.t) :
  plain_object members = true -> plain_message members = true ->
  store_members OllamaCompletionResponse.store acc members
  = (m ← string_member "model" members (OllamaCompletionResponse.Model acc);
     c ← string_member "created_at" members (OllamaCompletionResponse.CreatedAt acc);
     msg ← message_member members (OllamaCompletionResponse.Message acc);
     d ← bool_member "done" members (OllamaCompletionResponse.Done acc);
     Some (OllamaCompletionResponse.mk m c msg d)).
Proof.
  revert acc. induction members as [|[k v] rest IH]; intros acc Hplain Hmsg.
  { by destruct acc. }
  apply plain_object_cons in Hplain as (Hk&Hno&Hrest).
  rewrite plain_message_cons in Hmsg.
  rewrite store_members_cons, !string_member_cons, message_member_cons,
    bool_member_cons.
  unfold OllamaCompletionResponse.store.
  destruct (String.eqb k "model") eqn:E1.
  { apply String.eqb_eq in E1 as ->.
    change (fold_eq "model" "model") with true.
    change (String.eqb "model" "created_at") with false.
    change (String.eqb "model" "message") with false.
    change (String.eqb "model" "done") with false.
    change (String.eqb "model" "message") with false in Hmsg. cbv iota in *.
    destruct v; simpl; try done;
      rewrite (IH _ Hrest Hmsg);
      cbn [OllamaCompletionResponse.Model OllamaCompletionResponse.CreatedAt
           OllamaCompletionResponse.Message OllamaCompletionResponse.Done];
      by rewrite (string_member_absent "model" rest _ Hno). }
  destruct (String.eqb k "created_at") eqn:E2.
  { apply String.eqb_eq in E2 as ->.
    change (fold_eq "model" "created_at") with false.
    change (fold_eq "created_at" "created_at") with true.
    change (String.eqb "created_at" "message") with false.
    change (String.eqb "created_at" "done") with false.
    change (String.eqb "created_at" "message") with false in Hmsg. cbv iota in *.
    destruct v; simpl; try fails_anyway;
      rewrite (IH _ Hrest Hmsg);
      cbn [OllamaCompletionResponse.Model OllamaCompletionResponse.CreatedAt
           OllamaCompletionResponse.Message OllamaCompletionResponse.Done];
      by rewrite (string_member_absent "created_at" rest _ Hno). }
  destruct (String.eqb k "message") eqn:E3.
  { apply String.eqb_eq in E3 as ->.
    change (fold_eq "model" "message") with false.
    change (fold_eq "created_at" "message") with false.
    change (fold_eq "message" "message") with true.
    change (String.eqb "message" "done") with false. cbv iota in *.
    assert (Hmsg' : plain_message rest = true).
    { unfold plain_message. by rewrite (field_absent "message" rest Hno). }
    destruct v; cbn [store_struct]; simpl; try fails_anyway.
    - rewrite (IH _ Hrest Hmsg').
      cbn [OllamaCompletionResponse.Model OllamaCompletionResponse.CreatedAt
           OllamaCompletionResponse.Message OllamaCompletionResponse.Done].
      by rewrite (message_member_absent rest _ Hno).
    - rewrite (store_message_plain _ _ Hmsg).
      destruct (string_member "role" members _) as [role|]; simpl; [|fails_anyway].
      destruct (string_member "content" members _) as [content|]; simpl;
        [|fails_anyway].
      rewrite (IH _ Hrest Hmsg').
      cbn [OllamaCompletionResponse.Model OllamaCompletionResponse.CreatedAt
           OllamaCompletionResponse.Message OllamaCompletionResponse.Done].
      by rewrite (message_member_absent rest _ Hno). }
  destruct (String.eqb k "done") eqn:E4.
  { apply String.eqb_eq in E4 as ->.
    change (fold_eq "model" "done") with false.
    change (fold_eq "created_at" "done") with false.
    change (fold_eq "message" "done") with false.
    change (fold_eq "done" "done") with true. cbv iota in *.
    destruct v; simpl; try fails_anyway;
      rewrite (IH _ Hrest Hmsg);
      cbn [OllamaCompletionResponse.Model OllamaCompletionResponse.CreatedAt
           OllamaCompletionResponse.Message OllamaCompletionResponse.Done];
      by rewrite (bool_member_absent "done" rest _ Hno). }
  rewrite (fold_eq_other "model" k), (fold_eq_other "created_at" k),
    (fold_eq_other "message" k), (fold_eq_other "done" k) by done.
  by apply IH.
Qed.

End Structs.
(** ** The response parsers *)

(** *** The generate stream *)





Local Abbreviation limit_for lastLimit after :=
  (match after with
   | [] => lastLimit
   | _ :: _ => MaxScanTokenSize
   end).











(** A line [null] is passed over, and an object without the two members
    adds nothing and is not done; a number, an array, or a member of
    another type is a parse error. *)
Example generate_other_lines :
  processChunk
    (fun _ _ => HttpResponse StatusOK
       ("null" ++ Sample.newline ++ "{}" ++ Sample.newline ++
        Sample.json "{'response':'cd','done':true}")%string true)
    "http://localhost:11434/api/generate" "m" "text" "generate"
  = ("cd", None) ∧
  malformed "5" ∧ malformed "[1]" ∧ malformed (Sample.json "{'response':5}") ∧
  malformed "not json" ∧
  processChunk (fun _ _ => HttpResponse StatusOK (Sample.json "{'response':5}") true)
    "http://localhost:11434/api/generate" "m" "text" "generate"
  = ("", Some ErrParsingLine).
Proof. split_and!; try (vm_compute; reflexivity); vm_compute; auto. Qed.

Example generate_malformed_line :
  processChunk
    (fun _ _ => HttpResponse StatusOK
       (Sample.json "{'response':'ab','done':false}" ++ Sample.newline ++
        "not json" ++ Sample.newline ++
        Sample.json "{'response':'cd','done':true}")%string true)
    "http://localhost:11434/api/generate" "m" "text" "generate"
  = ("", Some ErrParsingLine).
Proof. vm_compute. reflexivity. Qed.

(** *** The chat answer *)

(** The chat parser by its two branches. *)
Lemma parse_chat_tiers (body : string) :
  parse_chat body =
  match tier_canonical body with
  | Some text => (text, None)
  | None =>
      match tier_generic body with
      | Some text => (text, None)
      | None =>
          ("", Some (match Decode.Unmarshal_map body with
                     | None => ErrParsingChat
                     | Some _ => ErrNoContent body
                     end))
      end
  end.
Proof.
  unfold parse_chat, tier_canonical, tier_generic.
  destruct (OllamaCompletionResponse.Unmarshal body) as [chatResp|]; simpl.
  - destruct (String.eqb_spec
                (OllamaCompletionResponse.Content
                   (OllamaCompletionResponse.Message chatResp)) "") as [Heq|Hne].
    + rewrite decide_True by done.
      destruct (Decode.Unmarshal_map body) as [[members|]|]; simpl; try done.
      destruct (Decode.lookup_member "message" members) as [[]|]; simpl; try done.
      destruct (Decode.lookup_member "content" _) as [[]|]; simpl; done.
    + by rewrite decide_False.
  - destruct (Decode.Unmarshal_map body) as [[members|]|]; simpl; try done.
    destruct (Decode.lookup_member "message" members) as [[]|]; simpl; try done.
    destruct (Decode.lookup_member "content" _) as [[]|]; simpl; done.
Qed.

Lemma processChunk_chat (post : string -> request -> http_outcome)
    (url model content api body : string) (eofWithData : bool) :
  api ≠ "generate" ->
  post url (ChatRequest model [("user", (prompt_prefix ++ content)%string)])
  = HttpResponse StatusOK body eofWithData ->
  processChunk post url model content api = parse_chat body.
Proof.
  intros Hapi Hpost. unfold processChunk.
  apply String.eqb_neq in Hapi. rewrite Hapi, Hpost.
  by rewrite decide_False by (by intros ?).
Qed.

Section ChatObject.
Import Json Decode.

Variable body : string.
Variable members : list (string * value).
Hypothesis body_object : parse body = Some (Object members).
Hypothesis plain : plain_object members = true.
Hypothesis plain_msg : plain_message members = true.

(** The first branch on a plain object. *)
Lemma chat_struct :
  OllamaCompletionResponse.Unmarshal body
  = (m ← string_member "model" members "";
     c ← string_member "created_at" members "";
     msg ← message_member members (OllamaCompletionResponse.mkMessage "" "");
     d ← bool_member "done" members false;
     Some (OllamaCompletionResponse.mk m c msg d)).
Proof.
  unfold OllamaCompletionResponse.Unmarshal. rewrite body_object.
  cbn [mbind option_bind store_struct].
  by rewrite (store_chat members _ plain plain_msg).
Qed.

(** The second branch on a plain object. *)
Lemma chat_generic :
  tier_generic body
  = if numbers_ok (Object members) then message_content members else None.
Proof.
  unfold tier_generic, Unmarshal_map. rewrite body_object.
  cbn [mbind option_bind]. destruct (numbers_ok (Object members)); [|done].
  cbn [mbind option_bind].
  pose proof (plain_object_distinct members plain) as Hd.
  rewrite (lookup_member_field "message" members Hd).
  unfold message_content. pose proof plain_msg as Hpm. unfold plain_message in Hpm.
  destruct (field "message" members) as [[| | | | |fields]|]; try done.
  cbn [mbind option_bind].
  rewrite (lookup_member_field "content" fields (plain_object_distinct _ Hpm)).
  by destruct (field "content" fields) as [[]|].
Qed.

Lemma chat_Unmarshal_map :
  Unmarshal_map body
  = if numbers_ok (Object members) then Some (Some members) else None.
Proof. unfold Unmarshal_map. by rewrite body_object. Qed.

(** When the object has a string as its [message.content], the first
    branch, if it has no error, leaves that string. *)
Lemma chat_struct_content (text : string) :
  message_content members = Some text ->
  tier_canonical body
  = if canonical_shape members && negb (String.eqb text "") then Some text
    else None.
Proof.
  intros Hcontent. unfold tier_canonical. rewrite chat_struct.
  unfold message_content in Hcontent. unfold canonical_shape, message_member.
  destruct (field "message" members) as [[| | | | |fields]|]; try done.
  destruct (field "content" fields) as [[| | |s| |]|] eqn:Hc; try done.
  injection Hcontent as ->.
  unfold string_or_absent, bool_or_absent, string_member, bool_member.
  rewrite Hc.
  destruct (field "model" members) as [[]|]; simpl; try done;
    destruct (field "created_at" members) as [[]|]; simpl; try done;
    destruct (field "role" fields) as [[]|]; simpl; try done;
    destruct (field "done" members) as [[]|]; simpl; try done;
    destruct (String.eqb_spec text "");
    by rewrite ?decide_True, ?decide_False by done.
Qed.

(** When it has none, the first branch leaves no content. *)
Lemma chat_struct_no_content :
  message_content members = None -> tier_canonical body = None.
Proof.
  intros Hcontent. unfold tier_canonical. rewrite chat_struct.
  unfold message_content in Hcontent.
  unfold message_member, string_member, bool_member.
  destruct (field "model" members) as [[]|]; simpl; try done;
    destruct (field "created_at" members) as [[]|]; simpl; try done;
    destruct (field "message" members) as [[| | | | |fields]|]; simpl; try done;
    try (destruct (field "role" fields) as [[]|]; simpl; try done;
         destruct (field "content" fields) as [[]|]; simpl; try done);
    destruct (field "done" members) as [[]|]; simpl;
    first [done | by rewrite decide_True].
Qed.

End ChatObject.

(** C6, as stated, fails: a body whose [message] object has the empty
    [content] and, after it, the member [Content]. Its [message.content]
    is the empty string, by name and in the generic map; the first tier
    takes [Content] for the field as well, and the text of that member is
    returned. *)
Lemma chat_key_shadowed : ¬ chat_content_by_key.
Proof.
  intros Hclaim.
  specialize (Hclaim (Sample.json "{'message':{'content':'','Content':'x'}}")
                [("message", Json.Object [("content", Json.Str "");
                                          ("Content", Json.Str "x")])] "").
  assert (parse_chat (Sample.json "{'message':{'content':'','Content':'x'}}")
          = ("x", None)) as Hrun by (vm_compute; reflexivity).
  rewrite Hrun in Hclaim. discriminate Hclaim.
  - vm_compute. reflexivity.
  - vm_compute. reflexivity.
  - intros fields Hfields. vm_compute in Hfields. injection Hfields as <-.
    vm_compute. reflexivity.
  - vm_compute. reflexivity.
Qed.

(** C6, as amended. In chat mode, for a body that is a JSON object whose
    names, and those of its [message] object, are distinct names in
    lower-case letters and underscores: if the object has a string as its
    [message.content], that string is returned, by the first tier when the
    members of the canonical shape that are there have its types and the
    content is not empty, and else by key lookup in the generic map, which
    needs every number of the body to be within float64; if the object has
    no string as its [message.content], an error is returned. A body that
    is a JSON value other than an object, or no JSON text, is an error as
    well. Without the condition on the names the first tier can return the
    text of another member, whose name differs from [content] by case. *)
Theorem chat_two_tier_parse (post : string -> request -> http_outcome)
    (url model content api body : string) (eofWithData : bool) :
  api ≠ "generate" ->
  post url (ChatRequest model [("user", (prompt_prefix ++ content)%string)])
  = HttpResponse StatusOK body eofWithData ->
  (∀ members text,
     Json.parse body = Some (Json.Object members) ->
     plain_object members = true -> plain_message members = true ->
     message_content members = Some text ->
     (canonical_shape members = true -> text ≠ "" ->
      tier_canonical body = Some text ∧
      processChunk post url model content api = (text, None)) ∧
     (Decode.numbers_ok (Json.Object members) = true ->
      processChunk post url model content api = (text, None)) ∧
     (Decode.numbers_ok (Json.Object members) = false ->
      canonical_shape members = false ∨ text = "" ->
      processChunk post url model content api = ("", Some ErrParsingChat))) ∧
  (∀ members,
     Json.parse body = Some (Json.Object members) ->
     plain_object members = true -> plain_message members = true ->
     message_content members = None ->
     is_Some (processChunk post url model content api).2) ∧
  (∀ v, Json.parse body = Some v -> (∀ members, v ≠ Json.Object members) ->
        is_Some (processChunk post url model content api).2) ∧
  (Json.parse body = None ->
   processChunk post url model content api = ("", Some ErrParsingChat)).
Proof.
  intros Hapi Hpost.
  rewrite (processChunk_chat post url model content api body eofWithData Hapi Hpost).
  rewrite parse_chat_tiers. split_and!.
  - intros members text Hparse Hplain Hpm Hcontent.
    rewrite (chat_struct_content body members Hparse Hplain Hpm text Hcontent).
    rewrite (chat_generic body members Hparse Hplain Hpm).
    rewrite (chat_Unmarshal_map body members Hparse).
    split_and!.
    + intros -> Hne. apply String.eqb_neq in Hne. by rewrite Hne.
    + intros ->. rewrite Hcontent.
      by destruct (canonical_shape members && negb (String.eqb text "")).
    + intros -> [-> | ->]; [done|]. by rewrite andb_false_r.
  - intros members Hparse Hplain Hpm Hcontent.
    rewrite (chat_struct_no_content body members Hparse Hplain Hpm Hcontent).
    rewrite (chat_generic body members Hparse Hplain Hpm), Hcontent.
    destruct (Decode.numbers_ok (Json.Object members)); by eexists.
  - intros v Hparse Hno.
    unfold tier_canonical, tier_generic, OllamaCompletionResponse.Unmarshal,
      Decode.Unmarshal_map.
    rewrite Hparse.
    destruct v as [|b|lit|s|elems|members]; simpl;
      first [by eexists | by destruct (Hno members)].
  - intros Hparse.
    unfold tier_canonical, tier_generic, OllamaCompletionResponse.Unmarshal,
      Decode.Unmarshal_map.
    by rewrite Hparse.
Qed.

Lemma chat_two_tier_parse_witness :
  tier_canonical (Sample.json "{'message':{'role':'assistant','content':'hello'}}")
  = Some "hello" ∧
  processChunk
    (fun _ _ => HttpResponse StatusOK
       (Sample.json "{'message':{'role':'assistant','content':'hello'}}") true)
    "http://localhost:11434/api/chat" "m" "text" "chat" = ("hello", None) ∧
  processChunk
    (fun _ _ => HttpResponse StatusOK
       (Sample.json "{'message':{'content':'x'},'done':'yes'}") true)
    "http://localhost:11434/api/chat" "m" "text" "chat" = ("x", None) ∧
  processChunk
    (fun _ _ => HttpResponse StatusOK (Sample.json "{'message':{'content':'x'}}") true)
    "http://localhost:11434/api/chat" "m" "text" "chat" = ("x", None) ∧
  is_Some (processChunk
             (fun _ _ => HttpResponse StatusOK
                (Sample.json "{'message':{'content':5}}") true)
             "http://localhost:11434/api/chat" "m" "text" "chat").2.
Proof.
  assert (Hchat : "chat" ≠ "generate") by discriminate.
  split_and!.
  - destruct (chat_two_tier_parse
                (fun _ _ => HttpResponse StatusOK
                   (Sample.json "{'message':{'role':'assistant','content':'hello'}}")
                   true)
                "http://localhost:11434/api/chat" "m" "text" "chat"
                (Sample.json "{'message':{'role':'assistant','content':'hello'}}")
                true Hchat eq_refl) as (Hobject&_).
    destruct (Hobject [("message", Json.Object [("role", Json.Str "assistant");
                                                ("content", Json.Str "hello")])]
                "hello") as (Hfirst&_);
      [vm_compute; reflexivity..|].
    apply Hfirst; [vm_compute; reflexivity | discriminate].
  - destruct (chat_two_tier_parse
                (fun _ _ => HttpResponse StatusOK
                   (Sample.json "{'message':{'role':'assistant','content':'hello'}}")
                   true)
                "http://localhost:11434/api/chat" "m" "text" "chat"
                (Sample.json "{'message':{'role':'assistant','content':'hello'}}")
                true Hchat eq_refl) as (Hobject&_).
    destruct (Hobject [("message", Json.Object [("role", Json.Str "assistant");
                                                ("content", Json.Str "hello")])]
                "hello") as (Hfirst&_);
      [vm_compute; reflexivity..|].
    apply Hfirst; [vm_compute; reflexivity | discriminate].
  - destruct (chat_two_tier_parse
                (fun _ _ => HttpResponse StatusOK
                   (Sample.json "{'message':{'content':'x'},'done':'yes'}") true)
                "http://localhost:11434/api/chat" "m" "text" "chat"
                (Sample.json "{'message':{'content':'x'},'done':'yes'}")
                true Hchat eq_refl) as (Hobject&_).
    destruct (Hobject [("message", Json.Object [("content", Json.Str "x")]);
                       ("done", Json.Str "yes")] "x") as (_&Hsecond&_);
      [vm_compute; reflexivity..|].
    apply Hsecond. vm_compute. reflexivity.
  - destruct (chat_two_tier_parse
                (fun _ _ => HttpResponse StatusOK
                   (Sample.json "{'message':{'content':'x'}}") true)
                "http://localhost:11434/api/chat" "m" "text" "chat"
                (Sample.json "{'message':{'content':'x'}}")
                true Hchat eq_refl) as (Hobject&_).
    destruct (Hobject [("message", Json.Object [("content", Json.Str "x")])] "x")
      as (_&Hsecond&_);
      [vm_compute; reflexivity..|].
    apply Hsecond. vm_compute. reflexivity.
  - destruct (chat_two_tier_parse
                (fun _ _ => HttpResponse StatusOK
                   (Sample.json "{'message':{'content':5}}") true)
                "http://localhost:11434/api/chat" "m" "text" "chat"
                (Sample.json "{'message':{'content':5}}")
                true Hchat eq_refl) as (_&Hnone&_).
    apply (Hnone [("message", Json.Object [("content", Json.Number "5")])]);
      vm_compute; reflexivity.
Defined.

Example chat_plain_content :
  parse_chat (Sample.json "{'message':{'content':'x'}}") = ("x", None).
Proof. vm_compute. reflexivity. Qed.

(** A body that is not of the canonical shape ([done] is not a boolean):
    the first branch fails, the generic map gives the content. *)
Example chat_fallback_content :
  tier_canonical (Sample.json "{'message':{'content':'x'},'done':'yes'}") = None ∧
  tier_generic (Sample.json "{'message':{'content':'x'},'done':'yes'}") = Some "x" ∧
  parse_chat (Sample.json "{'message':{'content':'x'},'done':'yes'}") = ("x", None).
Proof. split_and!; vm_compute; reflexivity. Qed.

Example chat_both_tiers_fail :
  parse_chat (Sample.json "{'message':{'content':5}}")
  = ("", Some (ErrNoContent (Sample.json "{'message':{'content':5}}"))) ∧
  parse_chat "[1]" = ("", Some ErrParsingChat).
Proof. split; vm_compute; reflexivity. Qed.

(** C9, as stated, fails: a body whose [message] object has the empty
    [content] and, after it, a key that differs from [content] by case only;
    the canonical decoding matches keys without regard to case, takes the
    later value, and that one is returned. *)
Lemma empty_content_shadowed : ¬ empty_content_accepted.
Proof.
  intros Hclaim.
  specialize (Hclaim (Sample.json "{'message':{'content':'','Content':'x'}}")).
  assert (parse_chat (Sample.json "{'message':{'content':'','Content':'x'}}")
          = ("x", None)) as Hrun by (vm_compute; reflexivity).
  rewrite Hrun in Hclaim. discriminate Hclaim.
  do 2 eexists. split_and!; vm_compute; reflexivity.
Qed.

(** A number outside float64 elsewhere in the body makes the generic
    decoding fail, empty content or not. *)
Example chat_number_out_of_range :
  has_message_content (Sample.json "{'message':{'content':''},'n':1e999}") "" ∧
  parse_chat (Sample.json "{'message':{'content':''},'n':1e999}")
  = ("", Some ErrParsingChat).
Proof. split; [do 2 eexists; split_and!|]; vm_compute; reflexivity. Qed.

(** C9, as amended. In chat mode, for every response body that is a JSON
    object with a [message.content] field whose value is the empty string,
    that [json.Unmarshal] stores into the generic map without error, and
    whose canonical decoding gives no non-empty content, [processChunk]
    returns the empty string with a nil error, through the generic-map
    fallback: content that is present but empty is not a parse failure. *)
Theorem empty_content_via_fallback (post : string -> request -> http_outcome)
    (url model content api body : string) (eofWithData : bool) :
  api ≠ "generate" ->
  post url (ChatRequest model [("user", (prompt_prefix ++ content)%string)])
  = HttpResponse StatusOK body eofWithData ->
  has_message_content body "" ->
  is_Some (Decode.Unmarshal_map body) ->
  tier_canonical body = None ->
  tier_generic body = Some "" ∧
  processChunk post url model content api = ("", None).
Proof.
  intros Hapi Hpost (members&fields&Hparse&Hmsg&Hcontent) [m Hmap] Hcanon.
  assert (tier_generic body = Some "") as Hgen.
  { unfold tier_generic. unfold Decode.Unmarshal_map in *. rewrite Hparse in *.
    simpl in *. destruct (forallb _ members); [|done]. simpl.
    rewrite Hmsg. simpl. by rewrite Hcontent. }
  split; [exact Hgen|].
  rewrite (processChunk_chat post url model content api body eofWithData Hapi Hpost).
  by rewrite parse_chat_tiers, Hcanon, Hgen.
Qed.

Lemma empty_content_via_fallback_witness :
  tier_generic (Sample.json "{'message':{'role':'assistant','content':''}}") = Some "" ∧
  processChunk
    (fun _ _ => HttpResponse StatusOK
       (Sample.json "{'message':{'role':'assistant','content':''}}") true)
    "http://localhost:11434/api/chat" "m" "text" "chat" = ("", None).
Proof.
  apply (empty_content_via_fallback
           (fun _ _ => HttpResponse StatusOK
              (Sample.json "{'message':{'role':'assistant','content':''}}") true)
           "http://localhost:11434/api/chat" "m" "text" "chat"
           (Sample.json "{'message':{'role':'assistant','content':''}}") true).
  - discriminate.
  - reflexivity.
  - do 2 eexists. split_and!; vm_compute; reflexivity.
  - eexists. vm_compute. reflexivity.
  - vm_compute. reflexivity.
Defined.

(** * Further properties of the code *)

(** ** [processChunk] *)

Lemma scan_generate_text_or_error (lastLimit : nat) (lines : list string)
    (acc : string) :
  (scan_generate lastLimit lines acc).2 = None ∨
  (scan_generate lastLimit lines acc).1 = "".
Proof.
  revert acc. induction lines as [|line rest IH]; intros acc; [by left|].
  unfold scan_generate; fold scan_generate.
  case_decide; [by right|].
  destruct (OllamaGenerateResponse.Unmarshal (dropCR line)) as [r|]; [|by right].
  destruct (OllamaGenerateResponse.Done r); [by left | apply IH].
Qed.

Lemma parse_chat_text_or_error (body : string) :
  (parse_chat body).2 = None ∨ (parse_chat body).1 = "".
Proof.
  unfold parse_chat.
  destruct (OllamaCompletionResponse.Unmarshal body) as [chatResp|];
    [destruct (String.eqb _ ""); [|by left]|];
    (destruct (Decode.Unmarshal_map body) as [[members|]|]; simpl; [| by right..];
     destruct (Decode.lookup_member "message" members) as [[]|]; simpl; try (by right);
     destruct (Decode.lookup_member "content" _) as [[]|]; simpl;
     try (by right); by left).
Qed.

Lemma processChunk_unfold (post : string -> request -> http_outcome)
    (url model content api : string) :
  processChunk post url model content api =
  match post url (request_of model content api) with
  | TransportError => ("", Some ErrCallingAPI)
  | HttpResponse code body eofWithData =>
      if decide (code ≠ StatusOK) then ("", Some (ErrStatus code body))
      else if String.eqb api "generate" then
        scan_generate (last_line_limit body eofWithData) (split_lines body) ""
      else parse_chat body
  end.
Proof. unfold processChunk, request_of. by destruct (String.eqb api "generate"). Qed.

(** X1. On every path [processChunk] returns either a text with a nil
    error or an error with the empty text: no partial text comes with an
    error, whatever the service answers and in both modes. *)
Theorem processChunk_text_or_error (post : string -> request -> http_outcome)
    (url model content api : string) :
  (processChunk post url model content api).2 = None ∨
  (processChunk post url model content api).1 = "".
Proof.
  rewrite processChunk_unfold.
  destruct (post url _) as [|code body eofWithData]; [by right|].
  case_decide; [by right|].
  destruct (String.eqb api "generate");
    [apply scan_generate_text_or_error | apply parse_chat_text_or_error].
Qed.

(** X2. [processChunk] succeeds only on an answer with status 200 to the
    one request it builds; without an answer the error is that of the call,
    and with any other status the error carries the status code and the
    body, which is not parsed, in both modes. *)
Theorem only_status_200_succeeds (post : string -> request -> http_outcome)
    (url model content api : string) :
  ((processChunk post url model content api).2 = None ->
   ∃ body eofWithData,
     post url (request_of model content api) = HttpResponse 200 body eofWithData) ∧
  (post url (request_of model content api) = TransportError ->
   processChunk post url model content api = ("", Some ErrCallingAPI)) ∧
  (∀ code body eofWithData,
     post url (request_of model content api) = HttpResponse code body eofWithData ->
     code ≠ 200 ->
     processChunk post url model content api = ("", Some (ErrStatus code body))).
Proof.
  rewrite processChunk_unfold. split_and!.
  - destruct (post url _) as [|code body eofWithData]; [done|].
    case_decide as Hcode; [done|]. intros _. exists body, eofWithData.
    destruct (decide (code = StatusOK)) as [->|]; [done|]. by destruct Hcode.
  - by intros ->.
  - intros code body eofWithData -> Hcode. by rewrite decide_True.
Qed.

Lemma only_status_200_succeeds_witness :
  (∃ body eofWithData,
     Sample.answer 200 Sample.stream 0 0 "u" (request_of "m" "text" "generate")
     = HttpResponse 200 body eofWithData) ∧
  processChunk (Sample.answer 404 "no such model" 0 0) "u" "m" "text" "chat"
  = ("", Some (ErrStatus 404 "no such model")).
Proof.
  split.
  - apply (only_status_200_succeeds (Sample.answer 200 Sample.stream 0 0)
             "u" "m" "text" "generate").
    vm_compute. reflexivity.
  - destruct (only_status_200_succeeds (Sample.answer 404 "no such model" 0 0)
                "u" "m" "text" "chat") as (_&_&Hstatus).
    apply (Hstatus 404 "no such model" true).
    + reflexivity.
    + unfold not. discriminate.
Defined.

(** X3. [processChunk] takes every endpoint name other than [generate] as
    the chat endpoint: the request and the parsing are those of [chat]. *)
Theorem other_endpoints_are_chat (post : string -> request -> http_outcome)
    (url model content api : string) :
  api ≠ "generate" ->
  request_of model content api = request_of model content "chat" ∧
  processChunk post url model content api
  = processChunk post url model content "chat".
Proof.
  intros Hapi%String.eqb_neq. rewrite !processChunk_unfold.
  unfold request_of. rewrite Hapi. done.
Qed.

Lemma other_endpoints_are_chat_witness :
  request_of "m" "text" "embed" = request_of "m" "text" "chat" ∧
  processChunk (Sample.answer 200 "{}" 0 0) "u" "m" "text" "embed"
  = processChunk (Sample.answer 200 "{}" 0 0) "u" "m" "text" "chat".
Proof.
  apply (other_endpoints_are_chat (Sample.answer 200 "{}" 0 0) "u" "m" "text" "embed").
  discriminate.
Defined.

(** ** The retry loop *)

Lemma sleeps_app (l1 l2 : list worker_event) :
  sleeps (l1 ++ l2) = sleeps l1 ++ sleeps l2.
Proof. unfold sleeps. apply omap_app. Qed.

Section Retry.
Variable service : service.
Variable fl : Flags.
Variable index : nat.
Variable content : string.

(** The call of one attempt. *)
Local Abbreviation call attempt :=
  (processChunk (service index attempt) (ollamaURL fl) (modelName fl)
     content (apiEndpoint fl)).

(** The loop from [attempt] with [n] iterations left makes [m] calls:
    all but the last fail, the last one ends the loop by its success or
    because it is the [n]-th. *)
Lemma retry_loop_spec (n attempt : nat) cur log :
  ∃ m r log',
    retry_loop service fl index content n attempt cur log = (r, log') ∧
    m <= n ∧
    attempts log' = attempts log ++ seq attempt m ∧
    sleeps log' = sleeps log
                  ++ replicate (m - (if decide (attempt = 0) then 1 else 0)) retryDelay ∧
    (∀ j, S j < m -> is_Some (call (attempt + j)).2) ∧
    (m = 0 -> n = 0 ∧ r = cur) ∧
    (0 < m -> r = call (attempt + m - 1) ∧ (is_Some r.2 -> m = n)).
Proof.
  revert attempt cur log. induction n as [|n IH]; intros attempt cur log.
  - exists 0, cur, log. simpl.
    rewrite !(right_id_L [] (++)). split_and!; try done; lia.
  - simpl.
    set (log1 := if decide (0 < attempt) then log ++ [Sleep retryDelay] else log).
    assert (attempts log1 = attempts log) as Hatt1.
    { subst log1. case_decide; [|done]. rewrite attempts_app. simpl.
      by rewrite (right_id_L [] (++)). }
    assert (sleeps log1 = sleeps log
              ++ replicate (1 - (if decide (attempt = 0) then 1 else 0)) retryDelay)
      as Hsl1.
    { subst log1. destruct attempt as [|a]; simpl.
      - by rewrite (right_id_L [] (++)).
      - by rewrite sleeps_app. }
    destruct (call attempt) as [text [e|]] eqn:Hcall; simpl.
    + destruct (IH (S attempt) (text, Some e)
                  (log1 ++ [Attempt attempt; LogAttempt (attempt + 1) index e]))
        as (m&r&log'&Hrun&Hle&Hatt&Hsl&Hfail&Hzero&Hpos).
      exists (S m), r, log'. split_and!.
      * done.
      * lia.
      * rewrite Hatt, attempts_app, Hatt1. simpl. by rewrite <- (assoc_L (++)).
      * rewrite Hsl, sleeps_app, Hsl1. simpl.
        rewrite (right_id_L [] (++)), <- (assoc_L (++)), <- replicate_add.
        do 2 f_equal. destruct attempt; simpl; lia.
      * intros [|j] Hj.
        -- rewrite Nat.add_0_r, Hcall. by eexists.
        -- replace (attempt + S j) with (S attempt + j) by lia. apply Hfail. lia.
      * lia.
      * intros _. destruct m as [|m].
        -- destruct Hzero as [-> ->]; [done|].
           replace (attempt + 1 - 1) with attempt by lia. by rewrite Hcall.
        -- destruct Hpos as [-> Hlast]; [lia|].
           assert (attempt + S (S m) - 1 = S attempt + S m - 1) as -> by lia.
           split; [done|]. intros Hsome. f_equal. by apply Hlast.
    + exists 1, (text, None), (log1 ++ [Attempt attempt]). split_and!.
      * done.
      * lia.
      * rewrite attempts_app, Hatt1. done.
      * rewrite sleeps_app, Hsl1. simpl. by rewrite (right_id_L [] (++)).
      * intros j Hj. lia.
      * lia.
      * intros _. replace (attempt + 1 - 1) with attempt by lia.
        rewrite Hcall. split; [done|]. by intros [? ?].
Qed.

End Retry.

(** X4. Whatever the service does, a worker makes at least one and at
    most [maxRetries] = 3 attempts, numbered from 0 without a gap, and
    sleeps [retryDelay] = 2 seconds before each attempt but the first:
    at most 4 seconds in all. *)
Theorem worker_attempts_and_pauses (service : service) (fl : Flags) (index : nat)
    (content : string) :
  ∃ m, 1 <= m <= maxRetries ∧
       attempts (worker service fl maxRetries index content).2 = seq 0 m ∧
       sleeps (worker service fl maxRetries index content).2
       = replicate (m - 1) retryDelay ∧
       sum_list (sleeps (worker service fl maxRetries index content).2) <= 4.
Proof.
  unfold worker.
  destruct (retry_loop_spec service fl index content maxRetries 0 ("", None) [])
    as (m&[text perr]&log&Hrun&Hle&Hatt&Hsl&_&Hzero&_).
  rewrite Hrun. simpl in Hatt, Hsl.
  assert (1 <= m) as Hpos.
  { destruct m; [|lia]. by destruct Hzero as [? _]. }
  exists m.
  assert (attempts (match perr with
                    | Some e => (mkChunkResult index content (Some e),
                                 log ++ [LogAllFailed index e])
                    | None => (mkChunkResult index text None, log)
                    end).2 = seq 0 m) as Hatt'.
  { destruct perr; simpl; [|done]. rewrite attempts_app, Hatt. simpl.
    by rewrite (right_id_L [] (++)). }
  assert (sleeps (match perr with
                  | Some e => (mkChunkResult index content (Some e),
                               log ++ [LogAllFailed index e])
                  | None => (mkChunkResult index text None, log)
                  end).2 = replicate (m - 1) retryDelay) as Hsl'.
  { destruct perr; simpl; [|done]. rewrite sleeps_app, Hsl. simpl.
    by rewrite (right_id_L [] (++)). }
  split_and!; [done | done | done | done |].
  rewrite Hsl'. rewrite sum_list_replicate.
  unfold maxRetries in Hle. unfold retryDelay. lia.
Qed.

(** X5. The result of a worker is one of two: the text of the first
    attempt that succeeds, with a nil error, every attempt before it
    having failed; or, when all [maxRetries] attempts fail, the original
    chunk with the error of the last attempt. It always carries the index
    of the chunk. *)
Theorem worker_outcome (service : service) (fl : Flags) (index : nat)
    (content : string) :
  (∃ m text,
      m < maxRetries ∧
      (∀ j, j < m -> is_Some (attempt_result service fl index content j).2) ∧
      attempt_result service fl index content m = (text, None) ∧
      (worker service fl maxRetries index content).1
      = mkChunkResult index text None ∧
      attempts (worker service fl maxRetries index content).2 = seq 0 (S m)) ∨
  (∃ e,
      (∀ j, j < maxRetries -> is_Some (attempt_result service fl index content j).2) ∧
      (attempt_result service fl index content (maxRetries - 1)).2 = Some e ∧
      (worker service fl maxRetries index content).1
      = mkChunkResult index content (Some e) ∧
      attempts (worker service fl maxRetries index content).2 = seq 0 maxRetries).
Proof.
  unfold worker, attempt_result.
  destruct (retry_loop_spec service fl index content maxRetries 0 ("", None) [])
    as (m&[text perr]&log&Hrun&Hle&Hatt&_&Hfail&Hzero&Hpos).
  rewrite Hrun. simpl in Hatt.
  destruct m as [|m]; [by destruct Hzero as [? _]|].
  destruct Hpos as [Hlast Hall]; [lia|].
  replace (0 + S m - 1) with m in Hlast by lia.
  destruct perr as [e|]; simpl.
  - right. exists e.
    assert (S m = maxRetries) as Hm by (apply Hall; by eexists).
    split_and!.
    + intros j Hj. destruct (decide (j = m)) as [->|].
      * rewrite <- Hlast. by eexists.
      * apply (Hfail j). lia.
    + assert (m = 2) as -> by (unfold maxRetries in Hm; lia). by rewrite <- Hlast.
    + done.
    + rewrite attempts_app, Hatt, Hm. reflexivity.
  - left. exists m, text. split_and!; [lia | | done | done | done].
    intros j Hj. apply (Hfail j). lia.
Qed.

(** X6. An answer with status 200 and an empty stream to the first
    attempt, in generate mode, is a success: the worker makes no retry
    and gives the empty string for the chunk, whose text is lost. *)
Theorem empty_answer_loses_chunk (service : service) (fl : Flags) (index : nat)
    (content : string) (eofWithData : bool) :
  apiEndpoint fl = "generate" ->
  service index 0 (ollamaURL fl) (request_of (modelName fl) content "generate")
  = HttpResponse 200 "" eofWithData ->
  worker service fl maxRetries index content
  = (mkChunkResult index "" None, [Attempt 0]).
Proof.
  intros Hapi Hpost. unfold worker.
  change maxRetries with (S 2).
  unfold retry_loop; fold retry_loop.
  rewrite processChunk_unfold, Hapi, Hpost.
  rewrite decide_False by (intros Hne; by apply Hne).
  reflexivity.
Qed.

Lemma empty_answer_loses_chunk_witness :
  worker (Sample.answer 200 "") (Sample.flags "generate") maxRetries 7 "some text"
  = (mkChunkResult 7 "" None, [Attempt 0]).
Proof.
  apply (empty_answer_loses_chunk (Sample.answer 200 "") (Sample.flags "generate")
           7 "some text" true); reflexivity.
Defined.

(** A service that is busy twice: three attempts, two pauses, and the
    text of the third. *)
Example flaky_twice :
  worker (SampleMore.flaky 2) (Sample.flags "generate") maxRetries 0 "text"
  = (mkChunkResult 0 "abcd" None,
     [Attempt 0; LogAttempt 1 0 (ErrStatus 503 "busy");
      Sleep 2; Attempt 1; LogAttempt 2 0 (ErrStatus 503 "busy");
      Sleep 2; Attempt 2]).
Proof. vm_compute. reflexivity. Qed.

(** ** The chunking loop *)

Lemma string_app_length (a b : string) :
  String.length (a ++ b)%string = String.length a + String.length b.
Proof.
  induction a as [|c a IH]; [done|]. rewrite string_app_cons. simpl. by rewrite IH.
Qed.

Lemma concat_strings_length (l : list string) :
  String.length (concat_strings l) = sum_list (String.length <$> l).
Proof.
  induction l as [|x l IH]; [done|].
  change (concat_strings (x :: l)) with (x ++ concat_strings l)%string.
  rewrite string_app_length, IH. reflexivity.
Qed.

Lemma sum_list_bounds (size : nat) (l : list nat) :
  Forall (fun n => 0 < n <= size) l ->
  length l <= sum_list l ∧ sum_list l <= size * length l.
Proof.
  induction 1 as [|n l Hn _ IH]; simpl; [lia|]. nia.
Qed.

(** X7. The chunks of a file read without failure are never empty, so
    that no request is made for an empty chunk; there are at most as many
    chunks as bytes, and at least the bytes divided by the chunk size. *)
Theorem chunks_not_empty (size : nat) (f : Chunker.File) (chunks : list string) :
  0 < size -> Chunker.no_failure f ->
  Chunker.split size f = Some (Chunker.Chunks chunks) ->
  Forall (fun c => c ≠ "") chunks ∧
  length chunks <= length (Chunker.remaining f) ∧
  length (Chunker.remaining f) <= size * length chunks.
Proof.
  intros Hsize Hnf Hsplit.
  destruct (split_spec size f Hsize Hnf) as (cs&_&Hsplit'&Hall&Hcat).
  rewrite Hsplit in Hsplit'. injection Hsplit' as <-.
  apply (f_equal String.length) in Hcat.
  rewrite concat_strings_length, string_of_list_byte_length in Hcat.
  destruct (sum_list_bounds size (String.length <$> chunks)) as [Hlo Hhi].
  { apply Forall_fmap. eapply Forall_impl; [exact Hall|]. done. }
  rewrite length_fmap in Hlo, Hhi. split_and!; [|lia..].
  eapply Forall_impl; [exact Hall|]. simpl. intros c [Hc _] ->. simpl in Hc. lia.
Qed.

Lemma chunks_not_empty_witness :
  Forall (fun c => c ≠ "") ["ab"; "c"; "de"] ∧
  length ["ab"; "c"; "de"] <= length Sample.abcde ∧
  length Sample.abcde <= 2 * length ["ab"; "c"; "de"].
Proof.
  apply (chunks_not_empty 2 (Chunker.mkFile Sample.abcde [Chunker.ReadUpTo 3])).
  - lia.
  - unfold Chunker.no_failure; simpl. constructor; [discriminate | constructor].
  - reflexivity.
Defined.

Section FullReads.
Import Chunker.

(** The chunk size and the size of the buffer, the first below the
    second and at least its half, as 4000 is to 4096. *)
Variable size buf : nat.
Hypothesis size_pos : 0 < size.
Hypothesis size_lt_buf : size < buf.
Hypothesis buf_le_twice : buf <= 2 * size.

Local Ltac reduce_reader :=
  cbn [bufSize rd buffered remaining script].

Lemma Read_buffered (f : File) (x : byte) (bs : list byte) :
  Read size (mkReader f buf (x :: bs))
  = (take size (x :: bs), None, mkReader f buf (drop size (x :: bs))).
Proof. unfold Read. reduce_reader. by rewrite decide_False by lia. Qed.

Lemma Read_empty_buffer_eof :
  Read size (mkReader (mkFile [] []) buf [])
  = ([], Some EOF, mkReader (mkFile [] []) buf []).
Proof.
  unfold Read. reduce_reader. rewrite !decide_False by lia.
  unfold file_Read. reduce_reader. by rewrite decide_False by lia.
Qed.

Lemma Read_empty_buffer (x : byte) (l : list byte) :
  Read size (mkReader (mkFile (x :: l) []) buf [])
  = (take size (take buf (x :: l)), None,
     mkReader (mkFile (drop buf (x :: l)) []) buf (drop size (take buf (x :: l)))).
Proof.
  unfold Read. reduce_reader. rewrite !decide_False by lia.
  unfold file_Read. reduce_reader. rewrite decide_False by lia.
  cbv zeta. rewrite Nat.min_id.
  destruct (take buf (x :: l)) as [|y t] eqn:Htake; [|reflexivity].
  destruct buf; [lia | done].
Qed.

(** The chunks of [l] read in full reads, from an empty buffer. *)
Lemma read_chunks_full (l : list byte) :
  ∀ fuel acc, length l < fuel ->
    ∃ cs, read_chunks fuel size (mkReader (mkFile l []) buf []) acc
          = Some (Chunks (acc ++ cs)) ∧
          length cs = chunks_read size buf (length l).
Proof.
  remember (length l) as n eqn:Hn. revert l Hn.
  induction (lt_wf n) as [n _ IH]. intros l -> fuel acc Hfuel.
  destruct l as [|x l].
  { destruct fuel as [|fuel]; [simpl in Hfuel; lia|].
    exists []. unfold read_chunks. rewrite Read_empty_buffer_eof.
    rewrite (right_id_L [] (++)). split; [done|].
    unfold chunks_read. simpl length.
    rewrite Nat.Div0.div_0_l, Nat.Div0.mod_0_l. by rewrite decide_True. }
  set (L := length (x :: l)) in *.
  assert (0 < L) as HLpos by (subst L; simpl; lia).
  destruct fuel as [|fuel]; [lia|].
  unfold read_chunks; fold read_chunks. rewrite Read_empty_buffer.
  cbv iota beta.
  destruct (decide (L <= size)) as [Hsmall|Hbig].
  - (* one chunk, nothing left *)
    rewrite (take_ge (x :: l) buf) by (fold L; lia).
    rewrite (take_ge (x :: l) size) by (fold L; lia).
    rewrite (drop_ge (x :: l) buf) by (fold L; lia).
    rewrite (drop_ge (x :: l) size) by (fold L; lia).
    destruct fuel as [|fuel]; [lia|].
    unfold read_chunks; fold read_chunks. rewrite Read_empty_buffer_eof.
    exists [string_of_list_byte (x :: l)]. split; [done|].
    unfold chunks_read. fold L.
    rewrite (Nat.div_small L buf), (Nat.mod_small L buf) by lia.
    rewrite decide_False by lia. rewrite decide_True by lia. done.
  - (* a chunk of [size] bytes and the rest of the buffer *)
    assert (size < L) as Hlt by lia.
    destruct (drop size (take buf (x :: l))) as [|y rest] eqn:Hrest.
    { apply (f_equal length) in Hrest. rewrite length_drop, length_take in Hrest.
      fold L in Hrest. simpl in Hrest. lia. }
    destruct fuel as [|fuel]; [lia|].
    unfold read_chunks; fold read_chunks. rewrite Read_buffered.
    cbv iota beta.
    assert (length (y :: rest) = L `min` buf - size) as Hlen.
    { rewrite <- Hrest, length_drop, length_take. fold L. lia. }
    rewrite (take_ge (y :: rest) size) by lia.
    rewrite (drop_ge (y :: rest) size) by lia.
    destruct (IH (length (drop buf (x :: l)))) with
      (l := drop buf (x :: l)) (fuel := fuel)
      (acc := (acc ++ [string_of_list_byte (take size (take buf (x :: l)))])
                ++ [string_of_list_byte (y :: rest)])
      as (cs&Hrun&Hcount).
    { rewrite length_drop. fold L. lia. }
    { done. }
    { rewrite length_drop. fold L. lia. }
    exists (string_of_list_byte (take size (take buf (x :: l)))
            :: string_of_list_byte (y :: rest) :: cs).
    split.
    { rewrite Hrun. do 2 f_equal. by rewrite <- !(assoc_L (++)). }
    simpl length. rewrite Hcount, length_drop. fold L.
    unfold chunks_read.
    destruct (decide (L <= buf)) as [Hle|Hgt].
    + replace (L - buf) with 0 by lia.
      rewrite Nat.Div0.div_0_l, Nat.Div0.mod_0_l, decide_True by done.
      destruct (decide (L = buf)) as [->|Hne].
      * rewrite Nat.div_same, Nat.Div0.mod_same by lia.
        rewrite decide_True by done. lia.
      * rewrite (Nat.div_small L buf), (Nat.mod_small L buf) by lia.
        rewrite decide_False by lia. rewrite decide_False by lia. lia.
    + assert (L / buf = (L - buf) / buf + 1) as ->.
      { replace (L / buf) with ((L - buf + 1 * buf) / buf) by (f_equal; lia).
        apply Nat.div_add. lia. }
      assert (L mod buf = (L - buf) mod buf) as ->.
      { replace (L mod buf) with ((L - buf + 1 * buf) mod buf) by (f_equal; lia).
        apply Nat.Div0.mod_add. }
      lia.
Qed.

End FullReads.

Lemma split_full_reads (data : list byte) :
  ∃ chunks,
    Chunker.split chunkSize (Chunker.mkFile data []) = Some (Chunker.Chunks chunks) ∧
    length chunks = chunks_read chunkSize defaultBufSize (length data).
Proof.
  destruct (read_chunks_full chunkSize defaultBufSize) with
    (l := data) (fuel := S (length data)) (acc := @nil string) as (cs&Hrun&Hcount).
  - unfold chunkSize. lia.
  - unfold chunkSize, defaultBufSize. lia.
  - unfold chunkSize, defaultBufSize. lia.
  - lia.
  - exists cs. split; [exact Hrun | exact Hcount].
Qed.

Lemma chunks_read_bounds (len : nat) :
  (totalChunks (Z.of_nat len)
   <= Z.of_nat (chunks_read chunkSize defaultBufSize len))%Z ∧
  (len < 2 * defaultBufSize ∨
   (totalChunks (Z.of_nat len)
    < Z.of_nat (chunks_read chunkSize defaultBufSize len))%Z).
Proof.
  unfold totalChunks, chunks_read.
  assert (HB : Z.of_nat defaultBufSize = 4096%Z) by (vm_compute; reflexivity).
  assert (HS : Z.of_nat chunkSize = 4000%Z) by (vm_compute; reflexivity).
  assert (HB0 : defaultBufSize ≠ 0) by (intros E; rewrite E in HB; discriminate HB).
  pose proof (Nat.div_mod_eq len defaultBufSize) as Hdm.
  pose proof (Nat.mod_upper_bound len defaultBufSize HB0) as Hr.
  set (q := len / defaultBufSize) in *. set (r := len mod defaultBufSize) in *.
  apply (f_equal Z.of_nat) in Hdm.
  rewrite Nat2Z.inj_add, Nat2Z.inj_mul, HB in Hdm.
  apply Nat2Z.inj_lt in Hr. rewrite HB in Hr.
  rewrite HS.
  set (k := (if decide (r = 0) then 0
             else if decide (r <= chunkSize) then 1 else 2)).
  assert (Hk : (r = 0 ∧ k = 0) ∨
               ((0 < Z.of_nat r <= 4000)%Z ∧ k = 1) ∨
               ((4000 < Z.of_nat r)%Z ∧ k = 2)).
  { subst k. destruct (decide (r = 0)) as [?|?]; [left; by split|right].
    destruct (decide (r <= chunkSize)) as [Hle|Hgt].
    - apply Nat2Z.inj_le in Hle. rewrite HS in Hle. left. lia.
    - apply Nat.nle_gt, Nat2Z.inj_lt in Hgt. rewrite HS in Hgt. right. lia. }
  clearbody k q r.
  rewrite Z.quot_div_nonneg by lia.
  split.
  - apply Z.lt_succ_r, Z.div_lt_upper_bound; lia.
  - destruct (Nat.lt_ge_cases len (2 * defaultBufSize)) as [Hsmall|Hbig];
      [left; exact Hsmall | right].
    apply Nat2Z.inj_le in Hbig. rewrite Nat2Z.inj_mul, HB in Hbig.
    apply Z.div_lt_upper_bound; lia.
Qed.

(** X8. A file of [len] bytes that is read in full reads comes out in two
    chunks for each full buffer of 4096 bytes, of 4000 and of 96 bytes, and
    one or two chunks for the rest. The number of chunks announced and given
    to the progress bar (line 102) is never above the number of chunks read,
    and it is below it for every file of two buffers (8192 bytes) or more. *)
Theorem chunk_count_full_reads (data : list byte) :
  ∃ chunks,
    Chunker.split chunkSize (Chunker.mkFile data []) = Some (Chunker.Chunks chunks) ∧
    length chunks = chunks_read chunkSize defaultBufSize (length data) ∧
    (totalChunks (Z.of_nat (length data)) <= Z.of_nat (length chunks))%Z ∧
    (length data < 2 * defaultBufSize ∨
     (totalChunks (Z.of_nat (length data)) < Z.of_nat (length chunks))%Z).
Proof.
  destruct (split_full_reads data) as (chunks&Hsplit&Hcount).
  destruct (chunks_read_bounds (length data)) as [Hle Hlt].
  exists chunks. rewrite Hcount. split_and!; [exact Hsplit | reflexivity | exact Hle |].
  destruct Hlt as [Hsmall|Hlt]; [left; exact Hsmall | right; exact Hlt].
Qed.

Example chunk_count_two_buffers :
  chunks_read chunkSize defaultBufSize (2 * defaultBufSize) = 4 ∧
  totalChunks (Z.of_nat (2 * defaultBufSize)) = 3%Z.
Proof. split; vm_compute; reflexivity. Qed.

Section ChunkerEnds.
Import Chunker.

(** A read of the file that gives no error hands out at least one byte
    of what remains. *)
Lemma file_Read_progress (cap : nat) (f : File) bs f' :
  0 < cap -> file_Read cap f = (bs, None, f') ->
  bs ≠ [] ∧ bs ++ remaining f' = remaining f.
Proof.
  intros Hcap. unfold file_Read.
  destruct (script f) as [|[k|] rest] eqn:Hs; [| |discriminate];
    (destruct (decide (cap = 0)); [lia|]);
    (destruct (remaining f) as [|x rem] eqn:Hrem; [discriminate|]);
    intros [= <- <-]; cbn [remaining]; rewrite take_drop;
    (split; [apply take_nonempty; [lia | discriminate] | reflexivity]).
Qed.

Lemma Read_progress (n : nat) (b : Reader) bs b' :
  0 < n -> 0 < bufSize b -> Read n b = (bs, None, b') ->
  bufSize b' = bufSize b ∧ length (pending b') < length (pending b).
Proof.
  intros Hn Hbuf. unfold Read, pending.
  destruct (decide (n = 0)); [lia|].
  destruct (buffered b) as [|x buf] eqn:Hbuffered.
  - destruct (decide (bufSize b <= n)).
    + destruct (file_Read n (rd b)) as [[bs0 e0] f0] eqn:Hread.
      intros [= <- -> <-]; cbn [bufSize buffered rd].
      apply file_Read_progress in Hread as [Hne Hrem]; [|exact Hn].
      split; [reflexivity|]. rewrite <- Hrem, !length_app.
      destruct bs0; [done | simpl; lia].
    + destruct (file_Read (bufSize b) (rd b)) as [[bs0 e0] f0] eqn:Hread.
      destruct bs0 as [|y bs0].
      * intros [= <- -> <-]; cbn [bufSize buffered rd].
        apply file_Read_progress in Hread as [Hne _]; [done | exact Hbuf].
      * intros [= <- <-]; cbn [bufSize buffered rd].
        split; [reflexivity|].
        assert (e0 = None) as ->.
        { revert Hread. unfold file_Read.
          destruct (script (rd b)) as [|[k|] rest]; [| |discriminate];
            (destruct (decide (bufSize b = 0)); [discriminate|]);
            (destruct (remaining (rd b)); [discriminate|]); congruence. }
        apply file_Read_progress in Hread as [_ Hrem]; [|exact Hbuf].
        rewrite <- Hrem, !length_app, length_drop. simpl. lia.
  - intros [= <- <-]; cbn [bufSize buffered rd]. split; [reflexivity|].
    rewrite !length_app, length_drop. simpl. lia.
Qed.

(** The loop ends, with the chunks or with the fatal read error, within
    one iteration more than there are bytes pending. *)
Lemma read_chunks_ends (size : nat) :
  0 < size ->
  ∀ fuel (b : Reader) (acc : list string),
    0 < bufSize b -> length (pending b) < fuel ->
    ∃ r, read_chunks fuel size b acc = Some r.
Proof.
  intros Hsize fuel. induction fuel as [|fuel IH]; intros b acc Hbuf Hlen; [lia|].
  cbn [read_chunks]. destruct (Read size b) as [[bs e] b'] eqn:HRead.
  destruct e as [[]|]; [by eexists..|].
  apply Read_progress in HRead as [Hsame Hless]; [|done..].
  apply IH; [by rewrite Hsame | lia].
Qed.

End ChunkerEnds.

Lemma split_ends (f : Chunker.File) :
  ∃ r, Chunker.split chunkSize f = Some r.
Proof.
  apply read_chunks_ends.
  - unfold chunkSize. lia.
  - change (0 < defaultBufSize). unfold defaultBufSize. lia.
  - unfold Chunker.pending, Chunker.NewReader.
    cbn [Chunker.buffered Chunker.rd]. rewrite app_nil_l. lia.
Qed.

(** X9. The chunking loop of lines 122-135 ends for every file and every
    behaviour of its reads, short or failing: it gives the chunks or stops
    at the fatal read error, within one iteration more than the file has
    bytes. It gives the chunks when no read fails, and when it stops at
    the error some read of the file fails. *)
Theorem chunker_always_ends (size : nat) (f : Chunker.File) :
  0 < size ->
  ∃ r, Chunker.split size f = Some r ∧
       (Chunker.no_failure f -> ∃ chunks, r = Chunker.Chunks chunks) ∧
       (r = Chunker.ReadFatal -> ¬ Chunker.no_failure f).
Proof.
  intros Hsize.
  destruct (read_chunks_ends size Hsize (S (length (Chunker.remaining f)))
              (Chunker.NewReader f) []) as [r Hr].
  - change (0 < defaultBufSize). unfold defaultBufSize. lia.
  - unfold Chunker.pending, Chunker.NewReader.
    cbn [Chunker.buffered Chunker.rd]. rewrite app_nil_l. lia.
  - exists r. split; [exact Hr|].
    assert (Hok : Chunker.no_failure f -> ∃ chunks, r = Chunker.Chunks chunks).
    { intros Hnf. destruct (split_spec size f Hsize Hnf) as (chunks&_&Hsplit&_).
      exists chunks. unfold Chunker.split in Hsplit. congruence. }
    split; [exact Hok|].
    intros -> Hnf. destruct (Hok Hnf) as [chunks Hchunks]. discriminate.
Qed.

Lemma chunker_always_ends_witness :
  Chunker.split 2 SampleMore.broken_file = Some Chunker.ReadFatal ∧
  ¬ Chunker.no_failure SampleMore.broken_file.
Proof.
  destruct (chunker_always_ends 2 SampleMore.broken_file) as (r&Hr&_&Hfatal); [lia|].
  vm_compute in Hr. injection Hr as <-. split; [reflexivity | by apply Hfatal].
Defined.

(** ** The ways [main] ends *)

Local Ltac no_run :=
  intros fileSize' chunks'
    (Hin'&Hapi'&Hstat'&(file'&Hopen'&Hsplit')&Hdir'&Hwrite').

Local Ltac which_event Hin :=
  repeat first
    [ apply elem_of_app in Hin as [Hin|Hin]
    | apply elem_of_cons in Hin as [Hin|Hin]
    | apply elem_of_nil in Hin; destruct Hin
    | discriminate Hin ].

Local Ltac quiet_events :=
  rewrite ?Forall_app; repeat split; repeat constructor.

Local Ltac untouched :=
  let e := fresh "e" in let Hin := fresh "Hin" in let Ht := fresh "Ht" in
  intros e Hin Ht; which_event Hin; subst e; discriminate Ht.

(** A run ends with exit code 1, without a summary or a complete output
    file and at [Usage] or at a fatal error, or it gets through and ends
    with exit code 0. A run that fails touches the output file only in
    [os.WriteFile], when that fails after it has opened the file. *)
Lemma main_cases (fl : Flags) (w : World) :
  (∃ events,
     main fl w = Some (events, exit_failure) ∧
     Forall (fun e => is_output e = false) events ∧
     (last events = Some Usage ∨ ∃ msg, last events = Some (Fatal msg)) ∧
     (∀ fileSize chunks, ¬ gets_through fl w fileSize chunks) ∧
     (∀ e, e ∈ events -> touches_output e = true ->
        WriteFile_ok w = false ∧
        last events = Some (Fatal "Error writing to output file") ∧
        ∃ n chunks,
          WriteFile_partial w = Some n ∧
          e = WriteFilePartial (outputFile fl)
                (String.substring 0 n
                   (Join (Content <$> pool_outputs (srv w) fl chunks) separator)))) ∨
  (∃ fileSize chunks,
     gets_through fl w fileSize chunks ∧
     main fl w = Some (completed_events fl w fileSize chunks, exit_success)).
Proof.
  unfold main.
  destruct (String.eqb (inputFile fl) "") eqn:Einput.
  { left. cbv beta iota. eexists. split; [reflexivity|]. split; [quiet_events|].
    split; [left; reflexivity|]. split; [|untouched].
    no_run. apply String.eqb_eq in Einput. exact (Hin' Einput). }
  apply String.eqb_neq in Einput.
  destruct (negb (String.eqb (apiEndpoint fl) "generate")
            && negb (String.eqb (apiEndpoint fl) "chat")) eqn:Eapi.
  { left. cbv beta iota. eexists. split; [reflexivity|]. split; [quiet_events|].
    split; [left; reflexivity|]. split; [|untouched]. no_run.
    destruct Hapi' as [Heq|Heq]; rewrite Heq in Eapi; vm_compute in Eapi;
      discriminate Eapi. }
  assert (Hapi : apiEndpoint fl = "generate" ∨ apiEndpoint fl = "chat").
  { destruct (String.eqb (apiEndpoint fl) "generate") eqn:E1;
      [left; apply String.eqb_eq; exact E1|].
    destruct (String.eqb (apiEndpoint fl) "chat") eqn:E2;
      [right; apply String.eqb_eq; exact E2 | discriminate Eapi]. }
  destruct (stat_input w) as [fileSize|] eqn:Estat.
  2: { left. cbv beta iota. eexists. split; [reflexivity|]. split; [quiet_events|].
       split; [right; eexists; reflexivity|]. split; [|untouched].
       no_run. rewrite Estat in Hstat'. discriminate Hstat'. }
  destruct (open_input w) as [file|] eqn:Eopen.
  2: { left. cbv beta iota. eexists. split; [reflexivity|]. split; [quiet_events|].
       split; [right; eexists; reflexivity|]. split; [|untouched].
       no_run. rewrite Eopen in Hopen'. discriminate Hopen'. }
  destruct (split_ends file) as [r Esplit]. rewrite Esplit.
  destruct r as [chunks|].
  2: { left. cbv beta iota. eexists. split; [reflexivity|]. split; [quiet_events|].
       split; [right; eexists; reflexivity|]. split; [|untouched]. no_run.
       rewrite Eopen in Hopen'. injection Hopen' as <-.
       rewrite Esplit in Hsplit'. discriminate Hsplit'. }
  cbv zeta. unfold completed_events. cbv zeta.
  destruct (String.eqb (filepath_Dir w (outputFile fl)) ".") eqn:Edir;
    [apply String.eqb_eq in Edir | apply String.eqb_neq in Edir];
    cbn [negb andb];
    destruct (MkdirAll_ok w) eqn:Emk; cbn [negb];
    destruct (WriteFile_ok w) eqn:Ewr; cbn [negb];
    first
      [ (* the run gets through *)
        right; exists fileSize, chunks; split;
        [ split_and!; first [ exact Einput | exact Hapi | exact Estat | exact Ewr
                            | (exists file; split; [exact Eopen | exact Esplit])
                            | (left; exact Edir) | (right; exact Emk) ]
        | destruct (stat_output_ok w); reflexivity ]
      | (* a fatal error before the output is written, or in writing it *)
        destruct (WriteFile_partial w) as [n|] eqn:Epart; cbn [app];
        left; eexists; (split; [reflexivity|]); (split; [quiet_events|]);
        (split; [right; eexists; reflexivity|]);
        (split;
         [ no_run; first [ rewrite Ewr in Hwrite'; discriminate Hwrite'
                         | destruct Hdir' as [Hdir'|Hdir'];
                           [ exact (Edir Hdir')
                           | rewrite Emk in Hdir'; discriminate Hdir' ] ]
         | intros e Hin Ht; which_event Hin; subst e;
           first [ discriminate Ht
                 | (split; [reflexivity|]); (split; [reflexivity|]);
                   exists n, chunks; split; reflexivity ] ]) ].
Qed.

Lemma flag_Parse_cases (args : list string) :
  (∃ fl, flag_Parse args default_flags = Parsed fl) ∨
  flag_Parse args default_flags = HelpRequested ∨
  (∃ msg, flag_Parse args default_flags = FlagError msg).
Proof.
  destruct (flag_Parse args default_flags) as [fl| |msg];
    [left; by eexists | right; by left | right; right; by eexists].
Qed.

(** X10. Every run of the program ends, whatever the command line, the
    files and the service do, with exit code 0, 1 or 2. It ends with 2
    exactly when [flag.Parse] rejects the command line, and with 0 exactly
    when help is asked for, or the flags are accepted, the input file is
    found, opened and read without a read error, and the output directory
    and the output file are written. The answers of the service have no
    part in the exit code. *)
Theorem program_always_ends (args : list string) (w : World) :
  ∃ events code,
    program args w = Some (events, code) ∧
    (code = exit_success ∨ code = exit_failure ∨ code = exit_usage) ∧
    (code = exit_usage ↔ ∃ msg, flag_Parse args default_flags = FlagError msg) ∧
    (code = exit_success ↔
     flag_Parse args default_flags = HelpRequested ∨
     ∃ fl fileSize chunks,
       flag_Parse args default_flags = Parsed fl ∧
       gets_through fl w fileSize chunks).
Proof.
  unfold program.
  destruct (flag_Parse args default_flags) as [fl| |msg] eqn:Eparse.
  - destruct (main_cases fl w)
      as [(events&Hmain&_&_&Hno&_)|(fileSize&chunks&Hok&Hmain)].
    + exists events, exit_failure. split; [exact Hmain|].
      split; [right; by left|]. split.
      * split; [discriminate | by intros [msg ?]].
      * split; [discriminate|].
        intros [?|(fl'&fileSize&chunks&[= <-]&Hok)]; [done|].
        by destruct (Hno fileSize chunks).
    + eexists _, exit_success. split; [exact Hmain|]. split; [by left|]. split.
      * split; [discriminate | by intros [msg ?]].
      * split; [|reflexivity]. intros _. right. by exists fl, fileSize, chunks.
  - eexists _, exit_success. split; [reflexivity|]. split; [by left|]. split.
    + split; [discriminate | by intros [msg ?]].
    + split; [by left | reflexivity].
  - eexists _, exit_usage. split; [reflexivity|]. split; [right; by right|]. split.
    + split; [by eexists | reflexivity].
    + split; [discriminate|]. intros [?|(fl&?&?&?&_)]; done.
Qed.

Example program_exit_codes :
  program ["-h"] SampleMore.no_input = Some ([Usage], exit_success) ∧
  program ["-verbose"] SampleMore.no_input
  = Some ([PrintFlagError "flag provided but not defined: -verbose"; Usage],
          exit_usage) ∧
  program ["-model"] SampleMore.no_input
  = Some ([PrintFlagError "flag needs an argument: -model"; Usage], exit_usage) ∧
  program ["---input"] SampleMore.no_input
  = Some ([PrintFlagError "bad flag syntax: ---input"; Usage], exit_usage) ∧
  program ["book.txt"] SampleMore.no_input
  = Some ([Println "Error: Input file is required"; Usage], exit_failure) ∧
  program ["--input=book.txt"; "-api"; "embed"] SampleMore.no_input
  = Some ([Println "Error: API endpoint must be 'generate' or 'chat'"; Usage],
          exit_failure) ∧
  flag_Parse ["-input"; "book.txt"; "--api=chat"; "rest"; "-model"; "m"] default_flags
  = Parsed (mkFlags "book.txt" "llama3.2-vision:latest" "llm.txt" "chat"
              "http://localhost:11434/api").
Proof. split_and!; vm_compute; reflexivity. Qed.

(** X11. A run that ends with exit code 1 has printed no summary, and no
    [os.WriteFile] of it has returned without error; its last event is the
    usage text after a rejected value of a flag, or the fatal error. The
    output file is touched by such a run only when the fatal error is that
    of [os.WriteFile] and the file had been opened: it is then left
    created or truncated, holding what was written of the text before the
    error. *)
Theorem failed_run_output (args : list string) (w : World) (events : list event) :
  program args w = Some (events, exit_failure) ->
  ∃ fl,
    flag_Parse args default_flags = Parsed fl ∧
    (∀ e, e ∈ events -> is_output e = false) ∧
    (last events = Some Usage ∨ ∃ msg, last events = Some (Fatal msg)) ∧
    (∀ e, e ∈ events -> touches_output e = true ->
       WriteFile_ok w = false ∧
       last events = Some (Fatal "Error writing to output file") ∧
       ∃ n chunks,
         WriteFile_partial w = Some n ∧
         e = WriteFilePartial (outputFile fl)
               (String.substring 0 n
                  (Join (Content <$> pool_outputs (srv w) fl chunks) separator))) ∧
    (WriteFile_partial w = None -> ∀ e, e ∈ events -> touches_output e = false).
Proof.
  unfold program. intros Hrun.
  destruct (flag_Parse args default_flags) as [fl| |msg]; [|discriminate Hrun..].
  exists fl. split; [reflexivity|].
  destruct (main_cases fl w)
    as [(events'&Hmain&Hquiet&Hlast&_&Htouch)|(fileSize&chunks&_&Hmain)];
    rewrite Hrun in Hmain; [|discriminate Hmain].
  injection Hmain as <-.
  split; [by apply Forall_forall|]. split; [exact Hlast|]. split; [exact Htouch|].
  intros Hnone e Hin. destruct (touches_output e) eqn:Ht; [|reflexivity].
  destruct (Htouch e Hin Ht) as (_&_&n&chunks&Hsome&_).
  rewrite Hnone in Hsome. discriminate Hsome.
Qed.

Lemma failed_run_output_witness :
  ∃ events,
    program ["-input"; "book.txt"]
      (mkWorld (Some 5%Z) (Some (Chunker.mkFile Sample.abcde []))
         (Sample.answer 500 "busy") (fun _ => ".") true false true (Some 3))
    = Some (events, exit_failure) ∧
    WriteFilePartial "llm.txt" "abc" ∈ events ∧
    (∀ e, e ∈ events -> is_output e = false) ∧
    last events = Some (Fatal "Error writing to output file").
Proof.
  eexists.
  assert (Hrun :
    program ["-input"; "book.txt"]
      (mkWorld (Some 5%Z) (Some (Chunker.mkFile Sample.abcde []))
         (Sample.answer 500 "busy") (fun _ => ".") true false true (Some 3))
    = Some ([PrintProcessing "book.txt" 5; PrintModel "llama3.2-vision:latest";
             PrintEndpoint "generate"; PrintSplitting 1;
             WriteFilePartial "llm.txt" "abc";
             Fatal "Error writing to output file"], exit_failure))
    by (vm_compute; reflexivity).
  split; [exact Hrun|].
  assert (Hin : WriteFilePartial "llm.txt" "abc"
                ∈ [PrintProcessing "book.txt" 5; PrintModel "llama3.2-vision:latest";
                   PrintEndpoint "generate"; PrintSplitting 1;
                   WriteFilePartial "llm.txt" "abc";
                   Fatal "Error writing to output file"])
    by (do 4 right; left).
  split; [exact Hin|].
  destruct (failed_run_output _ _ _ Hrun) as (fl&_&Hquiet&_&Htouch&_).
  split; [exact Hquiet|].
  destruct (Htouch _ Hin eq_refl) as (_&Hlast&_). exact Hlast.
Defined.

Lemma elem_of_completed_summary_inv (fl : Flags) (w : World) fileSize chunks ok total errors :
  PrintSummary ok total errors ∈ completed_events fl w fileSize chunks ->
  total = length chunks ∧
  errors = length (filter (fun r => Pool.failed r = true)
                     (pool_outputs (srv w) fl chunks)) ∧
  ok = total - errors.
Proof.
  unfold completed_events. cbv zeta. intros Hin.
  destruct (stat_output_ok w);
    destruct (String.eqb (filepath_Dir w (outputFile fl)) ".");
    which_event Hin; by injection Hin as -> -> ->.
Qed.

(** X12. The summary line of a run (lines 237-238) is printed only by a
    run that ends with exit code 0; its total is the number of chunks
    read, its errors are the chunks whose worker gave up, which are never
    more than the total, and successes and errors add up to the total. *)
Theorem summary_adds_up (fl : Flags) (w : World) (events : list event) (code : Z)
    (ok total errors : nat) :
  main fl w = Some (events, code) ->
  PrintSummary ok total errors ∈ events ->
  code = exit_success ∧
  errors <= total ∧ ok + errors = total ∧
  ∃ fileSize chunks,
    gets_through fl w fileSize chunks ∧
    total = length chunks ∧
    errors = length (filter (fun r => Pool.failed r = true)
                       (pool_outputs (srv w) fl chunks)).
Proof.
  intros Hmain Hin.
  destruct (main_cases fl w) as [(events'&Hmain'&Hquiet&_)|(fileSize&chunks&Hok&Hmain')];
    rewrite Hmain in Hmain'; injection Hmain' as -> ->.
  - rewrite Forall_forall in Hquiet. by apply Hquiet in Hin.
  - apply elem_of_completed_summary_inv in Hin as (Htotal&Herrors&Hok').
    assert (errors <= total).
    { rewrite Herrors, Htotal, <- (pool_outputs_length (srv w) fl chunks).
      apply length_filter. }
    split; [reflexivity|]. split; [done|]. split; [lia|].
    by exists fileSize, chunks.
Qed.

Lemma summary_adds_up_witness :
  ∃ events,
    main (Sample.flags "chat") (Sample.world 5 Sample.abcde (Sample.answer 500 "busy"))
    = Some (events, exit_success) ∧
    PrintSummary 0 1 1 ∈ events ∧ 1 <= 1 ∧ 0 + 1 = 1.
Proof.
  eexists.
  assert (Hmain :
    main (Sample.flags "chat") (Sample.world 5 Sample.abcde (Sample.answer 500 "busy"))
    = Some ([PrintProcessing "book.txt" 5; PrintModel "llama3.2-vision:latest";
             PrintEndpoint "chat"; PrintSplitting 1;
             WriteFile "llm.txt" "abcde"; PrintSummary 0 1 1; PrintSaved "llm.txt";
             PrintRatio 1%float 5 5], exit_success))
    by (vm_compute; reflexivity).
  split; [exact Hmain|].
  assert (Hin : PrintSummary 0 1 1
                ∈ [PrintProcessing "book.txt" 5; PrintModel "llama3.2-vision:latest";
                   PrintEndpoint "chat"; PrintSplitting 1;
                   WriteFile "llm.txt" "abcde"; PrintSummary 0 1 1; PrintSaved "llm.txt";
                   PrintRatio 1%float 5 5])
    by (do 5 right; left).
  split; [exact Hin|].
  destruct (summary_adds_up _ _ _ _ _ _ _ Hmain Hin) as (_&Hle&Hsum&_).
  split; [exact Hle | exact Hsum].
Defined.

(** ** The worker pool under every schedule *)

Lemma pool_inv (service : service) (fl : Flags) (chunks : list string) (s : Pool.state) :
  pool_reachable service fl chunks s ->
  Pool.inv chunks (fun i c => (worker service fl maxRetries i c).1)
    maxConcurrentRequests s.
Proof. apply reachable_inv. apply worker_index. Qed.

Lemma started_worker_index (service : service) (fl : Flags) (chunks : list string)
    (s : Pool.state) i ph :
  pool_reachable service fl chunks s ->
  Pool.workers s !! i = Some ph -> i < length chunks.
Proof.
  intros Hinv%pool_inv Hi. apply lookup_lt_Some in Hi.
  rewrite (Pool.inv_spawned _ _ _ s Hinv) in Hi.
  pose proof (Pool.inv_bound _ _ _ s Hinv).
  destruct (Pool.pc s); simpl in *; lia.
Qed.

(** X13. No operation of the pool can panic, whatever the schedule: while
    a worker has still to send, [results] is not closed; when a worker
    comes to its deferred [wg.Done()] the counter of the WaitGroup is
    above 0; and the index of every result in the channel is within
    [processedChunks] when it is stored. *)
Theorem pool_never_panics (service : service) (fl : Flags) (chunks : list string)
    (s : Pool.state) :
  pool_reachable service fl chunks s ->
  (∀ i, Pool.workers s !! i = Some Pool.WRunning -> Pool.closed s = false) ∧
  (∀ i, Pool.workers s !! i = Some Pool.WReleased -> 0 < Pool.wg s) ∧
  (∀ r, r ∈ Pool.results s ->
     Index r < length chunks ∧
     (Pool.pc s = Pool.MCollect -> Index r < length (Pool.processedChunks s))).
Proof.
  intros Hreach. pose proof (pool_inv _ _ _ _ Hreach) as Hinv.
  pose proof (Pool.inv_wg _ _ _ s Hinv) as Hwg.
  assert (Hbusy : ∀ i ph, Pool.workers s !! i = Some ph ->
                    Pool.not_exited ph = true -> 0 < Pool.wg s).
  { intros i ph Hi Hph.
    destruct (decide (Pool.count Pool.not_exited (Pool.workers s) = 0)) as [Hz|]; [|lia].
    pose proof (count_zero Pool.not_exited _ i _ Hz Hi) as Hno.
    rewrite Hph in Hno. discriminate Hno. }
  split_and!.
  - intros i Hi. destruct (Pool.closed s) eqn:Hclosed; [|reflexivity].
    pose proof (Pool.inv_quiet _ _ _ s Hinv Hclosed) as Hquiet.
    specialize (Hbusy i _ Hi eq_refl). lia.
  - intros i Hi. exact (Hbusy i _ Hi eq_refl).
  - intros r Hr.
    assert (Index r < length chunks) as Hlt.
    { assert (r ∈ Pool.received s ++ Pool.results s) as Hin
        by (apply elem_of_app; by right).
      apply (Pool.inv_sent _ _ _ s Hinv) in Hin as (k&c&q&_&_&Hc&->).
      rewrite worker_index. by eapply lookup_lt_Some. }
    split; [exact Hlt|]. intros Hpc.
    rewrite (Pool.inv_length _ _ _ s Hinv); [exact Hlt|]. by rewrite Hpc.
Qed.

Lemma pool_never_panics_witness :
  ∃ s, pool_exec (Sample.answer 500 "busy") (Sample.flags "chat")
         ["a"; "b"; "c"; "d"] Sample.three_running Pool.init = Some s ∧
       Pool.workers s !! 0 = Some Pool.WRunning ∧
       Pool.closed s = false.
Proof.
  destruct (pool_exec (Sample.answer 500 "busy") (Sample.flags "chat")
              ["a"; "b"; "c"; "d"] Sample.three_running Pool.init) as [s|] eqn:Hexec;
    [|by vm_compute in Hexec].
  exists s. split; [reflexivity|].
  destruct (pool_never_panics _ _ _ s (pool_exec_reachable _ _ _ _ _ Hexec))
    as (Hopen&_&_).
  vm_compute in Hexec. injection Hexec as <-.
  split; [reflexivity | exact (Hopen 0 eq_refl)].
Defined.

(** X14. The send of a worker never blocks: [results] has room for one
    result of every chunk (line 159), so while a worker is in its body the
    channel holds fewer than [len(chunks)] results and the worker can send
    at once, also before the main goroutine has begun to collect. *)
Theorem send_never_blocks (service : service) (fl : Flags) (chunks : list string)
    (s : Pool.state) (i : nat) :
  pool_reachable service fl chunks s ->
  Pool.workers s !! i = Some Pool.WRunning ->
  length (Pool.results s) < length chunks ∧
  ∃ content s',
    chunks !! i = Some content ∧
    pool_step service fl chunks s s' ∧
    Pool.results s' = Pool.results s ++ [(worker service fl maxRetries i content).1] ∧
    Pool.workers s' !! i = Some Pool.WSent.
Proof.
  intros Hreach Hi. pose proof (pool_inv _ _ _ _ Hreach) as Hinv.
  pose proof (results_room _ _ _ (worker_index service fl maxRetries) s i Hinv Hi)
    as Hroom.
  split; [exact Hroom|].
  pose proof (started_worker_index _ _ _ _ _ _ Hreach Hi) as Hlt.
  destruct (lookup_lt_is_Some_2 chunks i Hlt) as [c Hc].
  exists c. eexists. split; [exact Hc|]. split.
  - apply (Pool.step_work _ _ _ s i c); [exact Hi | exact Hc | exact Hroom].
  - cbn [Pool.results Pool.workers]. split; [reflexivity|].
    apply list_lookup_insert_eq. by eapply lookup_lt_Some.
Qed.

Lemma send_never_blocks_witness :
  ∃ s, pool_exec (Sample.answer 500 "busy") (Sample.flags "chat")
         ["a"; "b"; "c"; "d"] Sample.three_running Pool.init = Some s ∧
       Pool.workers s !! 2 = Some Pool.WRunning ∧
       length (Pool.results s) < 4.
Proof.
  destruct (pool_exec (Sample.answer 500 "busy") (Sample.flags "chat")
              ["a"; "b"; "c"; "d"] Sample.three_running Pool.init) as [s|] eqn:Hexec;
    [|by vm_compute in Hexec].
  exists s. split; [reflexivity|].
  pose proof (send_never_blocks _ _ _ s 2 (pool_exec_reachable _ _ _ _ _ Hexec)) as Hthm.
  vm_compute in Hexec. injection Hexec as <-.
  destruct (Hthm eq_refl) as [Hroom _].
  split; [reflexivity | exact Hroom].
Defined.

(** X15. The pool cannot deadlock: in every state that a run can be in,
    under every schedule, the main goroutine is past its collecting loop
    or some goroutine can take a step; and from every such state the end
    of the collecting loop can be reached. *)
Theorem pool_never_stuck (service : service) (fl : Flags) (chunks : list string)
    (s : Pool.state) :
  pool_reachable service fl chunks s ->
  (Pool.pc s = Pool.MDone ∨ ∃ s', pool_step service fl chunks s s') ∧
  ∃ s', rtc (pool_step service fl chunks) s s' ∧ Pool.pc s' = Pool.MDone.
Proof.
  intros Hreach.
  assert (HK : 0 < maxConcurrentRequests) by (unfold maxConcurrentRequests; lia).
  split.
  - exact (pool_progress _ _ _ (worker_index service fl maxRetries) s HK Hreach).
  - exact (pool_run_ends _ _ _ (worker_index service fl maxRetries) s HK Hreach).
Qed.

Lemma pool_never_stuck_witness :
  ∃ s, pool_exec (Sample.answer 500 "busy") (Sample.flags "chat")
         ["a"; "b"; "c"; "d"] Sample.three_running Pool.init = Some s ∧
       Pool.pc s = Pool.MAcquire 3 ∧ Pool.semaphore s = 3 ∧
       ∃ s', pool_step (Sample.answer 500 "busy") (Sample.flags "chat")
               ["a"; "b"; "c"; "d"] s s'.
Proof.
  destruct (pool_exec (Sample.answer 500 "busy") (Sample.flags "chat")
              ["a"; "b"; "c"; "d"] Sample.three_running Pool.init) as [s|] eqn:Hexec;
    [|by vm_compute in Hexec].
  exists s. split; [reflexivity|].
  destruct (pool_never_stuck _ _ _ s (pool_exec_reachable _ _ _ _ _ Hexec))
    as [Hmove _].
  vm_compute in Hexec. injection Hexec as <-.
  split; [reflexivity|]. split; [reflexivity|].
  destruct Hmove as [Hdone|Hstep]; [discriminate Hdone | exact Hstep].
Defined.

Lemma pool_steps_measure (service : service) (fl : Flags) (chunks : list string)
    (n : nat) (s s' : Pool.state) :
  pool_reachable service fl chunks s ->
  nsteps (pool_step service fl chunks) n s s' ->
  pool_reachable service fl chunks s' ∧
  n + Pool.measure chunks s' <= Pool.measure chunks s.
Proof.
  intros Hreach Hsteps. induction Hsteps as [s|n s s1 s' Hstep Hsteps IH].
  - split; [exact Hreach | lia].
  - assert (pool_reachable service fl chunks s1) as Hreach1
      by (eapply Pool.reachable_step; [exact Hreach | exact Hstep]).
    destruct (IH Hreach1) as [Hreach' Hle]. split; [exact Hreach'|].
    pose proof (pool_measure _ _ _ (worker_index service fl maxRetries) s s1
                  Hreach Hstep).
    lia.
Qed.

Lemma pool_exec_nsteps (service : service) (fl : Flags) (chunks : list string)
    (schedule : list Pool.actor) (s s' : Pool.state) :
  pool_exec service fl chunks schedule s = Some s' ->
  nsteps (pool_step service fl chunks) (length schedule) s s'.
Proof.
  revert s. induction schedule as [|a rest IH]; intros s Hexec.
  - injection Hexec as <-. constructor.
  - unfold pool_exec in Hexec. cbn [Pool.exec] in Hexec.
    destruct (Pool.exec_step chunks _ maxConcurrentRequests s a) as [s1|] eqn:Hstep;
      [|discriminate Hexec].
    apply (nsteps_l _ _ s s1 s'); [|by apply IH].
    by eapply exec_step_sound.
Qed.

(** X16. Every run of the pool over N chunks is over within 7 N + 5 steps
    of its goroutines, whatever the schedule: each step uses up one of the
    steps that remain, of which there are 7 N + 5 at the start. *)
Theorem pool_run_bounded (service : service) (fl : Flags) (chunks : list string)
    (n : nat) (s : Pool.state) :
  nsteps (pool_step service fl chunks) n Pool.init s ->
  n + Pool.measure chunks s <= 7 * length chunks + 5.
Proof.
  intros Hsteps.
  destruct (pool_steps_measure service fl chunks n Pool.init s) as [_ Hle];
    [constructor | exact Hsteps |].
  assert (Pool.measure chunks Pool.init = 7 * length chunks + 5) as Hinit.
  { unfold Pool.measure, Pool.init.
    cbn [Pool.pc Pool.workers Pool.results Pool.closed Pool.pc_weight
         sum_list_with length].
    lia. }
  lia.
Qed.

Lemma pool_run_bounded_witness :
  ∃ s, nsteps (pool_step (Sample.answer 200 Sample.stream) (Sample.flags "generate")
                 ["first"; "second"]) 17 Pool.init s ∧
       Pool.pc s = Pool.MDone ∧
       17 + Pool.measure ["first"; "second"] s <= 7 * 2 + 5.
Proof.
  destruct (pool_exec (Sample.answer 200 Sample.stream) (Sample.flags "generate")
              ["first"; "second"] Sample.out_of_order Pool.init) as [s|] eqn:Hexec;
    [|by vm_compute in Hexec].
  exists s.
  pose proof (pool_exec_nsteps _ _ _ _ _ _ Hexec) as Hsteps.
  change (length Sample.out_of_order) with 17 in Hsteps.
  split; [exact Hsteps|].
  pose proof (pool_run_bounded _ _ _ _ _ Hsteps) as Hbound.
  vm_compute in Hexec. injection Hexec as <-.
  split; [reflexivity | exact Hbound].
Defined.

Lemma received_bounded (service : service) (fl : Flags) (chunks : list string)
    (s : Pool.state) :
  pool_reachable service fl chunks s ->
  length (Pool.received s) + length (Pool.results s) <= length chunks.
Proof.
  intros Hinv%pool_inv.
  assert (length (Index <$> (Pool.received s ++ Pool.results s))
          <= length (seq 0 (length chunks))) as Hle;
    [|by rewrite length_fmap, length_app, length_seq in Hle].
  apply submseteq_length, NoDup_submseteq; [apply (Pool.inv_nodup _ _ _ s Hinv)|].
  intros j (r&->&Hr)%list_elem_of_fmap.
  apply (Pool.inv_sent _ _ _ s Hinv) in Hr as (k&c&q&_&_&Hc&->).
  rewrite worker_index. apply elem_of_seq. apply lookup_lt_Some in Hc. lia.
Qed.

(** X17. Under every schedule [errorCount] is at every moment the number
    of results received so far that carry an error, which is at most the
    number of results received and at most the number of chunks; when the
    collecting loop is over it is the number of chunks whose worker gave
    up after its last attempt. *)
Theorem errors_counted (service : service) (fl : Flags) (chunks : list string)
    (s : Pool.state) :
  pool_reachable service fl chunks s ->
  Pool.errorCount s
  = length (filter (fun r => Pool.failed r = true) (Pool.received s)) ∧
  Pool.errorCount s <= length (Pool.received s) ∧
  length (Pool.received s) <= length chunks ∧
  (Pool.pc s = Pool.MDone ->
   Pool.errorCount s
   = length (filter (fun r => Pool.failed r = true)
               (pool_outputs service fl chunks))).
Proof.
  intros Hreach. pose proof (pool_inv _ _ _ _ Hreach) as Hinv.
  pose proof (Pool.inv_errors _ _ _ s Hinv) as Herr.
  split; [exact Herr|]. split; [rewrite Herr; apply length_filter|].
  split; [pose proof (received_bounded _ _ _ _ Hreach); lia|].
  intros Hpc.
  by destruct (pool_final _ _ _ (worker_index service fl maxRetries) s Hreach Hpc)
    as (_&_&_&Hcount).
Qed.

Lemma errors_counted_witness :
  ∃ s, pool_exec (SampleMore.flaky 5) (Sample.flags "generate")
         ["first"; "second"] Sample.out_of_order Pool.init = Some s ∧
       Pool.pc s = Pool.MDone ∧
       Pool.errorCount s = 2.
Proof.
  destruct (pool_exec (SampleMore.flaky 5) (Sample.flags "generate")
              ["first"; "second"] Sample.out_of_order Pool.init) as [s|] eqn:Hexec;
    [|by vm_compute in Hexec].
  exists s. split; [reflexivity|].
  destruct (errors_counted _ _ _ s (pool_exec_reachable _ _ _ _ _ Hexec))
    as (Hcount&_&_&_).
  vm_compute in Hexec. injection Hexec as <-.
  split; [reflexivity|]. rewrite Hcount. reflexivity.
Defined.
